(** * maker-cli: the consensus engine, its canonical vote keys, the admission
    controller and the step orchestrator, embedded from the JavaScript sources.

    - [utils.js]        : [canonicalStringify]
    - [consensus.js]    : [getConsensusResultSequential], [getConsensusResultParallel]
    - [rate-limiter.js] : [RateLimiter]
    - [bin/maker.js]    : the step loop with its state merge and failure handler
    - [agent.js]        : [runMicroAgent], from the completed API call on
    - [planner.js]      : [decomposeTask], from the completed API call on
    - [tests/]          : the lite suite, [compareResults] and the argument
                          loop of its runner, the prompt builders of the
                          basic suite

    Modelling conventions.
    - A JavaScript object is its list of properties in creation order; the
      enumeration order of [Object.keys] / [Object.entries] / spread (array
      indices first, ascending, then the other keys in creation order) is
      written out in [Object_entries].
    - Numbers are integer valued ([Z]) and exact. The numbers of JavaScript
      are doubles: they hold the integers up to 2^53 - 1 in magnitude
      exactly, and [JSON.stringify] and [JSON.parse] write and read those
      digit by digit, as is done here with every integer. What is stated
      about the text of a number, or about a value read from such a text,
      is stated for those integers ([safe_integers]).
    - Strings are sequences of 8-bit characters, compared character by
      character as [Array.prototype.sort] does with code units.
    - The worker ([runMicroAgent]) is its sequence of results, [None] being the
      flagged result [null].
    - Loops that the source bounds by a counter are written with that guard
      and a fuel argument; [Diverge] is the completion of a run whose fuel ran
      out, and every result stated below is proved for enough fuel. *)

From Stdlib Require Import List ZArith NArith Arith Bool Lia String Ascii.
From Stdlib Require Import Permutation Sorted DecimalString.
From Stdlib Require DecimalFacts DecimalPos.
Import ListNotations.

Local Open Scope string_scope.
Local Open Scope list_scope.

Set Warnings "-register-all".

(* ================================================================= *)
(** ** JavaScript objects as property lists *)

Module JS.

(** The double quote and backslash characters. *)
Definition dquote : ascii := "034"%char.
Definition backslash : ascii := "092"%char.
Definition str1 (c : ascii) : string := String c EmptyString.

(** Number::toString on the integers, and on counters. *)
Definition string_of_Z (n : Z) : string := NilZero.string_of_int (Z.to_int n).
Definition string_of_nat (n : nat) : string := NilZero.string_of_uint (Nat.to_uint n).
Definition string_of_N (n : N) : string := NilZero.string_of_uint (N.to_uint n).

(** A property key is an array index when it is the canonical decimal form
    of an integer below 2^32 - 1. *)
Definition array_index (key : string) : option N :=
  match NilZero.uint_of_string key with
  | Some u =>
      let n := N.of_uint u in
      if (string_of_N n =? key) && (n <? 4294967295)%N then Some n else None
  | None => None
  end.

Definition is_index {V : Type} (p : string * V) : bool :=
  match array_index (fst p) with Some _ => true | None => false end.

Definition index_of {V : Type} (p : string * V) : N :=
  match array_index (fst p) with Some n => n | None => 0%N end.

Section Objects.
Context {V : Type}.

Definition object : Type := list (string * V).

(** [o[key]], [None] standing for [undefined]. *)
Fixpoint get (o : object) (key : string) : option V :=
  match o with
  | [] => None
  | (k, v) :: o' => if k =? key then Some v else get o' key
  end.

(** [o[key] = v]: an existing property keeps its place, a new one is
    created last. *)
Fixpoint set (o : object) (key : string) (v : V) : object :=
  match o with
  | [] => [(key, v)]
  | (k, v') :: o' =>
      if k =? key then (k, v) :: o' else (k, v') :: set o' key v
  end.

Fixpoint insert_index (p : string * V) (l : object) : object :=
  match l with
  | [] => [p]
  | q :: l' =>
      if (index_of p <=? index_of q)%N then p :: l else q :: insert_index p l'
  end.

Definition sort_index (l : object) : object := fold_right insert_index [] l.

(** OrdinaryOwnPropertyKeys: array indices in ascending order, then the
    string keys in creation order. *)
Definition Object_entries (o : object) : object :=
  sort_index (filter is_index o) ++ filter (fun p => negb (is_index p)) o.

Definition Object_keys (o : object) : list string := map fst (Object_entries o).

(** [{...a, ...b}] laid over an object under construction. *)
Definition spread (target source : object) : object :=
  fold_left (fun acc p => set acc (fst p) (snd p)) (Object_entries source) target.

End Objects.
Arguments object : clear implicits.

(** [Array.prototype.sort()] on strings: ascending by code units. *)
Fixpoint insert_key (k : string) (l : list string) : list string :=
  match l with
  | [] => [k]
  | k' :: l' => if (k <=? k')%string then k :: l else k' :: insert_key k l'
  end.

Definition sort_keys (l : list string) : list string := fold_right insert_key [] l.

End JS.

(* ================================================================= *)
(** ** JSON values *)

(** The values a worker can return: what [JSON.parse] produces, and
    [undefined], which [canonicalStringify] also accepts. *)
Inductive jsval : Type :=
| VUndefined
| VNull
| VBool (b : bool)
| VNum (n : Z)
| VStr (s : string)
| VArr (elements : list jsval)
| VObj (props : list (string * jsval)).

Section ValueInd.
Variable P : jsval -> Prop.
Hypothesis Hundef : P VUndefined.
Hypothesis Hnull : P VNull.
Hypothesis Hbool : forall b, P (VBool b).
Hypothesis Hnum : forall n, P (VNum n).
Hypothesis Hstr : forall s, P (VStr s).
Hypothesis Harr : forall xs, Forall P xs -> P (VArr xs).
Hypothesis Hobj : forall ps, Forall (fun p => P (snd p)) ps -> P (VObj ps).

Fixpoint jsval_nested_ind (v : jsval) : P v :=
  match v with
  | VUndefined => Hundef
  | VNull => Hnull
  | VBool b => Hbool b
  | VNum n => Hnum n
  | VStr s => Hstr s
  | VArr xs =>
      Harr xs ((fix go (l : list jsval) : Forall P l :=
                  match l with
                  | [] => Forall_nil _
                  | x :: l' => Forall_cons _ (jsval_nested_ind x) (go l')
                  end) xs)
  | VObj ps =>
      Hobj ps ((fix go (l : list (string * jsval)) : Forall (fun p => P (snd p)) l :=
                  match l with
                  | [] => Forall_nil _
                  | p :: l' => Forall_cons _ (jsval_nested_ind (snd p)) (go l')
                  end) ps)
  end.
End ValueInd.

(* ================================================================= *)
(** ** utils.js *)

Module Utils.
Import JS.

(** QuoteJSONString, the string case of [JSON.stringify]. *)
Definition hex_digit (n : nat) : ascii :=
  if (n <? 10)%nat then ascii_of_nat (48 + n) else ascii_of_nat (87 + n).

Definition quote_char (c : ascii) : string :=
  let n := nat_of_ascii c in
  if (n =? 8)%nat then String backslash "b"
  else if (n =? 9)%nat then String backslash "t"
  else if (n =? 10)%nat then String backslash "n"
  else if (n =? 12)%nat then String backslash "f"
  else if (n =? 13)%nat then String backslash "r"
  else if (n =? 34)%nat then String backslash (str1 dquote)
  else if (n =? 92)%nat then String backslash (str1 backslash)
  else if (n <? 32)%nat then
    String backslash ("u00" ++ str1 (hex_digit (n / 16)) ++ str1 (hex_digit (n mod 16)))
  else str1 c.

Fixpoint quote_chars (s : string) : string :=
  match s with
  | EmptyString => EmptyString
  | String c s' => quote_char c ++ quote_chars s'
  end.

Definition quote_string (s : string) : string :=
  str1 dquote ++ quote_chars s ++ str1 dquote.

(** [JSON.stringify] on the values whose [typeof] is not ['object']. An
    integer is written in full decimal, as [JSON.stringify] writes the
    integers below 10^21 in magnitude. *)
Definition JSON_stringify_primitive (v : jsval) : string :=
  match v with
  | VBool true => "true"
  | VBool false => "false"
  | VNum n => string_of_Z n
  | VStr s => quote_string s
  | _ => "undefined"
  end.

(** The key/value pair [`"${key}":${encoded}`]; the key is not escaped. *)
Definition pair_string (key encoded : string) : string :=
  str1 dquote ++ key ++ str1 dquote ++ ":" ++ encoded.

Definition encoded_at (enc : object string) (key : string) : string :=
  match get enc key with
  | Some s => s
  | None => "undefined"
  end.

(** [canonicalStringify]. The object case encodes every property value
    first and then reads [canonicalStringify(obj[key])] off that table for
    each sorted key; [canonicalStringify_object] below restates it with the
    lookup in [obj] itself, as the source has it. *)
Fixpoint canonicalStringify (obj : jsval) : string :=
  match obj with
  | VNull => "null"
  | VUndefined => "undefined"
  | VBool _ | VNum _ | VStr _ => JSON_stringify_primitive obj
  | VArr elements =>
      "[" ++ String.concat "," (map canonicalStringify elements) ++ "]"
  | VObj props =>
      let enc := map (fun p => (fst p, canonicalStringify (snd p))) props in
      let keys := sort_keys (Object_keys props) in
      let pairs := map (fun key => pair_string key (encoded_at enc key)) keys in
      "{" ++ String.concat "," pairs ++ "}"
  end.

(** [obj[key]] on a value that is an object. *)
Definition prop (props : object jsval) (key : string) : jsval :=
  match get props key with
  | Some v => v
  | None => VUndefined
  end.

End Utils.

(* ================================================================= *)
(** ** JSON.parse *)

(** The built-in the engine decodes a winning key with, after ECMA-404:
    whitespace, the three literals, integer number literals, strings with
    their escapes, arrays and objects (a repeated member name overwrites).
    [None] is the thrown [SyntaxError]. Of the number literals only the
    integers without fraction and exponent are read, and they are read
    exactly; [JSON.parse] reads every number literal, as the double
    nearest to it. The two agree on the texts whose number literals are
    integers up to 2^53 - 1 in magnitude, as the canonical key of a value
    with such numbers is. [-0] is read as [0], which is written and tested
    alike. Of the escapes [\uXXXX] those of the 8-bit characters are
    read. *)
Module JSON.
Import JS.

Definition is_ws (c : ascii) : bool :=
  let n := nat_of_ascii c in
  ((n =? 32) || (n =? 9) || (n =? 10) || (n =? 13))%nat.

Fixpoint skip_ws (s : string) : string :=
  match s with
  | String c s' => if is_ws c then skip_ws s' else s
  | EmptyString => s
  end.

Definition is_digit (c : ascii) : bool :=
  let n := nat_of_ascii c in ((48 <=? n) && (n <=? 57))%nat.

Fixpoint take_digits (s : string) : string * string :=
  match s with
  | String c s' =>
      if is_digit c then let (ds, rest) := take_digits s' in (String c ds, rest)
      else (EmptyString, s)
  | EmptyString => (EmptyString, s)
  end.

Definition starts_fraction (s : string) : bool :=
  match s with
  | String c _ => ((c =? ".") || (c =? "e") || (c =? "E"))%char
  | EmptyString => false
  end.

Definition parse_digits (negative : bool) (s : string) : option (Z * string) :=
  let (ds, rest) := take_digits s in
  match ds with
  | EmptyString => None
  | String d ds' =>
      if ((d =? "0")%char && negb (ds' =? "")) || starts_fraction rest then None
      else
        match NilZero.uint_of_string ds with
        | Some u =>
            let n := Z.of_uint u in
            Some (if negative then (- n)%Z else n, rest)
        | None => None
        end
  end.

Definition parse_number (s : string) : option (Z * string) :=
  match s with
  | String c s' => if (c =? "-")%char then parse_digits true s' else parse_digits false s
  | EmptyString => None
  end.

Definition hex_value (c : ascii) : option nat :=
  let n := nat_of_ascii c in
  if ((48 <=? n) && (n <=? 57))%nat then Some (n - 48)
  else if ((97 <=? n) && (n <=? 102))%nat then Some (n - 87)
  else if ((65 <=? n) && (n <=? 70))%nat then Some (n - 55)
  else None.

(** [\uXXXX] within the 8-bit characters of this model. *)
Definition unicode_escape (h1 h2 h3 h4 : ascii) : option ascii :=
  match hex_value h1, hex_value h2, hex_value h3, hex_value h4 with
  | Some 0, Some 0, Some a, Some b => Some (ascii_of_nat (16 * a + b))
  | _, _, _, _ => None
  end.

Definition simple_escape (e : ascii) : option ascii :=
  let n := nat_of_ascii e in
  if (n =? 34)%nat then Some dquote
  else if (n =? 92)%nat then Some backslash
  else if (n =? 47)%nat then Some "/"%char
  else if (n =? 98)%nat then Some (ascii_of_nat 8)
  else if (n =? 102)%nat then Some (ascii_of_nat 12)
  else if (n =? 110)%nat then Some (ascii_of_nat 10)
  else if (n =? 114)%nat then Some (ascii_of_nat 13)
  else if (n =? 116)%nat then Some (ascii_of_nat 9)
  else None.

Definition cons_char (c : ascii) (r : option (string * string)) : option (string * string) :=
  match r with
  | Some (body, rest) => Some (String c body, rest)
  | None => None
  end.

(** The characters of a string literal after its opening quote, up to and
    including the closing one. *)
Fixpoint parse_chars (s : string) : option (string * string) :=
  match s with
  | EmptyString => None
  | String c s' =>
      if (c =? dquote)%char then Some (EmptyString, s')
      else if (c =? backslash)%char then
        match s' with
        | String e s'' =>
            if (e =? "u")%char then
              match s'' with
              | String h1 (String h2 (String h3 (String h4 s4))) =>
                  match unicode_escape h1 h2 h3 h4 with
                  | Some u => cons_char u (parse_chars s4)
                  | None => None
                  end
              | _ => None
              end
            else
              match simple_escape e with
              | Some u => cons_char u (parse_chars s'')
              | None => None
              end
        | EmptyString => None
        end
      else if (nat_of_ascii c <? 32)%nat then None
      else cons_char c (parse_chars s')
  end.

Definition expect (c : ascii) (s : string) : option string :=
  match skip_ws s with
  | String c' s' => if (c' =? c)%char then Some s' else None
  | EmptyString => None
  end.

Definition starts_with (pre s : string) : option string :=
  if String.prefix pre s then
    Some (String.substring (String.length pre) (String.length s - String.length pre) s)
  else None.

Section Composite.
Variable parse_element : string -> option (jsval * string).

(** Elements after the first, up to the closing bracket. *)
Fixpoint parse_elements (fuel : nat) (acc : list jsval) (s : string)
  : option (list jsval * string) :=
  match fuel with
  | O => None
  | S fuel' =>
      match skip_ws s with
      | String c s' =>
          if (c =? "]")%char then Some (rev acc, s')
          else if (c =? ",")%char then
            match parse_element s' with
            | Some (v, rest) => parse_elements fuel' (v :: acc) rest
            | None => None
            end
          else None
      | EmptyString => None
      end
  end.

Definition parse_member (s : string) : option (string * jsval * string) :=
  match expect dquote s with
  | Some s1 =>
      match parse_chars s1 with
      | Some (key, s2) =>
          match expect ":" s2 with
          | Some s3 =>
              match parse_element s3 with
              | Some (v, rest) => Some (key, v, rest)
              | None => None
              end
          | None => None
          end
      | None => None
      end
  | None => None
  end.

Fixpoint parse_members (fuel : nat) (acc : object jsval) (s : string)
  : option (object jsval * string) :=
  match fuel with
  | O => None
  | S fuel' =>
      match skip_ws s with
      | String c s' =>
          if (c =? "}")%char then Some (acc, s')
          else if (c =? ",")%char then
            match parse_member s' with
            | Some (key, v, rest) => parse_members fuel' (set acc key v) rest
            | None => None
            end
          else None
      | EmptyString => None
      end
  end.
End Composite.

Fixpoint parse_value (fuel : nat) (s : string) : option (jsval * string) :=
  match fuel with
  | O => None
  | S fuel' =>
      let s0 := skip_ws s in
      match s0 with
      | EmptyString => None
      | String c s' =>
          if (c =? "[")%char then
            match skip_ws s' with
            | String c1 s1 =>
                if (c1 =? "]")%char then Some (VArr [], s1)
                else
                  match parse_value fuel' s' with
                  | Some (v, rest) =>
                      match parse_elements (parse_value fuel') fuel' [v] rest with
                      | Some (vs, rest') => Some (VArr vs, rest')
                      | None => None
                      end
                  | None => None
                  end
            | EmptyString => None
            end
          else if (c =? "{")%char then
            match skip_ws s' with
            | String c1 s1 =>
                if (c1 =? "}")%char then Some (VObj [], s1)
                else
                  match parse_member (parse_value fuel') s' with
                  | Some (key, v, rest) =>
                      match parse_members (parse_value fuel') fuel' [(key, v)] rest with
                      | Some (ps, rest') => Some (VObj ps, rest')
                      | None => None
                      end
                  | None => None
                  end
            | EmptyString => None
            end
          else if (c =? dquote)%char then
            match parse_chars s' with
            | Some (body, rest) => Some (VStr body, rest)
            | None => None
            end
          else
            match starts_with "null" s0, starts_with "true" s0, starts_with "false" s0 with
            | Some rest, _, _ => Some (VNull, rest)
            | _, Some rest, _ => Some (VBool true, rest)
            | _, _, Some rest => Some (VBool false, rest)
            | None, None, None =>
                match parse_number s0 with
                | Some (n, rest) => Some (VNum n, rest)
                | None => None
                end
            end
      end
  end.

Definition JSON_parse (text : string) : option jsval :=
  match parse_value (S (String.length text)) text with
  | Some (v, rest) =>
      match skip_ws rest with
      | EmptyString => Some v
      | String _ _ => None
      end
  | None => None
  end.

End JSON.

(* ================================================================= *)
(** ** config.js *)

Record CONFIG : Type := {
  MODEL_NAME : string;
  VOTE_MARGIN_K : Z;
  MAX_ATTEMPTS_PER_STEP : nat;
  MAX_RPM : Z;
  BATCH_SIZE : nat;
  ENABLE_PARALLEL : bool;
  EARLY_TERMINATION : bool;
  DEV_MODE : bool
}.

(* ================================================================= *)
(** ** consensus.js *)

Module Consensus.
Import JS Utils JSON.

(** The argument of the [onVote] callback. *)
Inductive voteType : Type := flagged | valid.

Inductive exception : Type :=
| Error (message : string)
| SyntaxError
| TypeError.

Inductive completion (A : Type) : Type :=
| Return (a : A)
| Throw (e : exception)
| Diverge.
Arguments Return {A} a.
Arguments Throw {A} e.
Arguments Diverge {A}.

Record Metadata : Type := {
  voteMargin : Z;
  totalVotes : nat;
  attempts : nat
}.

(** The object [{ value, metadata }] a decided step returns. *)
Record consensus : Type := {
  value : jsval;
  metadata : Metadata
}.

(** A run: the [onVote] calls it made, in order, and how it completed. *)
Definition run (A : Type) : Type := (list voteType * A)%type.

Definition emit {A : Type} (v : voteType) (r : run A) : run A := (v :: fst r, snd r).
Definition after {A : Type} (log : list voteType) (r : run A) : run A := (log ++ fst r, snd r).

Definition tally : Type := object Z.

(** [votes[resultKey] = (votes[resultKey] || 0) + 1] *)
Definition or_zero (count : option Z) : Z :=
  match count with
  | Some n => if (n =? 0)%Z then 0%Z else n
  | None => 0%Z
  end.

Definition cast_vote (votes : tally) (resultKey : string) : tally :=
  set votes resultKey (or_zero (get votes resultKey) + 1)%Z.

(** [.sort((a, b) => b[1] - a[1])]: stable, so an entry goes in front of the
    first one the comparator does not put before it. *)
Fixpoint insert_entry (a : string * Z) (l : list (string * Z)) : list (string * Z) :=
  match l with
  | [] => [a]
  | b :: l' => if (snd b - snd a <=? 0)%Z then a :: l else b :: insert_entry a l'
  end.

Definition sort_by_votes (l : list (string * Z)) : list (string * Z) :=
  fold_right insert_entry [] l.

(** [leader], and [margin = leaderVotes - runnerUpVotes]. *)
Definition standing (votes : tally) : option ((string * Z) * Z) :=
  let sortedResults := sort_by_votes (Object_entries votes) in
  match sortedResults with
  | leader :: rest =>
      let leaderVotes := snd leader in
      let runnerUpVotes :=
        match rest with
        | runnerUp :: _ => snd runnerUp
        | [] => 0%Z
        end in
      Some (leader, (leaderVotes - runnerUpVotes)%Z)
  | [] => None
  end.

(** The [return { value: JSON.parse(leader[0]), metadata: {...} }] statement. *)
Definition declare (leader : string * Z) (margin : Z) (attempts : nat)
  : completion consensus :=
  match JSON_parse (fst leader) with
  | Some v =>
      Return {| value := v;
                metadata := {| voteMargin := margin;
                               totalVotes := attempts;
                               attempts := attempts |} |}
  | None => Throw SyntaxError
  end.

Definition unresolved (cfg : CONFIG) : exception :=
  Error ("Failed to reach consensus after "
           ++ string_of_nat (MAX_ATTEMPTS_PER_STEP cfg) ++ " attempts.").

Section Engine.
Variable cfg : CONFIG.

(** [runMicroAgent(context, instruction, customPrompt)] for the step being
    resolved: the result of its n-th invocation, [None] for [null]. *)
Variable runMicroAgent : nat -> option jsval.

(** The check made after a vote, the same in the three places it occurs:
    [Some] is the return taken, [None] is falling through. *)
Definition decide (votes : tally) (attempts : nat) : option (completion consensus) :=
  match standing votes with
  | Some (leader, margin) =>
      if (VOTE_MARGIN_K cfg <=? margin)%Z then Some (declare leader margin attempts)
      else None
  | None => None
  end.

Fixpoint sequential_loop (fuel : nat) (votes : tally) (attempts : nat)
  : run (completion consensus) :=
  if (attempts <? MAX_ATTEMPTS_PER_STEP cfg)%nat then
    match fuel with
    | O => ([], Diverge)
    | S fuel' =>
        let result := runMicroAgent attempts in
        let attempts := S attempts in
        match result with
        | None => emit flagged (sequential_loop fuel' votes attempts)
        | Some result =>
            let resultKey := canonicalStringify result in
            let votes := cast_vote votes resultKey in
            emit valid
              match decide votes attempts with
              | Some c => ([], c)
              | None => sequential_loop fuel' votes attempts
              end
        end
    end
  else ([], Throw (unresolved cfg)).

Definition getConsensusResultSequential (fuel : nat) : run (completion consensus) :=
  sequential_loop fuel [] 0.

(** [for (const promise of promises)] of the early-termination mode:
    [inl] is a return from inside the loop, [inr] the state it ends with. *)
Fixpoint early_batch (promises : list (option jsval)) (votes : tally) (totalAttempts : nat)
  : run (completion consensus + tally * nat) :=
  match promises with
  | [] => ([], inr (votes, totalAttempts))
  | promise :: promises' =>
      let totalAttempts := S totalAttempts in
      match promise with
      | None => emit flagged (early_batch promises' votes totalAttempts)
      | Some result =>
          let resultKey := canonicalStringify result in
          let votes := cast_vote votes resultKey in
          emit valid
            match decide votes totalAttempts with
            | Some c => ([], inl c)
            | None => early_batch promises' votes totalAttempts
            end
      end
  end.

(** [for (const result of results)] of the standard batch mode. *)
Fixpoint tally_batch (results : list (option jsval)) (votes : tally) : run tally :=
  match results with
  | [] => ([], votes)
  | None :: results' => emit flagged (tally_batch results' votes)
  | Some result :: results' =>
      let resultKey := canonicalStringify result in
      emit valid (tally_batch results' (cast_vote votes resultKey))
  end.

Fixpoint parallel_loop (fuel : nat) (votes : tally) (totalAttempts : nat)
  : run (completion consensus) :=
  if (totalAttempts <? MAX_ATTEMPTS_PER_STEP cfg)%nat then
    match fuel with
    | O => ([], Diverge)
    | S fuel' =>
        let remainingAttempts := MAX_ATTEMPTS_PER_STEP cfg - totalAttempts in
        let batchSize := Nat.min (BATCH_SIZE cfg) remainingAttempts in
        let promises := map runMicroAgent (seq totalAttempts batchSize) in
        if EARLY_TERMINATION cfg then
          match early_batch promises votes totalAttempts with
          | (log, inl c) => (log, c)
          | (log, inr (votes', totalAttempts')) =>
              after log (parallel_loop fuel' votes' totalAttempts')
          end
        else
          let results := promises in
          let totalAttempts := totalAttempts + batchSize in
          let (log, votes') := tally_batch results votes in
          match decide votes' totalAttempts with
          | Some c => (log, c)
          | None => after log (parallel_loop fuel' votes' totalAttempts)
          end
    end
  else ([], Throw (unresolved cfg)).

Definition getConsensusResultParallel (fuel : nat) : run (completion consensus) :=
  parallel_loop fuel [] 0.

Definition getConsensusResult (fuel : nat) : run (completion consensus) :=
  if ENABLE_PARALLEL cfg then getConsensusResultParallel fuel
  else getConsensusResultSequential fuel.

End Engine.

(** A finite ballot sequence as a worker: flagged once it is used up. *)
Definition ballots (l : list (option jsval)) : nat -> option jsval :=
  fun n => nth n l None.

End Consensus.

(* ================================================================= *)
(** ** rate-limiter.js *)

(** The limiter runs on the event loop: a call of [throttle] or the firing
    of the timer it sleeps on runs [processQueue] up to its next [await] and
    the clock [Date.now()] is read as not advancing during such a run; time
    passes between runs. A task is the [{ fn, resolve, reject }] entry. *)
Module RateLimiter.

Section Limiter.
Variable T : Type.

Record RateLimiter : Type := {
  maxRpm : Z;
  queue : list T;
  processing : bool;
  requestTimestamps : list Z
}.

Definition constructor (maxRpm : Z) : RateLimiter :=
  {| maxRpm := maxRpm; queue := []; processing := false; requestTimestamps := [] |}.

(** [filter(t => now - t < 60000)] *)
Definition prune (now : Z) (timestamps : list Z) : list Z :=
  filter (fun t => (now - t <? 60000)%Z) timestamps.

(** [60000 - (now - oldestCall) + 100]; with no timestamp to read the
    result is not a number and the timer takes its least delay. *)
Definition timeToWait (now : Z) (timestamps : list Z) : Z :=
  match timestamps with
  | oldestCall :: _ => (60000 - (now - oldestCall) + 100)%Z
  | [] => 1%Z
  end.

(** What one run of the [while] loop leaves behind: the limiter, the
    tasks it started with their timestamps, and the delay it went to
    sleep for, if it did. *)
Record pass : Type := {
  limiter_after : RateLimiter;
  started_now : list (T * Z);
  sleeping : option Z
}.

Fixpoint while_queue (maxRpm now : Z) (queue : list T) (timestamps : list Z) : pass :=
  match queue with
  | [] =>
      {| limiter_after := {| maxRpm := maxRpm; queue := [];
                             processing := false;
                             requestTimestamps := timestamps |};
         started_now := [];
         sleeping := None |}
  | task :: rest =>
      let timestamps := prune now timestamps in
      if (Z.of_nat (List.length timestamps) <? maxRpm)%Z then
        let p := while_queue maxRpm now rest (timestamps ++ [now]) in
        {| limiter_after := limiter_after p;
           started_now := (task, now) :: started_now p;
           sleeping := sleeping p |}
      else
        {| limiter_after := {| maxRpm := maxRpm; queue := queue;
                               processing := true;
                               requestTimestamps := timestamps |};
           started_now := [];
           sleeping := Some (timeToWait now timestamps) |}
  end.

(** The state of the program around the limiter: the clock, the timer the
    loop sleeps on (its due time) and every task started so far. *)
Record world : Type := {
  limiter : RateLimiter;
  clock : Z;
  timer : option Z;
  started : list (T * Z)
}.

Definition boot (maxRpm now : Z) : world :=
  {| limiter := constructor maxRpm; clock := now; timer := None; started := [] |}.

(** The loop from its head, entered by [processQueue] or resumed by the
    timer. *)
Definition resume (w : world) : world :=
  let l := limiter w in
  let p := while_queue (maxRpm l) (clock w) (queue l) (requestTimestamps l) in
  {| limiter := limiter_after p;
     clock := clock w;
     timer := match sleeping p with
              | Some delay => Some (clock w + delay)%Z
              | None => None
              end;
     started := started w ++ started_now p |}.

Definition processQueue (w : world) : world :=
  if processing (limiter w) then w else resume w.

Definition throttle (task : T) (w : world) : world :=
  let l := limiter w in
  processQueue
    {| limiter := {| maxRpm := maxRpm l; queue := queue l ++ [task];
                     processing := processing l;
                     requestTimestamps := requestTimestamps l |};
       clock := clock w; timer := timer w; started := started w |}.

Definition getAvailableRequests (w : world) : Z * world :=
  let l := limiter w in
  let timestamps := prune (clock w) (requestTimestamps l) in
  (Z.max 0 (maxRpm l - Z.of_nat (List.length timestamps)),
   {| limiter := {| maxRpm := maxRpm l; queue := queue l;
                    processing := processing l;
                    requestTimestamps := timestamps |};
      clock := clock w; timer := timer w; started := started w |}).

Definition canMakeRequests (count : Z) (w : world) : bool * world :=
  let (available, w') := getAvailableRequests w in ((count <=? available)%Z, w').

(** What can happen next. *)
Inductive event : Type :=
| Throttle (task : T)
| Elapse (ms : N)
| TimerFires
| GetAvailableRequests.

Definition step (w : world) (e : event) : world :=
  match e with
  | Throttle task => throttle task w
  | Elapse ms =>
      {| limiter := limiter w; clock := (clock w + Z.of_N ms)%Z;
         timer := timer w; started := started w |}
  | TimerFires =>
      match timer w with
      | Some due => if (due <=? clock w)%Z then resume w else w
      | None => w
      end
  | GetAvailableRequests => snd (getAvailableRequests w)
  end.

Definition run (w : world) (events : list event) : world := fold_left step events w.

Definition submitted (events : list event) : list T :=
  flat_map (fun e => match e with Throttle task => [task] | _ => [] end) events.

(** The timestamps of [l] in the 60 seconds from [s] on. *)
Definition in_window (s t : Z) : bool := ((s <=? t) && (t <? s + 60000))%Z.
Definition admissions_in (s : Z) (l : list Z) : nat := List.length (filter (in_window s) l).

(** The timestamps of the trailing 60 seconds at the time [now]. *)
Definition in_trailing_window (now : Z) (l : list Z) : nat :=
  List.length (filter (fun t => (now - t <? 60000)%Z) l).

(** Fewer than [maxRpm] admissions lie in the trailing 60 seconds. *)
Definition under_capacity (w : world) : Prop :=
  (Z.of_nat (in_trailing_window (clock w) (requestTimestamps (limiter w)))
   < maxRpm (limiter w))%Z.

(** Submitting [task] now starts it now, with no timer set. *)
Definition admitted_at_once (task : T) (w : world) : Prop :=
  started (throttle task w) = started w ++ [(task, clock w)] /\
  timer (throttle task w) = None.

End Limiter.

Arguments maxRpm {T} _.
Arguments queue {T} _.
Arguments processing {T} _.
Arguments requestTimestamps {T} _.
Arguments limiter {T} _.
Arguments clock {T} _.
Arguments timer {T} _.
Arguments started {T} _.
Arguments Throttle {T} task.
Arguments Elapse {T} ms.
Arguments TimerFires {T}.
Arguments GetAvailableRequests {T}.
Arguments boot {T} maxRpm now.
Arguments run {T} w events.
Arguments step {T} w e.
Arguments throttle {T} task w.
Arguments submitted {T} events.
Arguments under_capacity {T} w.
Arguments admitted_at_once {T} task w.

End RateLimiter.

(* ================================================================= *)
(** ** bin/maker.js *)

(** The action of the [maker] command. The planner and the worker are the
    two external calls: [decomposeTask] gives the steps or throws, and
    [runMicroAgent context instruction n] is the result of the n-th worker
    invocation made for a step. What the command writes is kept as a list
    of [output]s; [chalk] styling and the emoji are left out of the texts. *)
Module Maker.
Import JS Utils JSON Consensus.

(** [JSON.stringify(v)]; [None] is [undefined]. *)
Definition member_string (p : string * option string) : list string :=
  match snd p with
  | Some encoded => [(quote_string (fst p) ++ ":" ++ encoded)%string]
  | None => []
  end.

Definition element_string (encoded : option string) : string :=
  match encoded with
  | Some s => s
  | None => "null"
  end.

Fixpoint JSON_stringify (v : jsval) : option string :=
  match v with
  | VUndefined => None
  | VNull => Some "null"
  | VBool _ | VNum _ | VStr _ => Some (JSON_stringify_primitive v)
  | VArr elements =>
      Some ("[" ++ String.concat "," (map (fun e => element_string (JSON_stringify e)) elements)
                ++ "]")%string
  | VObj props =>
      let enc := map (fun p => (fst p, JSON_stringify (snd p))) props in
      Some ("{" ++ String.concat "," (flat_map member_string (Object_entries enc)) ++ "}")%string
  end.

(** A value inside a template literal. *)
Definition to_string (v : jsval) : string :=
  match v with
  | VStr s => s
  | VNull => "null"
  | VArr _ | VObj _ => element_string (JSON_stringify v)
  | _ => JSON_stringify_primitive v
  end.

Definition is_object (v : jsval) : bool :=
  match v with
  | VNull | VArr _ | VObj _ => true
  | _ => false
  end.

Definition truthy (v : jsval) : bool :=
  match v with
  | VUndefined | VNull => false
  | VBool b => b
  | VNum n => negb (n =? 0)%Z
  | VStr s => negb (s =? "")
  | VArr _ | VObj _ => true
  end.

Fixpoint characters (s : string) : list jsval :=
  match s with
  | EmptyString => []
  | String c s' => VStr (str1 c) :: characters s'
  end.

(** [[...v]]: the elements of an array, the characters of a string, and a
    [TypeError] for a value that is not iterable. *)
Definition iterate (v : jsval) : option (list jsval) :=
  match v with
  | VArr elements => Some elements
  | VStr s => Some (characters s)
  | _ => None
  end.

(** [.slice(-5)] *)
Definition slice_last5 (l : list jsval) : list jsval := skipn (List.length l - 5) l.

Definition state : Type := object jsval.

Definition initial_state (prompt : string) : state :=
  [("original_task", VStr prompt); ("history", VArr [])].

(** SMART STATE MANAGEMENT: the new state after a step won by [value]. *)
Definition merge (st : state) (value : jsval) : completion state :=
  let previousHistory :=
    match get st "history" with
    | Some h => if truthy h then h else VArr []
    | None => VArr []
    end in
  match iterate previousHistory with
  | None => Throw TypeError
  | Some items =>
      let updatedHistory := slice_last5 (items ++ [value]) in
      match value with
      | VObj props =>
          Return (set (spread (spread [] st) props) "history" (VArr updatedHistory))
      | _ =>
          Return (set (set (spread [] st) "current_value" value)
                      "history" (VArr updatedHistory))
      end
  end.

(** An argument of [console.error]: a text, a value printed with
    [JSON.stringify(v, null, 2)], or the error itself. *)
Inductive item : Type :=
| Text (s : string)
| Pretty (v : jsval)
| Thrown (e : exception).

Inductive output : Type :=
| console_log (s : string)
| console_log_pretty (v : jsval)
| console_error (args : list item)
| spinner_start (text : string)
| spinner_text (text : string)
| spinner_succeed (text : string)
| spinner_fail (text : string).

(** How the run ends: with the final result printed, by [process.exit], or
    never. *)
Inductive ending : Type :=
| Finished (final : state)
| Exited (code : nat) (last : state)
| Hangs.

(** [error.message]. For the two built-in errors the wording is that of
    the JavaScript engine and depends on what was parsed or iterated; a
    fixed text stands for it. *)
Definition message (e : exception) : string :=
  match e with
  | Error m => m
  | SyntaxError => "Unexpected token in JSON"
  | TypeError => "object is not iterable"
  end.

Section Action.
Variable cfg : CONFIG.
Variable runMicroAgent : state -> string -> nat -> option jsval.

Definition step_label (i total : nat) (step : string) : string :=
  "Step " ++ string_of_nat (i + 1) ++ "/" ++ string_of_nat total ++ ": " ++ step.

(** The [onVote] callback handed to the engine. *)
Definition on_vote (i total : nat) (step : string) (voteType : voteType) : output :=
  match voteType with
  | valid => spinner_text (step_label i total step ++ " (Voting...)")
  | flagged => spinner_text (step_label i total step ++ " (Flagged)")
  end.

Definition substring50 (s : string) : string := String.substring 0 50 s.

Definition report_success (i : nat) (result : consensus) : list output :=
  let v := value result in
  let valStr := if is_object v then substring50 (element_string (JSON_stringify v))
                else to_string v in
  let kInfo := if DEV_MODE cfg
               then (" (K=" ++ string_of_Z (voteMargin (metadata result)) ++ ")")%string
               else "" in
  spinner_succeed ("Step " ++ string_of_nat (i + 1) ++ " Complete: " ++ valStr ++ kInfo)
  :: (if DEV_MODE cfg
      then [console_log ("  Full Result: " ++ element_string (JSON_stringify v))]
      else []).

(** The [catch] block of a step, up to [process.exit(1)]. *)
Definition report_failure (i : nat) (step : string) (st : state) (error : exception)
  : list output :=
  spinner_fail ("Step " ++ string_of_nat (i + 1) ++ " Failed: " ++ message error)
  :: (if DEV_MODE cfg
      then [console_error [Text (String "010"%char "[DEV MODE] Step Failure Details:")];
            console_error [Text "Step:"; Text step];
            console_error [Text "State:"; Pretty (VObj st)];
            console_error [Text "Error:"; Thrown error];
            console_error [Text "Stack:"; Thrown error]]
      else []).

Definition pit_stop (high : bool) (i : nat) : list output :=
  if (0 <? i)%nat && (i mod 60 =? 0)%nat && high
  then [spinner_start "Rate Limit Safety: Cooling down for 60s...";
        spinner_succeed "Cooled down. Resuming."]
  else [].

(** [for (let i = 0; i < steps.length; i++)], from step [i] on. *)
Fixpoint execute (high : bool) (total : nat) (steps : list string) (i : nat) (st : state)
  : list output * ending :=
  match steps with
  | [] =>
      ([console_log (String "010"%char "Final Result:"); console_log_pretty (VObj st)],
       Finished st)
  | step :: rest =>
      let head := pit_stop high i ++ [spinner_start (step_label i total step)] in
      let (votes, outcome) :=
        getConsensusResult cfg (runMicroAgent st step) (MAX_ATTEMPTS_PER_STEP cfg) in
      let voting := map (on_vote i total step) votes in
      match outcome with
      | Return result =>
          match merge st (value result) with
          | Return st' =>
              let (out, e) := execute high total rest (S i) st' in
              (head ++ voting ++ report_success i result ++ out, e)
          | Throw error =>
              (head ++ voting ++ report_failure i step st error, Exited 1 st)
          | Diverge => (head ++ voting, Hangs)
          end
      | Throw error => (head ++ voting ++ report_failure i step st error, Exited 1 st)
      | Diverge => (head ++ voting, Hangs)
      end
  end.

End Action.

(** [--high]: the model and the request limit are overridden. *)
Definition high_quality (cfg : CONFIG) : CONFIG :=
  {| MODEL_NAME := "gemini-flash-latest";
     VOTE_MARGIN_K := VOTE_MARGIN_K cfg;
     MAX_ATTEMPTS_PER_STEP := MAX_ATTEMPTS_PER_STEP cfg;
     MAX_RPM := 500;
     BATCH_SIZE := BATCH_SIZE cfg;
     ENABLE_PARALLEL := ENABLE_PARALLEL cfg;
     EARLY_TERMINATION := EARLY_TERMINATION cfg;
     DEV_MODE := DEV_MODE cfg |}.

(** The action, with the steps the planner returned or the error it threw. *)
Definition action (cfg : CONFIG) (runMicroAgent : state -> string -> nat -> option jsval)
    (high : bool) (prompt : string) (plan : list string + exception)
  : list output * ending :=
  let cfg := if high then high_quality cfg else cfg in
  let banner :=
    (if high then [console_log "Using gemini-flash-latest (high quality mode)"] else [])
    ++ [console_log "MAKER CLI - Initializing..."; spinner_start "Decomposing task..."] in
  match plan with
  | inl steps =>
      let (out, e) :=
        execute cfg runMicroAgent high (List.length steps) steps 0 (initial_state prompt) in
      (banner
         ++ [spinner_succeed ("Plan created with " ++ string_of_nat (List.length steps)
                                ++ " steps.")]
         ++ out, e)
  | inr error =>
      (banner ++ [spinner_fail ("Error: " ++ message error)],
       Exited 1 (initial_state prompt))
  end.

End Maker.

(* ================================================================= *)
(** ** The margin rule, stated on ballot sequences *)

(** What the claims say about a ballot sequence, independently of the tally
    object the engine keeps: how often a candidate occurs among the counted
    ballots, the highest count among the other candidates, and the lead. *)
Module Ballots.
Import JS Utils Consensus.

(** The canonical keys of the counted ballots among the first [n] results. *)
Fixpoint counted (w : nat -> option jsval) (n : nat) : list string :=
  match n with
  | O => []
  | S n' =>
      counted w n' ++
      match w n' with
      | Some result => [canonicalStringify result]
      | None => []
      end
  end.

Definition tag (b : option jsval) : voteType :=
  match b with Some _ => valid | None => flagged end.

(** The [onVote] calls for the results [a], ..., [n - 1]. *)
Definition events (w : nat -> option jsval) (a n : nat) : list voteType :=
  map (fun i => tag (w i)) (seq a (n - a)).

Definition cnt (ks : list string) (k : string) : Z :=
  Z.of_nat (count_occ string_dec ks k).

Definition others (ks : list string) (k : string) : list string :=
  filter (fun k' => negb (k' =? k)) ks.

(** The count of the next-highest distinct candidate, 0 if there is none. *)
Definition runner_up (ks : list string) (k : string) : Z :=
  fold_right Z.max 0%Z (map (cnt ks) (others ks k)).

Definition lead (ks : list string) (k : string) : Z :=
  (cnt ks k - runner_up ks k)%Z.

(** Candidate [k] is ahead by [K] among the counted ballots [ks]. *)
Definition ahead_by (K : Z) (ks : list string) (k : string) : Prop :=
  In k ks /\ (K <= lead ks k)%Z.

(** [k] is ahead by [K] after [n] results and nobody was before. *)
Definition first_reach (K : Z) (w : nat -> option jsval) (n : nat) (k : string) : Prop :=
  ahead_by K (counted w n) k /\
  forall j k', j < n -> ~ ahead_by K (counted w j) k'.

(** Two candidates [a] and [b] within one vote of each other, and no other
    candidate above them. *)
Definition race_tied (a b : string) (ks : list string) : bool :=
  (Z.abs (cnt ks a - cnt ks b) <=? 1)%Z &&
  forallb (fun k => (cnt ks k <=? Z.max (cnt ks a) (cnt ks b))%Z) ks.

(** The number of [valid] calls in a log: the accepted votes. *)
Definition accepted (log : list voteType) : nat :=
  List.length (filter (fun v => match v with valid => true | flagged => false end) log).

(** [l'] is [l] with flagged results put in between. *)
Inductive interleaved : list (option jsval) -> list (option jsval) -> Prop :=
| interleaved_nil : interleaved [] []
| interleaved_keep b l l' : interleaved l l' -> interleaved (b :: l) (b :: l')
| interleaved_flag l l' : interleaved l l' -> interleaved l (None :: l').

End Ballots.

(** The First-to-Ahead-by-K rule as a property of a run [r] of the engine on
    the results [w]: either some candidate is first ahead by K after [n]
    results, within the ceiling, and [r] made the [n] callbacks and took the
    return for that candidate with that lead and attempt count; or nobody is
    ahead by K within the ceiling and [r] used it up and threw. *)
Module MarginRule.
Import JS Utils Consensus Ballots.

Definition holds (cfg : CONFIG) (w : nat -> option jsval)
    (r : run (completion consensus)) : Prop :=
  let K := VOTE_MARGIN_K cfg in
  let MAX := MAX_ATTEMPTS_PER_STEP cfg in
  (exists n k,
      n <= MAX /\ first_reach K w n k /\
      r = (events w 0 n,
           declare (k, cnt (counted w n) k) (lead (counted w n) k) n))
  \/
  ((forall n k, n <= MAX -> ~ ahead_by K (counted w n) k) /\
   r = (events w 0 MAX, Throw (unresolved cfg))).

End MarginRule.

(* ================================================================= *)
(** ** Structural equality of values *)

Module Structural.
Import JS.

(** Two values are structurally equal: the same scalar, arrays with equal
    elements in the same order, objects with the same key/value pairs in any
    order. *)
Inductive same_value : jsval -> jsval -> Prop :=
| same_undefined : same_value VUndefined VUndefined
| same_null : same_value VNull VNull
| same_bool b : same_value (VBool b) (VBool b)
| same_num n : same_value (VNum n) (VNum n)
| same_str s : same_value (VStr s) (VStr s)
| same_arr xs ys :
    Forall2 same_value xs ys -> same_value (VArr xs) (VArr ys)
| same_obj ps qs qs' :
    Permutation qs qs' ->
    Forall2 (fun p q => fst p = fst q /\ same_value (snd p) (snd q)) ps qs' ->
    same_value (VObj ps) (VObj qs).

(** An object has each key once, as every JavaScript object does; this is
    the condition on the property lists that stand for them. *)
Fixpoint distinct_keys (v : jsval) : Prop :=
  match v with
  | VArr xs =>
      (fix all (l : list jsval) : Prop :=
         match l with
         | [] => True
         | x :: l' => distinct_keys x /\ all l'
         end) xs
  | VObj ps =>
      NoDup (map fst ps) /\
      (fix all (l : list (string * jsval)) : Prop :=
         match l with
         | [] => True
         | p :: l' => distinct_keys (snd p) /\ all l'
         end) ps
  | _ => True
  end.

(** A character that needs no escape inside a JSON string. *)
Definition plain_char (c : ascii) : bool :=
  (32 <=? nat_of_ascii c)%nat && negb (c =? dquote)%char && negb (c =? backslash)%char.

Fixpoint plain_key (s : string) : bool :=
  match s with
  | EmptyString => true
  | String c s' => plain_char c && plain_key s'
  end.

(** JSON data, with no [undefined] inside, whose keys need no escape. *)
Fixpoint plain_data (v : jsval) : bool :=
  match v with
  | VUndefined => false
  | VArr xs => forallb plain_data xs
  | VObj ps => forallb (fun p => plain_key (fst p) && plain_data (snd p)) ps
  | _ => true
  end.

(** The integers that a JavaScript number holds exactly, those up to
    [Number.MAX_SAFE_INTEGER] in magnitude: [JSON.stringify] writes them
    out in full decimal and [JSON.parse] reads them back exactly, which is
    what [string_of_Z] and [parse_number] do with an integer. A number
    that is not an integer, or is larger, is written and read by the
    rules of the doubles, which this development does not have. *)
Definition MAX_SAFE_INTEGER : Z := 9007199254740991.

Fixpoint safe_integers (v : jsval) : bool :=
  match v with
  | VNum n => (Z.abs n <=? MAX_SAFE_INTEGER)%Z
  | VArr xs => forallb safe_integers xs
  | VObj ps => forallb (fun p => safe_integers (snd p)) ps
  | _ => true
  end.

(** The copy of a value in which every object lists its keys in sorted
    order. *)
Fixpoint sorted_copy (v : jsval) : jsval :=
  match v with
  | VArr xs => VArr (map sorted_copy xs)
  | VObj ps =>
      let copies := map (fun p => (fst p, sorted_copy (snd p))) ps in
      VObj (map (fun key => (key, match get copies key with
                                  | Some x => x
                                  | None => VUndefined
                                  end))
                (sort_keys (Object_keys ps)))
  | _ => v
  end.

End Structural.

(* ================================================================= *)
(** ** Runs of the step loop, as the claims speak of them *)

Module Steps.
Import JS Utils JSON Consensus Maker.

(** The state after the winning values [values] have been merged in turn. *)
Fixpoint merge_all (st : state) (values : list jsval) : completion state :=
  match values with
  | [] => Return st
  | v :: values' =>
      match merge st v with
      | Return st' => merge_all st' values'
      | Throw e => Throw e
      | Diverge => Diverge
      end
  end.

(** A winning value that is a mapping with an [original_task] field. *)
Definition names_original_task (v : jsval) : bool :=
  match v with
  | VObj props =>
      match get props "original_task" with
      | Some _ => true
      | None => false
      end
  | _ => false
  end.

(** [needle] occurs in [s]. *)
Fixpoint contains (needle s : string) : bool :=
  String.prefix needle s ||
  match s with
  | EmptyString => false
  | String _ s' => contains needle s'
  end.

Definition item_mentions (needle : string) (i : item) : bool :=
  match i with
  | Text s => contains needle s
  | Pretty _ | Thrown _ => false
  end.

(** A written line that mentions the text [needle]. *)
Definition mentions (needle : string) (o : output) : bool :=
  match o with
  | console_log s | spinner_start s | spinner_text s
  | spinner_succeed s | spinner_fail s => contains needle s
  | console_error args => existsb (item_mentions needle) args
  | console_log_pretty _ => false
  end.

(** The strategies that check the margin after every ballot: the
    sequential one, and the parallel one with early termination and batches
    that are not empty. *)
Definition ballot_by_ballot (cfg : CONFIG) : Prop :=
  ENABLE_PARALLEL cfg = false \/
  (EARLY_TERMINATION cfg = true /\ 1 <= BATCH_SIZE cfg).

End Steps.

(* ================================================================= *)
(** ** The shipped configuration and small inputs *)

Module Examples.
Import JS Utils Consensus.

(** [CONFIG] as [config.js] sets it. *)
Definition shipped : CONFIG :=
  {| MODEL_NAME := "gemini-flash-lite-latest";
     VOTE_MARGIN_K := 10;
     MAX_ATTEMPTS_PER_STEP := 15;
     MAX_RPM := 3500;
     BATCH_SIZE := 50;
     ENABLE_PARALLEL := true;
     EARLY_TERMINATION := true;
     DEV_MODE := false |}.

(** The sequential strategy with margin [K] and ceiling [MAX]. *)
Definition sequential (K : Z) (MAX : nat) : CONFIG :=
  {| MODEL_NAME := "gemini-flash-lite-latest";
     VOTE_MARGIN_K := K;
     MAX_ATTEMPTS_PER_STEP := MAX;
     MAX_RPM := 3500;
     BATCH_SIZE := 50;
     ENABLE_PARALLEL := false;
     EARLY_TERMINATION := true;
     DEV_MODE := false |}.

(** The parallel strategy in batches of [batch], with or without early
    termination. *)
Definition parallel (K : Z) (MAX batch : nat) (early : bool) : CONFIG :=
  {| MODEL_NAME := "gemini-flash-lite-latest";
     VOTE_MARGIN_K := K;
     MAX_ATTEMPTS_PER_STEP := MAX;
     MAX_RPM := 3500;
     BATCH_SIZE := batch;
     ENABLE_PARALLEL := true;
     EARLY_TERMINATION := early;
     DEV_MODE := false |}.

Definition A : option jsval := Some (VStr "A").
Definition B : option jsval := Some (VStr "B").
Definition flag : option jsval := None.

Definition keyA : string := canonicalStringify (VStr "A").
Definition keyB : string := canonicalStringify (VStr "B").

(** An outcome for the value [v]. *)
Definition outcome (v : jsval) (margin : Z) (votes attempts : nat) : consensus :=
  {| value := v;
     metadata := {| voteMargin := margin; totalVotes := votes; attempts := attempts |} |}.

(** The limiter with a limit of one request per minute: a first task is
    admitted at time 0, a second one submitted at time 10 has to wait, and
    the clock is at 60050 when a third one arrives. *)
Definition one_per_minute : RateLimiter.world string :=
  RateLimiter.run (RateLimiter.boot 1 0)
    [RateLimiter.Throttle "T1"; RateLimiter.Elapse 10;
     RateLimiter.Throttle "T2"; RateLimiter.Elapse 60040].

(** A worker whose results alternate between two values. *)
Definition alternating (st : Maker.state) (step : string) (n : nat) : option jsval :=
  if Nat.even n then A else B.

(** A worker that answers with a mapping that has a field [original_task]. *)
Definition renaming (st : Maker.state) (step : string) (n : nat) : option jsval :=
  Some (VObj [("original_task", VStr "another task")]).

End Examples.
(* ================================================================= *)
(** ** The texts JSON.parse accepts *)

(** The grammar of ECMA-404 as a recognizer, with every number literal
    (fraction and exponent included) and every escape [\uXXXX]: what is
    left of the text after a JSON value, [None] when there is no value at
    its start. It tells the texts on which [JSON.parse] throws from those
    it reads to a value that [JSON_parse] above does not hold. *)
Module JSONText.
Import JS JSON.

Fixpoint skip_digits (s : string) : string :=
  match s with
  | String c s' => if is_digit c then skip_digits s' else s
  | EmptyString => s
  end.

(** One digit or more. *)
Definition digits (s : string) : option string :=
  match s with
  | String c s' => if is_digit c then Some (skip_digits s') else None
  | EmptyString => None
  end.

(** [0], or a digit from 1 to 9 and digits after it. *)
Definition integer_part (s : string) : option string :=
  match s with
  | String c s' =>
      if (c =? "0")%char then Some s'
      else if is_digit c then Some (skip_digits s')
      else None
  | EmptyString => None
  end.

Definition fraction_part (s : string) : option string :=
  match s with
  | String c s' => if (c =? ".")%char then digits s' else Some s
  | EmptyString => Some s
  end.

Definition exponent_part (s : string) : option string :=
  match s with
  | String c s' =>
      if ((c =? "e") || (c =? "E"))%char then
        match s' with
        | String sign s'' =>
            if ((sign =? "+") || (sign =? "-"))%char then digits s'' else digits s'
        | EmptyString => None
        end
      else Some s
  | EmptyString => Some s
  end.

Definition number (s : string) : option string :=
  let unsigned :=
    match s with
    | String c s' => if (c =? "-")%char then s' else s
    | EmptyString => s
    end in
  match integer_part unsigned with
  | Some s1 =>
      match fraction_part s1 with
      | Some s2 => exponent_part s2
      | None => None
      end
  | None => None
  end.

Definition is_hex (c : ascii) : bool :=
  match hex_value c with
  | Some _ => true
  | None => false
  end.

(** The characters of a string literal after its opening quote, up to and
    including the closing one. *)
Fixpoint chars (s : string) : option string :=
  match s with
  | EmptyString => None
  | String c s' =>
      if (c =? dquote)%char then Some s'
      else if (c =? backslash)%char then
        match s' with
        | String e s'' =>
            if (e =? "u")%char then
              match s'' with
              | String h1 (String h2 (String h3 (String h4 s4))) =>
                  if is_hex h1 && is_hex h2 && is_hex h3 && is_hex h4 then chars s4
                  else None
              | _ => None
              end
            else
              match simple_escape e with
              | Some _ => chars s''
              | None => None
              end
        | EmptyString => None
        end
      else if (nat_of_ascii c <? 32)%nat then None
      else chars s'
  end.

Section Composite.
Variable element : string -> option string.

Fixpoint elements (fuel : nat) (s : string) : option string :=
  match fuel with
  | O => None
  | S fuel' =>
      match skip_ws s with
      | String c s' =>
          if (c =? "]")%char then Some s'
          else if (c =? ",")%char then
            match element s' with
            | Some rest => elements fuel' rest
            | None => None
            end
          else None
      | EmptyString => None
      end
  end.

Definition member (s : string) : option string :=
  match expect dquote s with
  | Some s1 =>
      match chars s1 with
      | Some s2 =>
          match expect ":" s2 with
          | Some s3 => element s3
          | None => None
          end
      | None => None
      end
  | None => None
  end.

Fixpoint members (fuel : nat) (s : string) : option string :=
  match fuel with
  | O => None
  | S fuel' =>
      match skip_ws s with
      | String c s' =>
          if (c =? "}")%char then Some s'
          else if (c =? ",")%char then
            match member s' with
            | Some rest => members fuel' rest
            | None => None
            end
          else None
      | EmptyString => None
      end
  end.
End Composite.

Fixpoint value (fuel : nat) (s : string) : option string :=
  match fuel with
  | O => None
  | S fuel' =>
      let s0 := skip_ws s in
      match s0 with
      | EmptyString => None
      | String c s' =>
          if (c =? "[")%char then
            match skip_ws s' with
            | String c1 s1 =>
                if (c1 =? "]")%char then Some s1
                else
                  match value fuel' s' with
                  | Some rest => elements (value fuel') fuel' rest
                  | None => None
                  end
            | EmptyString => None
            end
          else if (c =? "{")%char then
            match skip_ws s' with
            | String c1 s1 =>
                if (c1 =? "}")%char then Some s1
                else
                  match member (value fuel') s' with
                  | Some rest => members (value fuel') fuel' rest
                  | None => None
                  end
            | EmptyString => None
            end
          else if (c =? dquote)%char then chars s'
          else
            match starts_with "null" s0, starts_with "true" s0, starts_with "false" s0 with
            | Some rest, _, _ => Some rest
            | _, Some rest, _ => Some rest
            | _, _, Some rest => Some rest
            | None, None, None => number s0
            end
      end
  end.

(** The text is a JSON value with white space around it. *)
Definition well_formed (text : string) : bool :=
  match value (S (String.length text)) text with
  | Some rest =>
      match skip_ws rest with
      | EmptyString => true
      | String _ _ => false
      end
  | None => false
  end.

End JSONText.

(* ================================================================= *)
(** ** agent.js *)

(** [runMicroAgent] from the point where the throttled API call has
    completed, with the text of a response or with an error: the text is
    trimmed, cleaned of Markdown fences, parsed and checked (RED FLAGGING).
    The prompt sent and the model that answers it stay outside. A response
    is any text; the run is given for the responses that [JSON.parse]
    rejects or reads to a value of this development. *)
Module Agent.
Import JS Utils JSON Consensus Maker Structural.

(** White space and line terminators, as [String.prototype.trim] removes
    them, among the 8-bit characters. *)
Definition is_white (c : ascii) : bool :=
  let n := nat_of_ascii c in
  ((9 <=? n) && (n <=? 13) || (n =? 32) || (n =? 160))%nat.

Fixpoint trimStart (s : string) : string :=
  match s with
  | String c s' => if is_white c then trimStart s' else s
  | EmptyString => EmptyString
  end.

Fixpoint trimEnd (s : string) : string :=
  match s with
  | EmptyString => EmptyString
  | String c s' =>
      match trimEnd s' with
      | EmptyString => if is_white c then EmptyString else String c EmptyString
      | rest => String c rest
      end
  end.

Definition trim (s : string) : string := trimEnd (trimStart s).

(** [s.replace(/pattern/g, "")] for a pattern of literal characters: the
    matches are found from left to right and do not overlap; [skip] counts
    the characters of a match still to be passed over. *)
Fixpoint drop_matches (pattern : string) (skip : nat) (s : string) : string :=
  match s with
  | EmptyString => EmptyString
  | String c s' =>
      match skip with
      | S skip' => drop_matches pattern skip' s'
      | O =>
          if String.prefix pattern s
          then drop_matches pattern (String.length pattern - 1) s'
          else String c (drop_matches pattern 0 s')
      end
  end.

Definition remove_all (pattern s : string) : string := drop_matches pattern 0 s.

Definition fence : string := "```".
Definition fence_json : string := "```json".

(** [text.replace(/```json/g, "").replace(/```/g, "").trim()] *)
Definition cleanText (text : string) : string :=
  trim (remove_all fence (remove_all fence_json text)).

(** [parsed.error], [parsed.reasoning], [parsed.result]: a property of an
    object, [undefined] on any other value but [null], on which the access
    throws. *)
Definition field (parsed : jsval) (name : string) : completion jsval :=
  match parsed with
  | VNull | VUndefined => Throw TypeError
  | VObj props => Return (prop props name)
  | _ => Return VUndefined
  end.

Definition is_undefined (v : jsval) : bool :=
  match v with
  | VUndefined => true
  | _ => false
  end.

Definition newline : ascii := "010"%char.

(** What the inner [catch] writes in DEV_MODE; [wording] is [e.message],
    the text in which the JavaScript engine says what is wrong with
    [cleanText]. *)
Definition parse_error_details (wording text cleanText : string) : list output :=
  [console_error [Text (String newline "[DEV MODE] JSON Parse Error:")];
   console_error [Text "Raw response:"; Text text];
   console_error [Text "Cleaned response:"; Text cleanText];
   console_error [Text "Parse error:"; Text wording];
   console_error [Text ("---" ++ str1 newline)]].

(** What the outer [catch] writes in DEV_MODE. *)
Definition agent_error_details (context : jsval) (instruction : string) (error : exception)
  : list output :=
  [console_error [Text (String newline "[DEV MODE] Agent Error Details:")];
   console_error [Text "Context:"; Pretty context];
   console_error [Text "Instruction:"; Text instruction];
   console_error [Text "Error:"; Thrown error];
   console_error [Text "Error Message:"; Text (message error)];
   console_error [Text "Stack:"; Thrown error];
   console_error [Text ("---" ++ str1 newline)]].

(** The [TypeError] of the access [parsed.error] on [null], in the wording
    of V8. *)
Definition null_access : exception :=
  Error "Cannot read properties of null (reading 'error')".

(** What [JSON.parse(cleanText)] does with a text: it returns a value that
    this development holds exactly, it throws the [SyntaxError], or it
    returns a value that is beyond this development (a number written
    with a fraction or an exponent or larger than the safe integers, a
    character beyond 8 bits). *)
Inductive reading : Type :=
| Parsed (parsed : jsval)
| Rejected
| Beyond.

Definition read (text : string) : reading :=
  match JSON_parse text with
  | Some parsed => if safe_integers parsed then Parsed parsed else Beyond
  | None => if JSONText.well_formed text then Beyond else Rejected
  end.

Section Worker.
Variable cfg : CONFIG.

(** The message of the [SyntaxError] that [JSON.parse] throws on a text: the
    wording is the JavaScript engine's own. *)
Variable syntax_error_message : string -> string.

Definition red_flag (details : list output) : list output * jsval :=
  (if DEV_MODE cfg then details else [], VNull).

(** The body of the [try] after the call, and its two [catch] blocks.
    [call] is how [rateLimiter.throttle(...)] and [result.response.text()]
    completed. What is returned is [parsed.result], or [null] for a red
    flag; [None] stands for the run on a response that is read to a value
    beyond this development. *)
Definition runMicroAgent (context : jsval) (instruction : string)
    (call : string + exception) : option (list output * jsval) :=
  match call with
  | inr error => Some (red_flag (agent_error_details context instruction error))
  | inl response =>
      let text := trim response in
      let cleanText := cleanText text in
      match read cleanText with
      | Beyond => None
      | Rejected =>
          Some (red_flag
                  (parse_error_details (syntax_error_message cleanText) text cleanText))
      | Parsed parsed =>
          match field parsed "error", field parsed "reasoning", field parsed "result" with
          | Return error, Return reasoning, Return result =>
              if truthy error then Some ([], VNull)
              else if negb (truthy reasoning) || is_undefined result then Some ([], VNull)
              else Some ([], result)
          | _, _, _ => Some (red_flag (agent_error_details context instruction null_access))
          end
      end
  end.

End Worker.

(** The text of a response that is the object [{ reasoning, result }]
    between Markdown fences, with any white space around the parts. *)
Definition fenced (ws1 ws2 body ws3 ws4 : string) : string :=
  (ws1 ++ fence_json ++ ws2 ++ body ++ ws3 ++ fence ++ ws4)%string.

(** A string of white space, and a string without a backquote. *)
Fixpoint all_white (s : string) : bool :=
  match s with
  | EmptyString => true
  | String c s' => is_white c && all_white s'
  end.

Fixpoint no_backquote (s : string) : bool :=
  match s with
  | EmptyString => true
  | String c s' => negb (c =? "`")%char && no_backquote s'
  end.

(** The text of the object [{ reasoning, result }] with the result as it
    is written in [number]. *)
Definition answer_text (reasoning number : string) : string :=
  ("{" ++ pair_string "reasoning" (quote_string reasoning) ++ ","
       ++ pair_string "result" number ++ "}")%string.

End Agent.

(* ================================================================= *)
(** ** planner.js *)

(** [decomposeTask] from the point where the call to the model has
    completed: the text of the response is trimmed, cleaned of Markdown
    fences and parsed, and whatever it parses to is the plan; any failure is
    thrown again as an [Error] that says so. *)
Module Planner.
Import JS Utils JSON Consensus Maker Agent.

Definition decomposeTask (call : string + exception) : jsval + exception :=
  match call with
  | inr error => inr (Error ("Failed to decompose task: " ++ message error))
  | inl response =>
      let text := trim response in
      let cleanText := cleanText text in
      match JSON_parse cleanText with
      | Some steps => inl steps
      | None => inr (Error ("Failed to decompose task: " ++ message SyntaxError))
      end
  end.

End Planner.
(* ================================================================= *)
(** ** tests/lite-suite.js *)

(** The three programmatic tests: the steps they generate for a step count
    and the result they expect after them. The step count is a natural
    number, as the runner makes sure of before it calls them. *)
Module LiteSuite.
Import JS.

(** [names[i]], [undefined] past the end, inside a template literal. *)
Definition at_index (names : list string) (i : nat) : string := nth i names "undefined".

Module drunkWalker.

Definition pattern : list string := ["North"; "East"; "South"; "West"].

(** [for (let i = 0; i < stepCount; i++) steps.push(`Move ${pattern[i % 4]}`)] *)
Definition generateSteps (stepCount : nat) : list string :=
  map (fun i => ("Move " ++ at_index pattern (i mod 4))%string) (seq 0 stepCount).

Definition initialState : jsval := VObj [("x", VNum 0); ("y", VNum 0)].

Definition expectedResult (stepCount : nat) : jsval :=
  let remainder := stepCount mod 4 in
  if (remainder =? 0)%nat then VObj [("x", VNum 0); ("y", VNum 0)]
  else if (remainder =? 1)%nat then VObj [("x", VNum 0); ("y", VNum 1)]
  else if (remainder =? 2)%nat then VObj [("x", VNum 1); ("y", VNum 1)]
  else if (remainder =? 3)%nat then VObj [("x", VNum 1); ("y", VNum 0)]
  else VUndefined.

(** The MOVEMENT RULES the [workerPrompt] of this test gives its workers:
    North: y + 1, East: x + 1, South: y - 1, West: x - 1. *)
Definition move (position : Z * Z) (step : string) : Z * Z :=
  let (x, y) := position in
  if (step =? "Move North")%string then (x, y + 1)%Z
  else if (step =? "Move East")%string then (x + 1, y)%Z
  else if (step =? "Move South")%string then (x, y - 1)%Z
  else if (step =? "Move West")%string then (x - 1, y)%Z
  else position.

(** The coordinates [{x, y}] as a worker returns them. *)
Definition coordinates (position : Z * Z) : jsval :=
  VObj [("x", VNum (fst position)); ("y", VNum (snd position))].

End drunkWalker.

Module paritySwitch.

(** [for (let i = 0; i < stepCount; i++) steps.push("Apply the parity rule")] *)
Definition generateSteps (stepCount : nat) : list string :=
  map (fun _ => "Apply the parity rule") (seq 0 stepCount).

Definition initialState : jsval := VNum 0.

(** [if (value % 2 === 0) value += 3; else value -= 1;] *)
Definition rule (value : Z) : Z :=
  if (Z.rem value 2 =? 0)%Z then (value + 3)%Z else (value - 1)%Z.

Definition expectedResult (stepCount : nat) : jsval :=
  VNum (fold_left (fun value _ => rule value) (seq 0 stepCount) 0%Z).

End paritySwitch.

Module brokenCalculator.

Definition variations : list string := ["Add 5"; "Plus five"; "Increase by 5"; "Sum 5"].

(** [for (let i = 0; i < stepCount; i++) steps.push(variations[i % 4])] *)
Definition generateSteps (stepCount : nat) : list string :=
  map (fun i => at_index variations (i mod 4)) (seq 0 stepCount).

Definition initialState : jsval := VNum 0.

Definition expectedResult (stepCount : nat) : jsval := VNum (Z.of_nat stepCount * 5)%Z.

(** What the [workerPrompt] of this test asks of its workers: each of the
    four variations means add 5. *)
Definition calculate (value : Z) (step : string) : Z :=
  if existsb (String.eqb step) variations then (value + 5)%Z else value.

End brokenCalculator.

End LiteSuite.

(* ================================================================= *)
(** ** tests/lite-runner.js *)

Module LiteRunner.
Import JS Utils.

(** [compareResults]: the deep comparison of the state a test ends with
    against the result it expects. *)
Definition compareResults (actual expected : jsval) : bool :=
  (canonicalStringify actual =? canonicalStringify expected)%string.

(** The command line [<testName> <stepCount> [--high]]: what the loop over
    [process.argv.slice(2)] leaves in [testName], [stepCountStr] and
    [useHighQuality], [None] being the [null] they start with. *)
Record arguments : Type := {
  testName : option string;
  stepCountStr : option string;
  useHighQuality : bool
}.

(** [!x] for a variable that holds [null] or a string. *)
Definition unset (x : option string) : bool :=
  match x with
  | None => true
  | Some s => (s =? "")%string
  end.

Definition read_argument (a : arguments) (arg : string) : arguments :=
  if (arg =? "--high")%string then
    {| testName := testName a; stepCountStr := stepCountStr a; useHighQuality := true |}
  else if unset (testName a) then
    {| testName := Some arg; stepCountStr := stepCountStr a;
       useHighQuality := useHighQuality a |}
  else if unset (stepCountStr a) then
    {| testName := testName a; stepCountStr := Some arg;
       useHighQuality := useHighQuality a |}
  else a.

Definition read_arguments (args : list string) : arguments :=
  fold_left read_argument args
    {| testName := None; stepCountStr := None; useHighQuality := false |}.

(** [if (!testName || !stepCountStr)]: the usage message and exit code 1. *)
Definition usage_error (a : arguments) : bool :=
  unset (testName a) || unset (stepCountStr a).

End LiteRunner.
(* ================================================================= *)
(** ** tests/suite.js *)

(** The helpers that build the prompts of the basic tests, for a number of
    steps that is a natural number. *)
Module Suite.

(** [for (let i = 0; i < steps / 2; i++) prompt += " Add 10. Subtract 5."],
    from [i] on; [i < steps / 2] compares with a quotient that is not
    rounded. *)
Fixpoint alternating_loop (fuel steps i : nat) (prompt : string) : string :=
  if (2 * i <? steps)%nat then
    match fuel with
    | O => prompt
    | S fuel' => alternating_loop fuel' steps (S i) (prompt ++ " Add 10. Subtract 5.")
    end
  else prompt.

Definition buildAlternatingPrompt (steps : nat) : string :=
  alternating_loop steps steps 0 "Start with 0.".

(** [for (let i = 0; i < steps; i++) prompt += " Add 1."] *)
Definition buildIncrementPrompt (steps : nat) : string :=
  fold_left (fun prompt _ => prompt ++ " Add 1.")%string (seq 0 steps) "Start with 0.".

(** [for (let i = 0; i < steps; i++) prompt += " Add 0.1."] *)
Definition buildDecimalPrompt (steps : nat) : string :=
  fold_left (fun prompt _ => prompt ++ " Add 0.1.")%string (seq 0 steps) "Start with 0.".

(** A sentence repeated. *)
Fixpoint times (n : nat) (sentence : string) : string :=
  match n with
  | O => ""
  | S n' => sentence ++ times n' sentence
  end.

End Suite.
(* ================================================================= *)
(** ** consensus.js: the workers launched *)

(** [getConsensusResultParallel] once more, for the calls of [runMicroAgent]
    it makes. A batch is launched whole, by [Array(batchSize).fill(null)
    .map(() => runMicroAgent(...))], before any of its results is looked
    at; [launched] counts these calls and is what the loop is left with, by
    a [return] from inside a batch or after it, or at the [throw]. *)
Module Launches.
Import JS Utils JSON Consensus.

Section Counting.
Variable cfg : CONFIG.
Variable runMicroAgent : nat -> option jsval.

Fixpoint launched_loop (fuel : nat) (votes : tally) (totalAttempts launched : nat) : nat :=
  if (totalAttempts <? MAX_ATTEMPTS_PER_STEP cfg)%nat then
    match fuel with
    | O => launched
    | S fuel' =>
        let remainingAttempts := MAX_ATTEMPTS_PER_STEP cfg - totalAttempts in
        let batchSize := Nat.min (BATCH_SIZE cfg) remainingAttempts in
        let promises := map runMicroAgent (seq totalAttempts batchSize) in
        let launched := launched + batchSize in
        if EARLY_TERMINATION cfg then
          match early_batch cfg promises votes totalAttempts with
          | (_, inl _) => launched
          | (_, inr (votes', totalAttempts')) =>
              launched_loop fuel' votes' totalAttempts' launched
          end
        else
          let results := promises in
          let totalAttempts := totalAttempts + batchSize in
          let (_, votes') := tally_batch results votes in
          match decide cfg votes' totalAttempts with
          | Some _ => launched
          | None => launched_loop fuel' votes' totalAttempts launched
          end
    end
  else launched.

(** The calls made by [getConsensusResultParallel]. *)
Definition launched (fuel : nat) : nat := launched_loop fuel [] 0 0.

End Counting.

End Launches.

(* ================================================================= *)
(** ** Properties of objects and of the two sorts *)

Module JSFacts.
Import JS.

Section ObjectFacts.
Context {V : Type}.
Implicit Types (o : object V) (k key : string) (v : V).

Definition keys_of o : list string := map fst o.

Lemma get_set_same o k v : get (set o k v) k = Some v.
Proof.
  induction o as [|[k' v'] o IH]; simpl.
  - now rewrite String.eqb_refl.
  - destruct (k' =? k) eqn:E; simpl; rewrite E; auto.
Qed.

Lemma get_set_other o k k' v : k <> k' -> get (set o k v) k' = get o k'.
Proof.
  intros Hne. induction o as [|[k0 v0] o IH]; simpl.
  - destruct (k =? k') eqn:E; auto. apply String.eqb_eq in E. contradiction.
  - destruct (k0 =? k) eqn:E; simpl.
    + apply String.eqb_eq in E. subst k0.
      destruct (k =? k') eqn:E'; auto. apply String.eqb_eq in E'. contradiction.
    + destruct (k0 =? k'); auto.
Qed.

Lemma get_None_notin o k : get o k = None <-> ~ In k (keys_of o).
Proof.
  induction o as [|[k' v'] o IH]; simpl.
  - tauto.
  - destruct (k' =? k) eqn:E.
    + apply String.eqb_eq in E. split; [discriminate | intros H; exfalso; auto].
    + apply String.eqb_neq in E. rewrite IH. tauto.
Qed.

Lemma get_Some_in o k v : get o k = Some v -> In (k, v) o.
Proof.
  induction o as [|[k' v'] o IH]; simpl; [discriminate|].
  destruct (k' =? k) eqn:E.
  - apply String.eqb_eq in E. intros [= ->]. subst. now left.
  - auto.
Qed.

Lemma in_get_Some o k v : NoDup (keys_of o) -> In (k, v) o -> get o k = Some v.
Proof.
  induction o as [|[k' v'] o IH]; simpl; [tauto|].
  intros Hnd [Heq | Hin].
  - injection Heq as -> ->. now rewrite String.eqb_refl.
  - inversion Hnd as [|? ? Hnotin Hnd']; subst.
    destruct (k' =? k) eqn:E.
    + apply String.eqb_eq in E. subst k'. exfalso. apply Hnotin.
      change k with (fst (k, v)). now apply in_map.
    + auto.
Qed.

Lemma keys_set o k v :
  keys_of (set o k v) =
  match get o k with Some _ => keys_of o | None => keys_of o ++ [k] end.
Proof.
  induction o as [|[k' v'] o IH]; simpl; auto.
  destruct (k' =? k) eqn:E; simpl; auto.
  rewrite IH. now destruct (get o k).
Qed.

Lemma NoDup_set o k v : NoDup (keys_of o) -> NoDup (keys_of (set o k v)).
Proof.
  intros Hnd. rewrite keys_set. destruct (get o k) eqn:E; auto.
  apply get_None_notin in E.
  apply NoDup_rev in Hnd. rewrite <- (rev_involutive (keys_of o ++ [k])).
  apply NoDup_rev. rewrite rev_app_distr. simpl. constructor; auto.
  now rewrite <- in_rev.
Qed.

Lemma insert_index_perm (p : string * V) l : Permutation (insert_index p l) (p :: l).
Proof.
  induction l as [|q l IH]; simpl; auto.
  destruct (index_of p <=? index_of q)%N; auto.
  rewrite IH. apply perm_swap.
Qed.

Lemma sort_index_perm (l : object V) : Permutation (sort_index l) l.
Proof.
  induction l as [|p l IH]; simpl; auto.
  rewrite insert_index_perm. now constructor.
Qed.

Lemma filter_split_perm (f : string * V -> bool) (l : object V) :
  Permutation (filter f l ++ filter (fun p => negb (f p)) l) l.
Proof.
  induction l as [|p l IH]; simpl; auto.
  destruct (f p); simpl.
  - now constructor.
  - rewrite <- Permutation_middle. now constructor.
Qed.

Lemma Object_entries_perm o : Permutation (Object_entries o) o.
Proof.
  unfold Object_entries. rewrite sort_index_perm. apply filter_split_perm.
Qed.

Lemma Object_keys_perm o : Permutation (Object_keys o) (keys_of o).
Proof. unfold Object_keys, keys_of. apply Permutation_map, Object_entries_perm. Qed.

End ObjectFacts.

End JSFacts.

(* ================================================================= *)
(** ** The canonical encoder *)

Module CanonicalFacts.
Import JS Utils JSFacts Structural.

(** *** The order on keys *)

Lemma ascii_compare_N a b : Ascii.compare a b = (N_of_ascii a ?= N_of_ascii b)%N.
Proof. reflexivity. Qed.

Lemma string_compare_cons a s b t :
  String.compare (String a s) (String b t) =
  match Ascii.compare a b with
  | Eq => String.compare s t
  | c => c
  end.
Proof. simpl. now destruct (Ascii.compare a b). Qed.

Lemma string_leb_trans s : forall t u,
  (s <=? t)%string = true -> (t <=? u)%string = true -> (s <=? u)%string = true.
Proof.
  unfold String.leb.
  induction s as [|a s IH]; intros [|b t] [|c u]; simpl; try easy.
  rewrite !ascii_compare_N.
  destruct (N.compare_spec (N_of_ascii a) (N_of_ascii b)) as [Hab|Hab|Hab];
    destruct (N.compare_spec (N_of_ascii b) (N_of_ascii c)) as [Hbc|Hbc|Hbc];
    try easy.
  - rewrite Hab, Hbc, N.compare_refl. apply IH.
  - intros _ _. rewrite Hab. now apply N.compare_lt_iff in Hbc as ->.
  - intros _ _. rewrite <- Hbc. now apply N.compare_lt_iff in Hab as ->.
  - intros _ _. assert (H : (N_of_ascii a < N_of_ascii c)%N) by lia.
    now apply N.compare_lt_iff in H as ->.
Qed.

Definition key_le (s t : string) : Prop := (s <=? t)%string = true.

Lemma insert_key_perm k l : Permutation (insert_key k l) (k :: l).
Proof.
  induction l as [|k' l IH]; simpl; auto.
  destruct (k <=? k')%string; auto. rewrite IH. apply perm_swap.
Qed.

Lemma sort_keys_perm l : Permutation (sort_keys l) l.
Proof.
  induction l as [|k l IH]; simpl; auto. rewrite insert_key_perm. now constructor.
Qed.

Lemma insert_key_sorted k l :
  StronglySorted key_le l -> StronglySorted key_le (insert_key k l).
Proof.
  induction 1 as [|k' l Hs IH Hall]; simpl.
  - repeat constructor.
  - destruct (k <=? k')%string eqn:E.
    + constructor; [now constructor|]. constructor; auto.
      eapply Forall_impl; [|exact Hall]. intros x Hx. eapply string_leb_trans; eauto.
    + constructor; auto.
      eapply Permutation_Forall; [symmetry; apply insert_key_perm|].
      constructor; auto.
      destruct (String.leb_total k k') as [H|H]; [congruence|exact H].
Qed.

Lemma sort_keys_sorted l : StronglySorted key_le (sort_keys l).
Proof.
  induction l as [|k l IH]; simpl; [constructor|]. now apply insert_key_sorted.
Qed.

(** Two sorted lists with the same elements are the same list. *)
Lemma sorted_perm_eq l : forall l',
  StronglySorted key_le l -> StronglySorted key_le l' -> Permutation l l' -> l = l'.
Proof.
  induction l as [|x l IH]; intros l' Hs Hs' Hp.
  - apply Permutation_nil in Hp. now subst.
  - destruct l' as [|y l']; [apply Permutation_sym, Permutation_nil in Hp; discriminate|].
    inversion Hs as [|? ? Hs1 Hall]; subst.
    inversion Hs' as [|? ? Hs1' Hall']; subst.
    rewrite Forall_forall in Hall, Hall'.
    assert (x = y).
    { assert (Hx : In x (y :: l')) by (eapply Permutation_in; [exact Hp|now left]).
      assert (Hy : In y (x :: l)) by (eapply Permutation_in; [symmetry; exact Hp|now left]).
      destruct Hx as [->|Hx]; auto. destruct Hy as [->|Hy]; auto.
      apply String.leb_antisym; [now apply Hall|now apply Hall']. }
    subst y. f_equal. apply IH; auto. eapply Permutation_cons_inv; eauto.
Qed.

Lemma sort_keys_of_perm l l' : Permutation l l' -> sort_keys l = sort_keys l'.
Proof.
  intros Hp. apply sorted_perm_eq; try apply sort_keys_sorted.
  now rewrite !sort_keys_perm.
Qed.

(** *** Lookups in objects with the same pairs *)

Lemma get_map {A B} (f : A -> B) (o : object A) k :
  get (map (fun p => (fst p, f (snd p))) o) k = option_map f (get o k).
Proof.
  induction o as [|[k' v] o IH]; simpl; auto. now destruct (k' =? k)%string.
Qed.

Lemma get_perm {V} (o o' : object V) k :
  NoDup (keys_of o) -> Permutation o o' -> get o k = get o' k.
Proof.
  intros Hnd Hp.
  assert (Hnd' : NoDup (keys_of o')).
  { eapply Permutation_NoDup; [|exact Hnd]. unfold keys_of. now apply Permutation_map. }
  destruct (get o k) as [v|] eqn:E.
  - apply get_Some_in in E. symmetry. apply in_get_Some; auto.
    eapply Permutation_in; eauto.
  - destruct (get o' k) as [v'|] eqn:E'; auto.
    apply get_Some_in in E'. apply get_None_notin in E. exfalso. apply E.
    unfold keys_of. change k with (fst (k, v')). apply in_map.
    eapply Permutation_in; [symmetry|]; eauto.
Qed.

(** The reading of the object case of [canonicalStringify] that the source
    gives: the value of each sorted key is looked up in the object. *)
Lemma canonicalStringify_object props :
  canonicalStringify (VObj props) =
  ("{" ++ String.concat ","
          (map (fun key => pair_string key (canonicalStringify (prop props key)))
               (sort_keys (Object_keys props)))
       ++ "}")%string.
Proof.
  simpl. do 2 f_equal. f_equal. apply map_ext_in. intros key Hin.
  unfold encoded_at, prop. rewrite get_map.
  destruct (get props key) eqn:E; auto.
Qed.

Lemma distinct_keys_obj ps :
  distinct_keys (VObj ps) <->
  NoDup (map fst ps) /\ Forall (fun p => distinct_keys (snd p)) ps.
Proof.
  simpl. split; intros [Hnd H]; split; auto.
  - induction ps as [|p ps IH]; constructor.
    + apply H.
    + apply IH; [now inversion Hnd|apply H].
  - clear Hnd. induction H; auto.
Qed.

Lemma distinct_keys_arr xs :
  distinct_keys (VArr xs) <-> Forall distinct_keys xs.
Proof.
  simpl. split; intros H.
  - induction xs as [|x xs IH]; constructor; [apply H|apply IH, H].
  - induction H; auto.
Qed.

End CanonicalFacts.

(* ================================================================= *)
(** ** The tally and the check made on it *)

Module TallyFacts.
Import JS Utils JSON Consensus Ballots JSFacts.

Lemma insert_entry_perm a l : Permutation (insert_entry a l) (a :: l).
Proof.
  induction l as [|b l IH]; simpl; auto.
  destruct (snd b - snd a <=? 0)%Z; auto.
  rewrite IH. apply perm_swap.
Qed.

Lemma sort_by_votes_perm l : Permutation (sort_by_votes l) l.
Proof.
  induction l as [|a l IH]; simpl; auto.
  rewrite insert_entry_perm. now constructor.
Qed.

Definition desc (a b : string * Z) : Prop := (snd b <= snd a)%Z.

Lemma insert_entry_sorted a l :
  StronglySorted desc l -> StronglySorted desc (insert_entry a l).
Proof.
  induction 1 as [|b l Hs IH Hall]; simpl.
  - repeat constructor.
  - destruct (snd b - snd a <=? 0)%Z eqn:E.
    + apply Z.leb_le in E. constructor; [now constructor|].
      constructor; [unfold desc; lia|].
      eapply Forall_impl; [|exact Hall]. unfold desc. intros; lia.
    + apply Z.leb_gt in E. constructor; auto.
      eapply Permutation_Forall; [symmetry; apply insert_entry_perm|].
      constructor; auto. unfold desc; lia.
Qed.

Lemma sort_by_votes_sorted l : StronglySorted desc (sort_by_votes l).
Proof.
  induction l as [|a l IH]; simpl; [constructor|]. now apply insert_entry_sorted.
Qed.

(** What [standing] returns, in terms of the entries of the tally. *)
Lemma standing_spec (votes : tally) leader margin :
  NoDup (keys_of votes) ->
  standing votes = Some (leader, margin) ->
  In leader votes /\
  (forall e, In e votes -> (snd e <= snd leader)%Z) /\
  ((margin = snd leader /\ forall e, In e votes -> e = leader) \/
   exists second,
     In second votes /\ fst second <> fst leader /\
     margin = (snd leader - snd second)%Z /\
     forall e, In e votes -> fst e <> fst leader -> (snd e <= snd second)%Z).
Proof.
  intros Hnd. unfold standing.
  pose proof (sort_by_votes_sorted (Object_entries votes)) as Hs.
  assert (Hp : Permutation (sort_by_votes (Object_entries votes)) votes).
  { rewrite sort_by_votes_perm. apply Object_entries_perm. }
  destruct (sort_by_votes (Object_entries votes)) as [|l1 rest]; [discriminate|].
  intros [= <- <-].
  assert (Hnd' : NoDup (map fst (l1 :: rest))).
  { eapply Permutation_NoDup; [|exact Hnd].
    symmetry. unfold keys_of. now apply Permutation_map. }
  inversion Hs as [|? ? Hs' Hall]; subst.
  split; [eapply Permutation_in; [exact Hp|now left]|].
  split.
  { intros e He. eapply Permutation_in in He; [|symmetry; exact Hp].
    destruct He as [<-|He]; [lia|].
    rewrite Forall_forall in Hall. now apply Hall. }
  destruct rest as [|l2 rest'].
  - left. split; [lia|].
    intros e He. eapply Permutation_in in He; [|symmetry; exact Hp].
    destruct He as [<-|[]]; auto.
  - right. exists l2.
    inversion Hnd' as [|? ? Hnotin Hnd'']; subst.
    split; [eapply Permutation_in; [exact Hp|right; now left]|].
    split; [intros Heq; apply Hnotin; rewrite <- Heq; now left|].
    split; [reflexivity|].
    intros e He Hne. eapply Permutation_in in He; [|symmetry; exact Hp].
    destruct He as [<-|[<-|He]]; [congruence|lia|].
    inversion Hs' as [|? ? _ Hall2]; subst.
    rewrite Forall_forall in Hall2. now apply Hall2.
Qed.

Lemma standing_None (votes : tally) : standing votes = None -> votes = [].
Proof.
  unfold standing.
  assert (Hp : Permutation (sort_by_votes (Object_entries votes)) votes).
  { rewrite sort_by_votes_perm. apply Object_entries_perm. }
  destruct (sort_by_votes (Object_entries votes)); [|discriminate].
  intros _. now apply Permutation_nil.
Qed.

(** The tally after the counted ballots [ks]: one entry per candidate, holding
    its count. *)
Definition tally_ok (votes : tally) (ks : list string) : Prop :=
  NoDup (keys_of votes) /\
  forall k, get votes k = if (cnt ks k =? 0)%Z then None else Some (cnt ks k).

Lemma tally_ok_nil : tally_ok [] [].
Proof. split; [constructor|]. intros k. reflexivity. Qed.

Lemma cnt_app ks k k' :
  cnt (ks ++ [k']) k = (cnt ks k + if string_dec k' k then 1 else 0)%Z.
Proof.
  unfold cnt. rewrite count_occ_app. simpl.
  destruct (string_dec k' k); lia.
Qed.

Lemma cnt_nonneg ks k : (0 <= cnt ks k)%Z.
Proof. unfold cnt. lia. Qed.

Lemma cnt_pos_in ks k : (0 < cnt ks k)%Z <-> In k ks.
Proof.
  unfold cnt. rewrite (count_occ_In string_dec). lia.
Qed.

Lemma cast_vote_ok votes ks k :
  tally_ok votes ks -> tally_ok (cast_vote votes k) (ks ++ [k]).
Proof.
  intros [Hnd Hget]. unfold cast_vote. split; [now apply NoDup_set|].
  intros k'. rewrite cnt_app. destruct (string_dec k k') as [<-|Hne].
  - rewrite get_set_same. rewrite Hget.
    pose proof (cnt_nonneg ks k).
    destruct (cnt ks k =? 0)%Z eqn:E; simpl.
    + apply Z.eqb_eq in E. rewrite E. reflexivity.
    + rewrite E. apply Z.eqb_neq in E.
      destruct (cnt ks k + 1 =? 0)%Z eqn:E'; [apply Z.eqb_eq in E'; lia|reflexivity].
  - rewrite get_set_other by assumption. rewrite Hget, Z.add_0_r. reflexivity.
Qed.

Lemma tally_entry votes ks k c :
  tally_ok votes ks -> In (k, c) votes -> c = cnt ks k /\ In k ks.
Proof.
  intros [Hnd Hget] Hin. apply in_get_Some in Hin; auto.
  rewrite Hget in Hin. destruct (cnt ks k =? 0)%Z eqn:E; [discriminate|].
  injection Hin as <-. split; auto.
  apply cnt_pos_in. apply Z.eqb_neq in E. pose proof (cnt_nonneg ks k). lia.
Qed.

Lemma tally_has votes ks k :
  tally_ok votes ks -> In k ks -> In (k, cnt ks k) votes.
Proof.
  intros [Hnd Hget] Hin. apply get_Some_in. rewrite Hget.
  apply cnt_pos_in in Hin.
  destruct (cnt ks k =? 0)%Z eqn:E; [apply Z.eqb_eq in E; lia|reflexivity].
Qed.

(** The runner-up count bounds the other candidates and is attained. *)
Lemma runner_up_nonneg ks k : (0 <= runner_up ks k)%Z.
Proof.
  unfold runner_up. induction (map (cnt ks) (others ks k)); simpl; lia.
Qed.

Lemma fold_max_ge (l : list Z) x : In x l -> (x <= fold_right Z.max 0 l)%Z.
Proof.
  induction l as [|y l IH]; simpl; [tauto|].
  intros [->|H]; [lia|]. specialize (IH H). lia.
Qed.

Lemma fold_max_le (l : list Z) b :
  (0 <= b)%Z -> (forall x, In x l -> (x <= b)%Z) -> (fold_right Z.max 0 l <= b)%Z.
Proof.
  intros Hb. induction l as [|y l IH]; simpl; intros H; [lia|].
  apply Z.max_lub; [apply H; now left|apply IH; intros; apply H; now right].
Qed.

Lemma in_others ks k k' : In k' (others ks k) <-> In k' ks /\ k' <> k.
Proof.
  unfold others. rewrite filter_In.
  destruct (k' =? k) eqn:E; simpl.
  - apply String.eqb_eq in E. split; [intros [_ [=]]|tauto].
  - apply String.eqb_neq in E. tauto.
Qed.

Lemma runner_up_ge ks k k' : In k' ks -> k' <> k -> (cnt ks k' <= runner_up ks k)%Z.
Proof.
  intros Hin Hne. unfold runner_up. apply fold_max_ge.
  apply in_map. now apply in_others.
Qed.

Lemma runner_up_le ks k b :
  (0 <= b)%Z -> (forall k', In k' ks -> k' <> k -> (cnt ks k' <= b)%Z) ->
  (runner_up ks k <= b)%Z.
Proof.
  intros Hb H. unfold runner_up. apply fold_max_le; auto.
  intros x Hx. apply in_map_iff in Hx. destruct Hx as [k' [<- Hk']].
  apply in_others in Hk'. now apply H.
Qed.

(** The check of the engine, read on the ballots: the leader it finds has
    the largest lead of all candidates, and the margin is that lead. *)
Lemma standing_lead votes ks leader margin :
  tally_ok votes ks ->
  standing votes = Some (leader, margin) ->
  In (fst leader) ks /\
  snd leader = cnt ks (fst leader) /\
  margin = lead ks (fst leader) /\
  forall k, In k ks -> (lead ks k <= margin)%Z.
Proof.
  intros Hok Hst. pose proof Hok as [Hnd Hget].
  destruct (standing_spec _ _ _ Hnd Hst) as (Hin & Hmax & Hsecond).
  destruct leader as [k1 c1]. simpl in *.
  destruct (tally_entry _ _ _ _ Hok Hin) as [-> Hk1].
  assert (Hle : forall k, In k ks -> (cnt ks k <= cnt ks k1)%Z).
  { intros k Hk. apply (Hmax (k, cnt ks k)). now apply tally_has. }
  assert (Hru : margin = lead ks k1 /\ (0 <= margin)%Z).
  { unfold lead. destruct Hsecond as [[-> Hone] | [[k2 c2] (Hin2 & Hne & -> & Hoth)]].
    - assert (runner_up ks k1 = 0%Z).
      { apply Z.le_antisymm; [|apply runner_up_nonneg].
        apply runner_up_le; [lia|]. intros k' Hk' Hne.
        apply (tally_has _ _ _ Hok) in Hk'. apply Hone in Hk'. congruence. }
      pose proof (cnt_nonneg ks k1). lia.
    - simpl in *. destruct (tally_entry _ _ _ _ Hok Hin2) as [-> Hk2].
      assert (runner_up ks k1 = cnt ks k2).
      { apply Z.le_antisymm; [|now apply runner_up_ge].
        apply runner_up_le; [apply cnt_nonneg|]. intros k' Hk' Hne'.
        apply (Hoth (k', cnt ks k')); auto. now apply tally_has. }
      specialize (Hle k2 Hk2). lia. }
  destruct Hru as [Hm Hpos]. repeat split; auto.
  intros k Hk. destruct (string_dec k k1) as [->|Hne]; [lia|].
  unfold lead. pose proof (runner_up_ge ks k k1 Hk1 (not_eq_sym Hne)).
  specialize (Hle k Hk). lia.
Qed.

Lemma standing_some votes ks :
  tally_ok votes ks -> ks <> [] -> exists leader margin, standing votes = Some (leader, margin).
Proof.
  intros Hok Hne. destruct (standing votes) as [[leader margin]|] eqn:E; eauto.
  apply standing_None in E. subst votes. destruct ks as [|k ks]; [congruence|].
  exfalso. eapply (tally_has [] (k :: ks) k Hok). now left.
Qed.

Lemma standing_margin_nonneg votes ks leader margin :
  tally_ok votes ks -> standing votes = Some (leader, margin) -> (0 <= margin)%Z.
Proof.
  intros Hok Hst. pose proof Hok as [Hnd _].
  destruct (standing_spec _ _ _ Hnd Hst) as (Hin & Hmax & Hsecond).
  destruct Hsecond as [[-> _] | (second & Hin2 & _ & -> & _)].
  - destruct leader as [k c]. destruct (tally_entry _ _ _ _ Hok Hin) as [-> _].
    apply cnt_nonneg.
  - specialize (Hmax second Hin2). lia.
Qed.

(** The tally the engine has built after the counted ballots [ks]. *)
Definition tally_of (ks : list string) : tally := fold_left cast_vote ks [].

Lemma fold_cast_vote_ok ks : forall votes ks0,
  tally_ok votes ks0 -> tally_ok (fold_left cast_vote ks votes) (ks0 ++ ks).
Proof.
  induction ks as [|k ks IH]; intros votes ks0 Hok; simpl.
  - now rewrite app_nil_r.
  - replace (ks0 ++ k :: ks) with ((ks0 ++ [k]) ++ ks) by now rewrite <- app_assoc.
    apply IH. now apply cast_vote_ok.
Qed.

Lemma tally_of_ok ks : tally_ok (tally_of ks) ks.
Proof. apply (fold_cast_vote_ok ks [] []), tally_ok_nil. Qed.

(** Among counted ballots somebody has a lead that is not negative. *)
Lemma someone_leads ks : ks <> [] -> exists k, In k ks /\ (0 <= lead ks k)%Z.
Proof.
  intros Hne. pose proof (tally_of_ok ks) as Hok.
  destruct (standing_some _ _ Hok Hne) as (leader & margin & Hst).
  destruct (standing_lead _ _ _ _ Hok Hst) as (Hin & _ & Hm & _).
  exists (fst leader). split; auto. rewrite <- Hm.
  eapply standing_margin_nonneg; eauto.
Qed.

(** With a margin of at least 1 only one candidate can be ahead. *)
Lemma ahead_by_unique K ks k k' :
  (1 <= K)%Z -> ahead_by K ks k -> ahead_by K ks k' -> k = k'.
Proof.
  intros HK [Hin Hl] [Hin' Hl']. destruct (string_dec k k') as [|Hne]; auto.
  unfold lead in *.
  pose proof (runner_up_ge ks k k' Hin' (not_eq_sym Hne)).
  pose proof (runner_up_ge ks k' k Hin Hne). lia.
Qed.

End TallyFacts.

(* ================================================================= *)
(** ** Decoding a canonical key *)

Module ParseFacts.
Import JS Utils JSON Structural JSFacts CanonicalFacts.

(** *** Strings *)

Lemma append_assoc (a b c : string) : ((a ++ b) ++ c = a ++ (b ++ c))%string.
Proof. induction a as [|x a IH]; simpl; auto. now rewrite IH. Qed.

Lemma append_nil_r (a : string) : (a ++ "")%string = a.
Proof. induction a as [|x a IH]; simpl; auto. now rewrite IH. Qed.

Lemma length_append (a b : string) :
  String.length (a ++ b) = String.length a + String.length b.
Proof. induction a as [|x a IH]; simpl; auto. Qed.

Lemma substring_all (s : string) : String.substring 0 (String.length s) s = s.
Proof. induction s as [|c s IH]; simpl; auto. now rewrite IH. Qed.

Lemma prefix_append (a b : string) : String.prefix a (a ++ b) = true.
Proof.
  induction a as [|x a IH]; simpl.
  - now destruct b.
  - destruct (ascii_dec x x); [exact IH|contradiction].
Qed.

Lemma substring_skip (a b : string) :
  String.substring (String.length a) (String.length (a ++ b) - String.length a) (a ++ b) = b.
Proof.
  rewrite length_append. replace (_ + _ - _) with (String.length b) by lia.
  induction a as [|x a IH]; simpl; auto. apply substring_all.
Qed.

Lemma starts_with_append (a b : string) : starts_with a (a ++ b) = Some b.
Proof. unfold starts_with. now rewrite prefix_append, substring_skip. Qed.

(** What may follow a value inside a canonical encoding. *)
Definition terminated (rest : string) : Prop :=
  match rest with
  | EmptyString => True
  | String c _ => c = ","%char \/ c = "]"%char \/ c = "}"%char
  end.

(** *** Numbers *)

Definition digit_char (c : ascii) : Prop := is_digit c = true.

Lemma string_of_uint_digits d rest :
  terminated rest ->
  take_digits (NilEmpty.string_of_uint d ++ rest) = (NilEmpty.string_of_uint d, rest).
Proof.
  intros Hrest. induction d; simpl; try (rewrite IHd; reflexivity).
  destruct rest as [|c rest]; simpl; auto.
  destruct Hrest as [->|[->| ->]]; reflexivity.
Qed.

Lemma to_uint_head p :
  exists c s, NilEmpty.string_of_uint (Pos.to_uint p) = String c s /\
              is_digit c = true /\ c <> "0"%char.
Proof.
  assert (Hnorm : Pos.to_uint p = Decimal.unorm (Pos.to_uint p)).
  { rewrite <- (DecimalPos.Unsigned.to_of (Pos.to_uint p)).
    now rewrite DecimalPos.Unsigned.of_to. }
  pose proof (DecimalPos.Unsigned.to_uint_nonzero p) as Hnz.
  pose proof (DecimalFacts.nzhead_nonzero (Pos.to_uint p)) as Hhead.
  unfold Decimal.unorm in Hnorm.
  destruct (Decimal.nzhead (Pos.to_uint p)) eqn:E;
    try (rewrite Hnorm; simpl; do 2 eexists;
         split; [reflexivity|split; [reflexivity|discriminate]]).
  - now rewrite Hnorm in Hnz.
  - exfalso. eapply Hhead. reflexivity.
Qed.

Lemma starts_fraction_terminated rest : terminated rest -> starts_fraction rest = false.
Proof.
  destruct rest as [|c rest]; auto. simpl. intros [->|[->| ->]]; reflexivity.
Qed.

Lemma parse_digits_canonical negative d c s rest :
  terminated rest ->
  NilEmpty.string_of_uint d = String c s ->
  (c =? "0")%char && negb (s =? "") = false ->
  parse_digits negative (NilEmpty.string_of_uint d ++ rest)
  = Some (if negative then (- Z.of_uint d)%Z else Z.of_uint d, rest).
Proof.
  intros Hrest Hs Hlead. unfold parse_digits.
  rewrite string_of_uint_digits by assumption. rewrite Hs, Hlead.
  rewrite starts_fraction_terminated by assumption. simpl orb. cbv iota.
  change (NilZero.uint_of_string (String c s)) with (NilEmpty.uint_of_string (String c s)).
  now rewrite <- Hs, NilEmpty.usu.
Qed.

Lemma parse_number_canonical n rest :
  terminated rest -> parse_number (string_of_Z n ++ rest) = Some (n, rest).
Proof.
  intros Hrest. unfold string_of_Z.
  destruct n as [|p|p].
  - apply (parse_digits_canonical false (Decimal.D0 Decimal.Nil) "0" "" rest Hrest);
      reflexivity.
  - destruct (to_uint_head p) as (c & s & Hs & Hd & Hnz).
    assert (Hstr : NilZero.string_of_uint (Pos.to_uint p)
                   = NilEmpty.string_of_uint (Pos.to_uint p)).
    { pose proof (DecimalPos.Unsigned.to_uint_nonnil p). now destruct (Pos.to_uint p). }
    assert (Hzero : (c =? "0")%char = false) by now apply Ascii.eqb_neq.
    assert (Hminus : (c =? "-")%char = false).
    { apply Ascii.eqb_neq. intros ->. discriminate Hd. }
    simpl. rewrite Hstr. unfold parse_number. rewrite Hs. simpl. rewrite Hminus.
    change (String c (s ++ rest)) with (String c s ++ rest)%string. rewrite <- Hs.
    rewrite (parse_digits_canonical false _ c s rest Hrest Hs) by now rewrite Hzero.
    unfold Z.of_uint. now rewrite DecimalPos.Unsigned.of_to.
  - destruct (to_uint_head p) as (c & s & Hs & Hd & Hnz).
    assert (Hstr : NilZero.string_of_uint (Pos.to_uint p)
                   = NilEmpty.string_of_uint (Pos.to_uint p)).
    { pose proof (DecimalPos.Unsigned.to_uint_nonnil p). now destruct (Pos.to_uint p). }
    assert (Hzero : (c =? "0")%char = false) by now apply Ascii.eqb_neq.
    simpl. rewrite Hstr.
    rewrite (parse_digits_canonical true _ c s rest Hrest Hs) by now rewrite Hzero.
    unfold Z.of_uint. now rewrite DecimalPos.Unsigned.of_to.
Qed.

(** *** String literals *)

Lemma parse_quoted_char c tail :
  parse_chars (quote_char c ++ tail) = cons_char c (parse_chars tail).
Proof.
  destruct c as [[|] [|] [|] [|] [|] [|] [|] [|]]; reflexivity.
Qed.

Lemma parse_quoted_chars s rest :
  parse_chars (quote_chars s ++ String dquote rest) = Some (s, rest).
Proof.
  induction s as [|c s IH]; simpl.
  - reflexivity.
  - rewrite append_assoc, parse_quoted_char, IH. reflexivity.
Qed.

Lemma parse_plain_key key rest :
  plain_key key = true -> parse_chars (key ++ String dquote rest) = Some (key, rest).
Proof.
  induction key as [|c key IH]; simpl; intros Hp.
  - reflexivity.
  - apply andb_true_iff in Hp. destruct Hp as [Hc Hkey].
    unfold plain_char in Hc. apply andb_true_iff in Hc. destruct Hc as [Hc Hb].
    apply andb_true_iff in Hc. destruct Hc as [Hc Hq].
    apply negb_true_iff in Hq, Hb. rewrite Hq, Hb.
    apply Nat.leb_le in Hc.
    replace (nat_of_ascii c <? 32)%nat with false by (symmetry; apply Nat.ltb_ge; lia).
    now rewrite IH.
Qed.

(** *** The first character of an encoding *)

Lemma canonical_head v :
  exists c s, canonicalStringify v = String c s /\
              is_ws c = false /\ (c =? "]")%char = false.
Proof.
  destruct v as [| | [|] | n | s | xs | ps]; simpl;
    try (do 2 eexists; split; [reflexivity|split; reflexivity]).
  unfold string_of_Z. destruct n as [|p|p]; simpl;
    try (do 2 eexists; split; [reflexivity|split; reflexivity]).
  destruct (to_uint_head p) as (c & s & Hs & Hd & Hnz).
  assert (Hstr : NilZero.string_of_uint (Pos.to_uint p)
                 = NilEmpty.string_of_uint (Pos.to_uint p)).
  { pose proof (DecimalPos.Unsigned.to_uint_nonnil p). now destruct (Pos.to_uint p). }
  rewrite Hstr, Hs. exists c, s. split; [reflexivity|].
  unfold is_digit in Hd. apply andb_true_iff in Hd. destruct Hd as [H1 H2].
  apply Nat.leb_le in H1, H2. split.
  - unfold is_ws.
    repeat match goal with
           | |- context [(nat_of_ascii c =? ?k)%nat] =>
               replace (nat_of_ascii c =? k)%nat with false
                 by (symmetry; apply Nat.eqb_neq; lia)
           end.
    reflexivity.
  - apply Ascii.eqb_neq. intros ->.
    change (nat_of_ascii "]") with 93 in H2. lia.
Qed.

Lemma skip_ws_head c s : is_ws c = false -> skip_ws (String c s) = String c s.
Proof. intros H. simpl. now rewrite H. Qed.

(** *** Scalars *)

Lemma parse_null f rest : parse_value (S f) ("null" ++ rest) = Some (VNull, rest).
Proof.
  simpl.
  change (String "n" (String "u" (String "l" (String "l" rest))))
    with ("null" ++ rest)%string.
  now rewrite starts_with_append.
Qed.

Lemma parse_true f rest : parse_value (S f) ("true" ++ rest) = Some (VBool true, rest).
Proof.
  simpl.
  change (String "t" (String "r" (String "u" (String "e" rest))))
    with ("true" ++ rest)%string.
  now rewrite starts_with_append.
Qed.

Lemma parse_false f rest : parse_value (S f) ("false" ++ rest) = Some (VBool false, rest).
Proof.
  simpl.
  change (String "f" (String "a" (String "l" (String "s" (String "e" rest)))))
    with ("false" ++ rest)%string.
  now rewrite starts_with_append.
Qed.

Lemma parse_string f s rest :
  parse_value (S f) (quote_string s ++ rest) = Some (VStr s, rest).
Proof.
  unfold quote_string. simpl. rewrite append_assoc. simpl.
  now rewrite parse_quoted_chars.
Qed.

Lemma number_dispatch f c s :
  is_digit c = true \/ c = "-"%char ->
  parse_value (S f) (String c s) =
  match parse_number (String c s) with
  | Some (n, rest) => Some (VNum n, rest)
  | None => None
  end.
Proof.
  destruct c as [[|] [|] [|] [|] [|] [|] [|] [|]];
    intros [H|H]; try discriminate H; reflexivity.
Qed.

Lemma number_head n :
  exists c s, string_of_Z n = String c s /\ (is_digit c = true \/ c = "-"%char).
Proof.
  unfold string_of_Z. destruct n as [|p|p]; simpl.
  - exists "0"%char, ""%string. split; auto.
  - destruct (to_uint_head p) as (c & s & Hs & Hd & _).
    assert (Hstr : NilZero.string_of_uint (Pos.to_uint p)
                   = NilEmpty.string_of_uint (Pos.to_uint p)).
    { pose proof (DecimalPos.Unsigned.to_uint_nonnil p). now destruct (Pos.to_uint p). }
    rewrite Hstr, Hs. exists c, s. auto.
  - do 2 eexists. split; [reflexivity|now right].
Qed.

Lemma parse_num f n rest :
  terminated rest -> parse_value (S f) (string_of_Z n ++ rest) = Some (VNum n, rest).
Proof.
  intros Hrest. destruct (number_head n) as (c & s & Hs & Hc).
  pose proof (parse_number_canonical n rest Hrest) as Hn.
  rewrite Hs in *. simpl append in *.
  rewrite number_dispatch by assumption. now rewrite Hn.
Qed.

(** *** Arrays and objects *)

Fixpoint after_first (l : list string) : string :=
  match l with
  | [] => ""
  | y :: l' => "," ++ y ++ after_first l'
  end.

Lemma concat_cons x l : String.concat "," (x :: l) = (x ++ after_first l)%string.
Proof.
  revert x. induction l as [|y l IH]; intros x.
  - simpl. now rewrite append_nil_r.
  - change (String.concat "," (x :: y :: l))
      with (x ++ "," ++ String.concat "," (y :: l))%string.
    now rewrite IH.
Qed.

Lemma after_first_terminated l rest : terminated (after_first l ++ String "]" rest).
Proof. destruct l; simpl; auto. Qed.

Lemma after_first_terminated_obj l rest : terminated (after_first l ++ String "}" rest).
Proof. destruct l; simpl; auto. Qed.

Lemma after_first_cons y l tail :
  (after_first (y :: l) ++ tail)%string = String "," (y ++ (after_first l ++ tail)).
Proof. simpl. f_equal. apply append_assoc. Qed.

Section Composite.
Variable pv : string -> option (jsval * string).

Lemma parse_elements_comma fuel acc s :
  parse_elements pv (S fuel) acc (String "," s) =
  match pv s with
  | Some (v, rest) => parse_elements pv fuel (v :: acc) rest
  | None => None
  end.
Proof. reflexivity. Qed.

Lemma parse_members_comma fuel acc s :
  parse_members pv (S fuel) acc (String "," s) =
  match parse_member pv s with
  | Some (key, v, rest) => parse_members pv fuel (set acc key v) rest
  | None => None
  end.
Proof. reflexivity. Qed.

Lemma parse_elements_canonical xs : forall fuel acc rest,
  (forall x, In x xs -> forall rest', terminated rest' ->
             pv (canonicalStringify x ++ rest') = Some (sorted_copy x, rest')) ->
  List.length xs < fuel ->
  parse_elements pv fuel acc
    (after_first (map canonicalStringify xs) ++ String "]" rest)
  = Some (rev acc ++ map sorted_copy xs, rest).
Proof.
  induction xs as [|x xs IH]; intros fuel acc rest Hpv Hfuel;
    (destruct fuel as [|fuel]; [simpl in Hfuel; lia|]).
  - simpl. now rewrite app_nil_r.
  - simpl map. rewrite after_first_cons, parse_elements_comma.
    rewrite Hpv; [|now left|apply after_first_terminated].
    rewrite IH.
    + simpl. now rewrite <- app_assoc.
    + intros y Hy. apply Hpv. now right.
    + simpl in Hfuel. lia.
Qed.

Lemma set_fresh {V} (o : object V) k (v : V) :
  get o k = None -> set o k v = o ++ [(k, v)].
Proof.
  induction o as [|[k' v'] o IH]; simpl; auto.
  destruct (k' =? k)%string; [discriminate|]. intros H. now rewrite IH.
Qed.

Lemma get_app_fresh {V} (o : object V) k k' (v : V) :
  get o k = None -> k' <> k -> get (o ++ [(k', v)]) k = None.
Proof.
  induction o as [|[k0 v0] o IH]; simpl.
  - intros _ Hne. destruct (k' =? k)%string eqn:E; auto.
    apply String.eqb_eq in E. contradiction.
  - destruct (k0 =? k)%string; [discriminate|]. auto.
Qed.

Lemma parse_member_canonical key v rest :
  plain_key key = true -> terminated rest ->
  pv (canonicalStringify v ++ rest) = Some (sorted_copy v, rest) ->
  parse_member pv (pair_string key (canonicalStringify v) ++ rest)
  = Some (key, sorted_copy v, rest).
Proof.
  intros Hkey Hrest Hpv. unfold parse_member, pair_string, expect.
  simpl. rewrite !append_assoc. simpl.
  rewrite parse_plain_key by assumption. simpl. now rewrite Hpv.
Qed.

Lemma parse_members_canonical (ps : object jsval) ks : forall fuel acc rest,
  (forall k, In k ks ->
     plain_key k = true /\
     forall rest', terminated rest' ->
       pv (canonicalStringify (prop ps k) ++ rest') = Some (sorted_copy (prop ps k), rest')) ->
  NoDup ks ->
  (forall k, In k ks -> get acc k = None) ->
  List.length ks < fuel ->
  parse_members pv fuel acc
    (after_first (map (fun k => pair_string k (canonicalStringify (prop ps k))) ks)
       ++ String "}" rest)
  = Some (acc ++ map (fun k => (k, sorted_copy (prop ps k))) ks, rest).
Proof.
  induction ks as [|k ks IH]; intros fuel acc rest Hpv Hnd Hfresh Hfuel;
    (destruct fuel as [|fuel]; [simpl in Hfuel; lia|]).
  - simpl. now rewrite app_nil_r.
  - simpl map. rewrite after_first_cons, parse_members_comma.
    destruct (Hpv k (or_introl eq_refl)) as [Hkey Hval].
    rewrite (parse_member_canonical k (prop ps k)); auto;
      [|apply after_first_terminated_obj|apply Hval, after_first_terminated_obj].
    inversion Hnd as [|? ? Hnotin Hnd']; subst.
    rewrite set_fresh by (apply Hfresh; now left).
    rewrite IH; auto.
    + now rewrite <- app_assoc.
    + intros k' Hk'. apply Hpv. now right.
    + intros k' Hk'. apply get_app_fresh; [apply Hfresh; now right|].
      intros ->. contradiction.
    + simpl in Hfuel. lia.
Qed.
End Composite.

(** The fuel a value asks of [parse_value]. *)
Fixpoint need (v : jsval) : nat :=
  match v with
  | VArr xs => S (Nat.max (List.length xs) (list_max (map need xs)))
  | VObj ps => S (Nat.max (List.length ps) (list_max (map (fun p => need (snd p)) ps)))
  | _ => 1
  end.

Lemma arr_text xs rest :
  (canonicalStringify (VArr xs) ++ rest)%string
  = String "[" (String.concat "," (map canonicalStringify xs) ++ String "]" rest).
Proof. simpl. f_equal. now rewrite append_assoc. Qed.

Lemma obj_text ps rest :
  (canonicalStringify (VObj ps) ++ rest)%string
  = String "{" (String.concat ","
                  (map (fun key => pair_string key (canonicalStringify (prop ps key)))
                       (sort_keys (Object_keys ps)))
                  ++ String "}" rest).
Proof. rewrite canonicalStringify_object. simpl. f_equal. now rewrite append_assoc. Qed.

Lemma sorted_copy_obj ps :
  sorted_copy (VObj ps)
  = VObj (map (fun key => (key, sorted_copy (prop ps key))) (sort_keys (Object_keys ps))).
Proof.
  simpl. f_equal. apply map_ext. intros key. f_equal.
  rewrite get_map. unfold prop. now destruct (get ps key).
Qed.

Lemma parse_value_array f s c1 s1 :
  skip_ws s = String c1 s1 -> (c1 =? "]")%char = false ->
  parse_value (S f) (String "[" s) =
  match parse_value f s with
  | Some (v, rest) =>
      match parse_elements (parse_value f) f [v] rest with
      | Some (vs, rest') => Some (VArr vs, rest')
      | None => None
      end
  | None => None
  end.
Proof. intros H1 H2. simpl. now rewrite H1, H2. Qed.

Lemma parse_value_object f s c1 s1 :
  skip_ws s = String c1 s1 -> (c1 =? "}")%char = false ->
  parse_value (S f) (String "{" s) =
  match parse_member (parse_value f) s with
  | Some (key, v, rest) =>
      match parse_members (parse_value f) f [(key, v)] rest with
      | Some (ps, rest') => Some (VObj ps, rest')
      | None => None
      end
  | None => None
  end.
Proof. intros H1 H2. simpl. now rewrite H1, H2. Qed.

Lemma in_keys_prop (ps : object jsval) k :
  NoDup (keys_of ps) -> In k (keys_of ps) -> In (k, prop ps k) ps.
Proof.
  intros Hnd Hin. unfold keys_of in Hin. apply in_map_iff in Hin.
  destruct Hin as ([k' v] & Hk & Hin). simpl in Hk. subst k'.
  unfold prop. now rewrite (in_get_Some ps k v Hnd Hin).
Qed.

Lemma sorted_keys_in (ps : object jsval) k :
  In k (sort_keys (Object_keys ps)) <-> In k (keys_of ps).
Proof.
  split; intros H.
  - eapply Permutation_in; [|exact H]. rewrite sort_keys_perm. apply Object_keys_perm.
  - eapply Permutation_in; [|exact H]. symmetry.
    rewrite sort_keys_perm. apply Object_keys_perm.
Qed.

Lemma sorted_keys_NoDup (ps : object jsval) :
  NoDup (keys_of ps) -> NoDup (sort_keys (Object_keys ps)).
Proof.
  intros H. eapply Permutation_NoDup; [|exact H]. symmetry.
  rewrite sort_keys_perm. apply Object_keys_perm.
Qed.

Lemma sorted_keys_length (ps : object jsval) :
  List.length (sort_keys (Object_keys ps)) = List.length ps.
Proof.
  rewrite (Permutation_length (sort_keys_perm _)).
  rewrite (Permutation_length (Object_keys_perm ps)).
  unfold keys_of. apply length_map.
Qed.

(** The canonical encoding of plain data parses to its sorted copy. *)
Lemma parse_canonical v : forall fuel rest,
  plain_data v = true -> distinct_keys v -> need v <= fuel -> terminated rest ->
  parse_value fuel (canonicalStringify v ++ rest) = Some (sorted_copy v, rest).
Proof.
  induction v as [| | b | n | s | xs IH | ps IH] using jsval_nested_ind;
    intros fuel rest Hp Hd Hfuel Hrest;
    (destruct fuel as [|f]; [simpl in Hfuel; lia|]).
  - discriminate Hp.
  - apply parse_null.
  - destruct b; [apply parse_true|apply parse_false].
  - now apply parse_num.
  - apply parse_string.
  - (* arrays *)
    rewrite arr_text. simpl in Hfuel.
    apply distinct_keys_arr in Hd. simpl in Hp. rewrite forallb_forall in Hp.
    assert (Hneed : forall x, In x xs -> need x <= f).
    { intros x Hx. assert (Hm : list_max (map need xs) <= f) by lia.
      apply list_max_le in Hm. rewrite Forall_forall in Hm. apply Hm. now apply in_map. }
    rewrite Forall_forall in IH, Hd.
    assert (Hall : forall y, In y xs -> forall rest', terminated rest' ->
              parse_value f (canonicalStringify y ++ rest') = Some (sorted_copy y, rest')).
    { intros y Hy rest' Hrest'. apply IH; auto. }
    assert (Hlen : List.length xs <= f) by lia.
    clear IH Hp Hd Hneed Hfuel.
    destruct xs as [|x xs]; [reflexivity|].
    simpl map. rewrite concat_cons, append_assoc.
    destruct (canonical_head x) as (c & s & Hs & Hws & Hc).
    rewrite (parse_value_array f _ c (s ++ after_first (map canonicalStringify xs)
                                         ++ String "]" rest));
      [|rewrite Hs; simpl; now rewrite Hws|exact Hc].
    rewrite (Hall x); [|now left|apply after_first_terminated].
    rewrite parse_elements_canonical.
    + reflexivity.
    + intros y Hy. apply Hall. now right.
    + simpl in Hlen. lia.
  - (* objects *)
    rewrite obj_text, sorted_copy_obj. simpl in Hfuel.
    apply distinct_keys_obj in Hd. destruct Hd as [Hnd Hd].
    simpl in Hp. rewrite forallb_forall in Hp.
    rewrite Forall_forall in IH, Hd.
    assert (Hkeys : forall k, In k (sort_keys (Object_keys ps)) ->
              plain_key k = true /\
              forall rest', terminated rest' ->
                parse_value f (canonicalStringify (prop ps k) ++ rest')
                = Some (sorted_copy (prop ps k), rest')).
    { intros k Hk. apply sorted_keys_in in Hk.
      pose proof (in_keys_prop ps k Hnd Hk) as Hin.
      specialize (Hp _ Hin). simpl in Hp. apply andb_true_iff in Hp.
      destruct Hp as [Hpk Hpv]. split; auto.
      intros rest' Hrest'.
      apply (IH _ Hin f rest' Hpv (Hd _ Hin)); [|exact Hrest'].
      assert (Hm : list_max (map (fun p => need (snd p)) ps) <= f) by lia.
      apply list_max_le in Hm. rewrite Forall_forall in Hm.
      apply Hm. apply (in_map (fun p => need (snd p)) ps (k, prop ps k) Hin). }
    pose proof (sorted_keys_NoDup ps Hnd) as Hnd'.
    assert (Hlen : List.length (sort_keys (Object_keys ps)) <= f)
      by (rewrite sorted_keys_length; lia).
    clear Hfuel.
    destruct (sort_keys (Object_keys ps)) as [|k ks]; [reflexivity|].
    simpl map. rewrite concat_cons, append_assoc.
    destruct (Hkeys k (or_introl eq_refl)) as [Hpk Hpv].
    rewrite (parse_value_object f _ dquote
               ((k ++ String dquote (":" ++ canonicalStringify (prop ps k)))
                  ++ after_first
                       (map (fun key => pair_string key (canonicalStringify (prop ps key))) ks)
                  ++ String "}" rest));
      [| unfold pair_string; simpl; now rewrite !append_assoc | reflexivity ].
    rewrite parse_member_canonical; auto;
      [|apply after_first_terminated_obj|apply Hpv, after_first_terminated_obj].
    inversion Hnd' as [|? ? Hnotin Hnd'']; subst.
    rewrite parse_members_canonical; auto.
    + intros k' Hk'. apply Hkeys. now right.
    + intros k' Hk'. simpl. destruct (k =? k')%string eqn:E; auto.
      apply String.eqb_eq in E. subst. contradiction.
Qed.

(** *** Enough fuel for a canonical encoding *)

Lemma length_concat_in sep x l :
  In x l -> String.length x <= String.length (String.concat sep l).
Proof.
  induction l as [|y l IH]; [intros []|].
  intros Hin. destruct l as [|z l].
  - destruct Hin as [->|[]]. simpl. lia.
  - change (String.concat sep (y :: z :: l))
      with (y ++ sep ++ String.concat sep (z :: l))%string.
    rewrite !length_append. destruct Hin as [->|Hin]; [lia|].
    specialize (IH Hin). lia.
Qed.

Lemma length_concat_count l :
  List.length l <= S (String.length (String.concat "," l)).
Proof.
  induction l as [|y l IH]; [simpl; lia|].
  destruct l as [|z l].
  - simpl. lia.
  - change (String.concat "," (y :: z :: l))
      with (y ++ "," ++ String.concat "," (z :: l))%string.
    rewrite !length_append. simpl in *. lia.
Qed.

Lemma pair_string_length key enc :
  String.length enc <= String.length (pair_string key enc).
Proof. unfold pair_string. rewrite !length_append. lia. Qed.

Lemma need_bound v : distinct_keys v -> need v <= S (String.length (canonicalStringify v)).
Proof.
  induction v as [| | b | n | s | xs IH | ps IH] using jsval_nested_ind;
    intros Hd; try (simpl; lia).
  - apply distinct_keys_arr in Hd. rewrite Forall_forall in IH, Hd.
    change (need (VArr xs)) with (S (Nat.max (List.length xs) (list_max (map need xs)))).
    rewrite <- (append_nil_r (canonicalStringify (VArr xs))), arr_text.
    simpl String.length. rewrite length_append. simpl String.length.
    apply le_n_S, Nat.max_lub.
    + pose proof (length_concat_count (map canonicalStringify xs)) as H.
      rewrite length_map in H. lia.
    + apply list_max_le, Forall_forall. intros m Hm.
      apply in_map_iff in Hm. destruct Hm as (x & <- & Hx).
      specialize (IH x Hx (Hd x Hx)).
      pose proof (length_concat_in "," (canonicalStringify x) (map canonicalStringify xs)
                    (in_map _ _ _ Hx)). lia.
  - apply distinct_keys_obj in Hd. destruct Hd as [Hnd Hd].
    rewrite Forall_forall in IH, Hd.
    change (need (VObj ps))
      with (S (Nat.max (List.length ps) (list_max (map (fun p => need (snd p)) ps)))).
    rewrite <- (append_nil_r (canonicalStringify (VObj ps))), obj_text.
    simpl String.length. rewrite length_append. simpl String.length.
    set (pairs := map (fun key => pair_string key (canonicalStringify (prop ps key)))
                      (sort_keys (Object_keys ps))).
    apply le_n_S, Nat.max_lub.
    + pose proof (length_concat_count pairs) as H.
      unfold pairs in H at 1. rewrite length_map, sorted_keys_length in H. lia.
    + apply list_max_le, Forall_forall. intros m Hm.
      apply in_map_iff in Hm. destruct Hm as ([k v] & <- & Hp). simpl.
      specialize (IH _ Hp (Hd _ Hp)). simpl in IH.
      assert (Hk : In k (sort_keys (Object_keys ps))).
      { apply sorted_keys_in. unfold keys_of. change k with (fst (k, v)). now apply in_map. }
      assert (Hv : prop ps k = v).
      { unfold prop. now rewrite (in_get_Some ps k v Hnd Hp). }
      pose proof (length_concat_in "," (pair_string k (canonicalStringify v)) pairs) as Hlen.
      pose proof (pair_string_length k (canonicalStringify v)) as Hpair.
      assert (Hin : In (pair_string k (canonicalStringify v)) pairs).
      { unfold pairs. apply in_map_iff. exists k. split; auto. now rewrite Hv. }
      specialize (Hlen Hin). lia.
Qed.

(** Decoding the canonical encoding of plain data gives its sorted copy. *)
Lemma JSON_parse_canonical v :
  plain_data v = true -> distinct_keys v ->
  JSON_parse (canonicalStringify v) = Some (sorted_copy v).
Proof.
  intros Hp Hd. unfold JSON_parse.
  rewrite <- (append_nil_r (canonicalStringify v)) at 2.
  rewrite parse_canonical; auto.
  - now apply need_bound.
  - exact I.
Qed.

(** The sorted copy is structurally equal to the value. *)
Lemma sorted_copy_same v : distinct_keys v -> same_value v (sorted_copy v).
Proof.
  induction v as [| | b | n | s | xs IH | ps IH] using jsval_nested_ind;
    intros Hd; try constructor.
  - apply distinct_keys_arr in Hd. simpl.
    induction xs as [|x xs IHxs]; simpl; constructor.
    + inversion IH; inversion Hd; subst. auto.
    + inversion IH; inversion Hd; subst. auto.
  - apply distinct_keys_obj in Hd. destruct Hd as [Hnd Hd].
    rewrite sorted_copy_obj.
    apply (same_obj _ _ (map (fun p => (fst p, sorted_copy (snd p))) ps)).
    + assert (Heq : map (fun p => (fst p, sorted_copy (snd p))) ps
                    = map (fun key => (key, sorted_copy (prop ps key))) (keys_of ps)).
      { unfold keys_of. rewrite map_map. apply map_ext_in. intros [k v] Hin. simpl.
        unfold prop. now rewrite (in_get_Some ps k v Hnd Hin). }
      rewrite Heq. apply Permutation_map.
      rewrite sort_keys_perm. apply Object_keys_perm.
    + clear Hnd. induction ps as [|p ps IHps]; simpl; constructor.
      * inversion IH; inversion Hd; subst. split; auto.
      * inversion IH; inversion Hd; subst. auto.
Qed.

End ParseFacts.

(* ================================================================= *)
(** ** The three loops of the engine *)

Module EngineFacts.
Import JS Utils JSON Consensus Ballots JSFacts TallyFacts.

Lemma events_nil w a : events w a a = [].
Proof. unfold events. now rewrite Nat.sub_diag. Qed.

Lemma events_step w a n : a < n -> events w a n = tag (w a) :: events w (S a) n.
Proof.
  intros H. unfold events.
  replace (n - a) with (S (n - S a)) by lia. reflexivity.
Qed.

Lemma events_app w a b n : a <= b -> b <= n -> events w a n = events w a b ++ events w b n.
Proof.
  intros Hab Hbn. unfold events.
  replace (n - a) with ((b - a) + (n - b)) by lia.
  rewrite seq_app, map_app. now replace (a + (b - a)) with b by lia.
Qed.

Lemma events_length w a n : List.length (events w a n) = n - a.
Proof. unfold events. now rewrite length_map, length_seq. Qed.

Lemma counted_flagged w n : w n = None -> counted w (S n) = counted w n.
Proof. intros H. simpl. rewrite H. apply app_nil_r. Qed.

Lemma counted_valid w n result :
  w n = Some result -> counted w (S n) = counted w n ++ [canonicalStringify result].
Proof. intros H. simpl. now rewrite H. Qed.

Section Loops.
Variable cfg : CONFIG.
Variable w : nat -> option jsval.
Let K := VOTE_MARGIN_K cfg.
Let MAX := MAX_ATTEMPTS_PER_STEP cfg.

(** The check after a vote decides exactly when a candidate is ahead by K. *)
Lemma decide_spec votes ks n :
  tally_ok votes ks -> ks <> [] ->
  (exists k, ahead_by K ks k /\
             decide cfg votes n = Some (declare (k, cnt ks k) (lead ks k) n))
  \/ ((forall k, ~ ahead_by K ks k) /\ decide cfg votes n = None).
Proof.
  intros Hok Hne. unfold decide.
  destruct (standing_some _ _ Hok Hne) as (leader & margin & Hst).
  rewrite Hst.
  destruct (standing_lead _ _ _ _ Hok Hst) as (Hin & Hc & Hm & Hbest).
  fold K. destruct (K <=? margin)%Z eqn:E.
  - left. exists (fst leader). apply Z.leb_le in E. split.
    + split; auto. now rewrite <- Hm.
    + rewrite <- Hm, <- Hc. now destruct leader.
  - right. apply Z.leb_gt in E. split; auto.
    intros k [Hk Hl]. specialize (Hbest k Hk). lia.
Qed.

(** The sequential loop from any state it can be in. *)
Lemma sequential_from fuel : forall a votes,
  tally_ok votes (counted w a) ->
  MAX - a <= fuel -> a <= MAX ->
  (forall j k, j <= a -> ~ ahead_by K (counted w j) k) ->
  (exists n k,
      a < n /\ n <= MAX /\ first_reach K w n k /\
      sequential_loop cfg w fuel votes a =
      (events w a n, declare (k, cnt (counted w n) k) (lead (counted w n) k) n))
  \/
  ((forall n k, n <= MAX -> ~ ahead_by K (counted w n) k) /\
   sequential_loop cfg w fuel votes a = (events w a MAX, Throw (unresolved cfg))).
Proof.
  induction fuel as [|fuel IH]; intros a votes Hok Hfuel Ha Hnone.
  - right. assert (a = MAX) by lia. subst a. split.
    + intros n k Hn. now apply Hnone.
    + simpl. fold MAX. rewrite Nat.ltb_irrefl, events_nil. reflexivity.
  - simpl. fold MAX. destruct (a <? MAX)%nat eqn:Hlt.
    2:{ apply Nat.ltb_ge in Hlt. assert (a = MAX) by lia. subst a. right. split.
        - intros n k Hn. now apply Hnone.
        - now rewrite events_nil. }
    apply Nat.ltb_lt in Hlt.
    destruct (w a) as [result|] eqn:Hw.
    + pose proof (counted_valid _ _ _ Hw) as Hc.
      assert (Hok' : tally_ok (cast_vote votes (canonicalStringify result))
                              (counted w (S a))).
      { rewrite Hc. now apply cast_vote_ok. }
      assert (Hne : counted w (S a) <> []).
      { rewrite Hc. intros E. now apply app_eq_nil in E as [_ [=]]. }
      destruct (decide_spec _ _ (S a) Hok' Hne) as [(k & Hk & ->) | (Hno & ->)].
      * left. exists (S a), k. split; [lia|]. split; [lia|]. split.
        -- split; auto. intros j k' Hj. apply Hnone. lia.
        -- unfold emit. simpl. rewrite (events_step w a (S a)) by lia.
           now rewrite events_nil, Hw.
      * destruct (IH (S a) _ Hok') as [(n & k & Hn1 & Hn2 & Hfr & ->) | (Hall & ->)];
          try lia.
        { intros j k Hj. destruct (Nat.eq_dec j (S a)) as [->|]; [apply Hno|].
          apply Hnone. lia. }
        -- left. exists n, k. split; [lia|]. split; [lia|]. split; [exact Hfr|].
           unfold emit. simpl. rewrite (events_step w a n) by lia. now rewrite Hw.
        -- right. split; auto.
           unfold emit. simpl. rewrite (events_step w a MAX) by lia. now rewrite Hw.
    + pose proof (counted_flagged _ _ Hw) as Hc.
      destruct (IH (S a) votes) as [(n & k & Hn1 & Hn2 & Hfr & ->) | (Hall & ->)];
        try lia.
      { now rewrite Hc. }
      { intros j k Hj. destruct (Nat.eq_dec j (S a)) as [->|].
        - rewrite Hc. apply Hnone. lia.
        - apply Hnone. lia. }
      * left. exists n, k. split; [lia|]. split; [lia|]. split; [exact Hfr|].
        unfold emit. simpl. rewrite (events_step w a n) by lia. now rewrite Hw.
      * right. split; auto.
        unfold emit. simpl. rewrite (events_step w a MAX) by lia. now rewrite Hw.
Qed.

Lemma nobody_ahead_at_start k : ~ ahead_by K (counted w 0) k.
Proof. intros [[] _]. Qed.

Lemma sequential_margin_rule fuel :
  MAX <= fuel -> MarginRule.holds cfg w (getConsensusResultSequential cfg w fuel).
Proof.
  intros Hfuel. unfold getConsensusResultSequential, MarginRule.holds.
  destruct (sequential_from fuel 0 []) as [(n & k & Hn1 & Hn2 & Hfr & ->) | (Hall & ->)];
    try lia.
  - apply tally_ok_nil.
  - intros j k Hj. assert (j = 0) by lia. subst. apply nobody_ahead_at_start.
  - left. exists n, k. auto.
  - right. auto.
Qed.

(** *** The strategies compared *)

(** The sequential loop with exactly the fuel its guard needs. *)
Definition seq_run (votes : tally) (a : nat) : run (completion consensus) :=
  sequential_loop cfg w (MAX - a) votes a.

Lemma sequential_fuel fuel : forall a votes,
  MAX - a <= fuel -> sequential_loop cfg w fuel votes a = seq_run votes a.
Proof.
  unfold seq_run.
  induction fuel as [|fuel IH]; intros a votes Hfuel.
  - now replace (MAX - a) with 0 by lia.
  - destruct (MAX - a) as [|m] eqn:Hm.
    + simpl. fold MAX. replace (a <? MAX)%nat with false; auto.
      symmetry. apply Nat.ltb_ge. lia.
    + simpl. fold MAX. destruct (a <? MAX)%nat; auto.
      replace m with (MAX - S a) by lia.
      destruct (w a) as [result|].
      * destruct (decide cfg _ (S a)); auto. now rewrite IH by lia.
      * now rewrite IH by lia.
Qed.

Lemma seq_run_done votes a : MAX <= a -> seq_run votes a = ([], Throw (unresolved cfg)).
Proof.
  intros H. unfold seq_run. replace (MAX - a) with 0 by lia. simpl. fold MAX.
  replace (a <? MAX)%nat with false; auto. symmetry. apply Nat.ltb_ge. lia.
Qed.

Lemma seq_run_step votes a :
  a < MAX ->
  seq_run votes a =
  match w a with
  | None => emit flagged (seq_run votes (S a))
  | Some result =>
      let votes' := cast_vote votes (canonicalStringify result) in
      emit valid
        match decide cfg votes' (S a) with
        | Some c => ([], c)
        | None => seq_run votes' (S a)
        end
  end.
Proof.
  intros H. unfold seq_run. replace (MAX - a) with (S (MAX - S a)) by lia.
  simpl. fold MAX. replace (a <? MAX)%nat with true; auto.
  symmetry. now apply Nat.ltb_lt.
Qed.

Lemma after_nil {A} (r : run A) : after [] r = r.
Proof. now destruct r. Qed.

Lemma after_emit {A} v log (r : run A) : after (v :: log) r = emit v (after log r).
Proof. reflexivity. Qed.

(** One batch of the early-termination mode does what the sequential loop
    does on the same results. *)
Lemma early_batch_seq b : forall a votes,
  a + b <= MAX ->
  seq_run votes a =
  match early_batch cfg (map w (seq a b)) votes a with
  | (log, inl c) => (log, c)
  | (log, inr (votes', a')) => after log (seq_run votes' a')
  end /\
  forall log votes' a',
    early_batch cfg (map w (seq a b)) votes a = (log, inr (votes', a')) -> a' = a + b.
Proof.
  induction b as [|b IH]; intros a votes Hb; simpl.
  - split; [now rewrite after_nil|]. intros ? ? ? [= _ _ <-]. lia.
  - rewrite seq_run_step by lia.
    destruct (w a) as [result|].
    + cbv zeta. destruct (decide cfg _ (S a)) as [c|]; simpl.
      * split; [reflexivity|]. intros ? ? ? [=].
      * destruct (IH (S a) (cast_vote votes (canonicalStringify result))) as [-> Hlen];
          [lia|].
        destruct (early_batch cfg _ _ (S a)) as [log [c|[votes' a']]]; simpl.
        -- split; [reflexivity|]. intros ? ? ? [=].
        -- split; [reflexivity|]. intros ? ? ? [= <- <- <-].
           rewrite (Hlen _ _ _ eq_refl). lia.
    + destruct (IH (S a) votes) as [-> Hlen]; [lia|].
      destruct (early_batch cfg _ _ (S a)) as [log [c|[votes' a']]]; simpl.
      * split; [reflexivity|]. intros ? ? ? [=].
      * split; [reflexivity|]. intros ? ? ? [= <- <- <-].
        rewrite (Hlen _ _ _ eq_refl). lia.
Qed.

Lemma parallel_early_sequential fuel : forall a votes,
  EARLY_TERMINATION cfg = true -> 1 <= BATCH_SIZE cfg ->
  MAX - a <= fuel ->
  parallel_loop cfg w fuel votes a = seq_run votes a.
Proof.
  induction fuel as [|fuel IH]; intros a votes He Hb Hfuel.
  - simpl. fold MAX. replace (a <? MAX)%nat with false
      by (symmetry; apply Nat.ltb_ge; lia).
    now rewrite seq_run_done by lia.
  - simpl. fold MAX. destruct (a <? MAX)%nat eqn:Hlt.
    2:{ apply Nat.ltb_ge in Hlt. now rewrite seq_run_done. }
    apply Nat.ltb_lt in Hlt. rewrite He.
    destruct (early_batch_seq (Nat.min (BATCH_SIZE cfg) (MAX - a)) a votes) as [-> Hlen];
      [lia|].
    destruct (early_batch cfg _ votes a) as [log [c|[votes' a']]]; auto.
    rewrite IH; auto. specialize (Hlen _ _ _ eq_refl). lia.
Qed.

(** A tally on which the check fails. *)
Definition undecided (votes : tally) : Prop := forall n, decide cfg votes n = None.

Lemma undecided_nil : undecided [].
Proof. intros n. reflexivity. Qed.

Lemma decide_attempts votes n n' : decide cfg votes n = None -> decide cfg votes n' = None.
Proof.
  unfold decide. destruct (standing votes) as [[leader margin]|]; auto.
  destruct (VOTE_MARGIN_K cfg <=? margin)%Z; auto. discriminate.
Qed.

(** With batches of one result the standard batch mode is the sequential
    loop. *)
Lemma parallel_exhaustive_sequential fuel : forall a votes,
  EARLY_TERMINATION cfg = false -> BATCH_SIZE cfg = 1 ->
  MAX - a <= fuel -> undecided votes ->
  parallel_loop cfg w fuel votes a = seq_run votes a.
Proof.
  induction fuel as [|fuel IH]; intros a votes He Hb Hfuel Hun.
  - simpl. fold MAX. replace (a <? MAX)%nat with false
      by (symmetry; apply Nat.ltb_ge; lia).
    now rewrite seq_run_done by lia.
  - simpl. fold MAX. destruct (a <? MAX)%nat eqn:Hlt.
    2:{ apply Nat.ltb_ge in Hlt. now rewrite seq_run_done. }
    apply Nat.ltb_lt in Hlt. rewrite He, Hb.
    replace (Nat.min 1 (MAX - a)) with 1 by lia.
    rewrite seq_run_step by lia. simpl.
    replace (a + 1) with (S a) by lia.
    destruct (w a) as [result|]; simpl.
    + destruct (decide cfg _ (S a)) as [c|] eqn:Hd; auto.
      unfold after, emit. simpl. rewrite IH; auto; [lia|].
      intros n. eapply decide_attempts, Hd.
    + rewrite Hun. unfold after, emit. simpl. rewrite IH; auto. lia.
Qed.

(** *** Enough fuel *)

Lemma decide_completes votes n c : decide cfg votes n = Some c -> c <> Diverge.
Proof.
  unfold decide. destruct (standing votes) as [[leader margin]|]; [|discriminate].
  destruct (VOTE_MARGIN_K cfg <=? margin)%Z; [|discriminate].
  intros [= <-]. unfold declare. now destruct (JSON_parse (fst leader)).
Qed.

Lemma early_batch_completes promises : forall votes a log c,
  early_batch cfg promises votes a = (log, inl c) -> c <> Diverge.
Proof.
  induction promises as [|[result|] promises IH]; intros votes a log c; simpl.
  - discriminate.
  - destruct (decide cfg _ (S a)) as [c'|] eqn:Hd; simpl.
    + intros [= _ <-]. eapply decide_completes; eauto.
    + destruct (early_batch cfg promises _ (S a)) as [log' [c'|st]] eqn:He; simpl;
        [|discriminate].
      intros [= _ <-]. eapply IH; eauto.
  - destruct (early_batch cfg promises votes (S a)) as [log' [c'|st]] eqn:He; simpl;
      [|discriminate].
    intros [= _ <-]. eapply IH; eauto.
Qed.

Lemma early_batch_attempts promises : forall votes a log votes' a',
  early_batch cfg promises votes a = (log, inr (votes', a')) ->
  a' = a + List.length promises.
Proof.
  induction promises as [|[result|] promises IH]; intros votes a log votes' a'; simpl.
  - intros [= _ _ <-]. lia.
  - destruct (decide cfg _ (S a)) as [c'|]; simpl; [discriminate|].
    destruct (early_batch cfg promises _ (S a)) as [log' [c'|[v2 a2]]] eqn:He; simpl;
      [discriminate|].
    intros [= _ _ <-]. rewrite (IH _ _ _ _ _ He). lia.
  - destruct (early_batch cfg promises votes (S a)) as [log' [c'|[v2 a2]]] eqn:He; simpl;
      [discriminate|].
    intros [= _ _ <-]. rewrite (IH _ _ _ _ _ He). lia.
Qed.

(** With batches that are not empty the parallel loop completes, in either
    mode, on the fuel its guard asks for. *)
Lemma parallel_completes fuel : forall a votes,
  1 <= BATCH_SIZE cfg -> MAX - a <= fuel ->
  snd (parallel_loop cfg w fuel votes a) <> Diverge.
Proof.
  induction fuel as [|fuel IH]; intros a votes Hb Hfuel.
  - simpl. fold MAX. replace (a <? MAX)%nat with false
      by (symmetry; apply Nat.ltb_ge; lia). discriminate.
  - simpl. fold MAX. destruct (a <? MAX)%nat eqn:Hlt; [|discriminate].
    apply Nat.ltb_lt in Hlt.
    set (batchSize := Nat.min (BATCH_SIZE cfg) (MAX - a)).
    assert (Hbs : 1 <= batchSize) by (unfold batchSize; lia).
    destruct (EARLY_TERMINATION cfg).
    + destruct (early_batch cfg _ votes a) as [log [c|[votes' a']]] eqn:He; simpl.
      * eapply early_batch_completes; eauto.
      * apply early_batch_attempts in He.
        rewrite length_map, length_seq in He. apply IH; auto. lia.
    + destruct (tally_batch _ votes) as [log votes'].
      destruct (decide cfg votes' (a + batchSize)) as [c|] eqn:Hd; simpl.
      * eapply decide_completes; eauto.
      * apply IH; auto. lia.
Qed.

End Loops.

End EngineFacts.

(* ================================================================= *)
(** ** Ballot sequences with the same counted ballots *)

Module StreamFacts.
Import JS Utils JSON Consensus Ballots JSFacts TallyFacts EngineFacts.

Definition key_of (b : option jsval) : list string :=
  match b with
  | Some result => [canonicalStringify result]
  | None => []
  end.

Section Counted.
Variable w : nat -> option jsval.

Lemma counted_S n : counted w (S n) = counted w n ++ key_of (w n).
Proof. reflexivity. Qed.

Lemma counted_length_step n :
  List.length (counted w n) <= List.length (counted w (S n)) <= S (List.length (counted w n)).
Proof.
  rewrite counted_S, length_app. destruct (w n); simpl; lia.
Qed.

Lemma counted_prefix j : forall n, j <= n ->
  counted w j = firstn (List.length (counted w j)) (counted w n).
Proof.
  induction n as [|n IH]; intros Hj.
  - assert (j = 0) by lia. subst. reflexivity.
  - destruct (Nat.eq_dec j (S n)) as [->|Hne].
    + now rewrite firstn_all.
    + specialize (IH ltac:(lia)). rewrite counted_S.
      rewrite firstn_app.
      replace (List.length (counted w j) - List.length (counted w n)) with 0.
      * simpl. rewrite app_nil_r. exact IH.
      * assert (List.length (counted w j) <= List.length (counted w n)); [|lia].
        rewrite IH at 1. rewrite length_firstn. lia.
Qed.

Lemma counted_length_mono j n :
  j <= n -> List.length (counted w j) <= List.length (counted w n).
Proof.
  intros H. rewrite (counted_prefix j n H) at 1. rewrite length_firstn. lia.
Qed.

(** Every shorter count is met on the way, first at some position. *)
Lemma counted_reaches n : forall c,
  c <= List.length (counted w n) ->
  exists j, j <= n /\ List.length (counted w j) = c /\
            forall i, i < j -> List.length (counted w i) < c.
Proof.
  induction n as [|n IH]; intros c Hc.
  - simpl in Hc. exists 0. repeat split; auto; simpl; lia.
  - destruct (le_lt_dec c (List.length (counted w n))) as [Hle|Hgt].
    + destruct (IH c Hle) as (j & Hj & Hlen & Hmin). exists j. repeat split; auto.
    + pose proof (counted_length_step n).
      exists (S n). repeat split; auto; try lia.
      intros i Hi. pose proof (counted_length_mono i n ltac:(lia)). lia.
Qed.
End Counted.

(** A candidate that is first ahead on [w] is first ahead on any [w'] whose
    counted ballots continue those of [w], at the position where [w'] has
    counted as many. *)
Lemma first_reach_transfer K w w' n k N' :
  first_reach K w n k ->
  (exists rest, counted w' N' = counted w n ++ rest) ->
  exists n', n' <= N' /\ first_reach K w' n' k /\ counted w' n' = counted w n.
Proof.
  intros [Hahead Hfirst] [rest Hrest].
  set (m := List.length (counted w n)).
  destruct (counted_reaches w' N' m) as (n' & Hn' & Hlen & Hmin).
  { rewrite Hrest, length_app. fold m. lia. }
  assert (Heq : counted w' n' = counted w n).
  { rewrite (counted_prefix w' n' N' Hn'), Hlen, Hrest.
    unfold m. rewrite firstn_app, Nat.sub_diag, firstn_all. simpl. apply app_nil_r. }
  exists n'. split; auto. split; auto. split.
  - now rewrite Heq.
  - intros j' k' Hj' Hah.
    specialize (Hmin j' Hj').
    destruct (counted_reaches w n (List.length (counted w' j'))) as (j & Hj & Hjlen & _).
    { fold m. lia. }
    assert (j < n).
    { destruct (Nat.eq_dec j n) as [->|]; [fold m in Hjlen; lia|lia]. }
    apply (Hfirst j k'); auto.
    replace (counted w j) with (counted w' j'); auto.
    rewrite (counted_prefix w' j' N' ltac:(lia)), Hrest.
    rewrite (counted_prefix w j n Hj), Hjlen.
    rewrite firstn_app.
    replace (List.length (counted w' j') - List.length (counted w n)) with 0
      by (fold m; lia).
    simpl. now rewrite app_nil_r.
Qed.

(** The position and the candidate of a first reach are determined. *)
Lemma first_reach_unique K w n k n' k' :
  first_reach K w n k -> first_reach K w n' k' -> n = n' /\ k = k'.
Proof.
  intros [Ha Hf] [Ha' Hf'].
  assert (n = n').
  { destruct (Nat.lt_trichotomy n n') as [H|[H|H]]; auto.
    - exfalso. eapply Hf'; eauto.
    - exfalso. eapply Hf; eauto. }
  subst n'. split; auto.
  destruct (Z_le_gt_dec 1 K) as [HK|HK].
  - eapply ahead_by_unique; eauto.
  - destruct n as [|n]; [destruct Ha as [[] _]|].
    destruct (counted w n) as [|k0 ks0] eqn:E.
    + rewrite counted_S, E in Ha, Ha'. simpl in *.
      destruct Ha as [Hin _], Ha' as [Hin' _].
      destruct (w n); simpl in *; [|tauto].
      destruct Hin as [<-|[]], Hin' as [<-|[]]. reflexivity.
    + exfalso. destruct (someone_leads (counted w n)) as (k1 & Hin & Hl).
      { rewrite E. discriminate. }
      apply (Hf n k1); [lia|]. split; auto. lia.
Qed.

(** *** Finite ballot lists *)

Definition ckeys (l : list (option jsval)) : list string := flat_map key_of l.

Lemma ckeys_app l1 l2 : ckeys (l1 ++ l2) = ckeys l1 ++ ckeys l2.
Proof. unfold ckeys. apply flat_map_app. Qed.

Lemma firstn_split_at {A} (l1 l2 : list A) m :
  firstn (List.length l1 + m) (l1 ++ l2) = l1 ++ firstn m l2.
Proof. apply firstn_app_2. Qed.

Lemma counted_ballots l : forall n, counted (ballots l) n = ckeys (firstn n l).
Proof.
  induction n as [|n IH]; [reflexivity|].
  rewrite counted_S, IH.
  change (ballots l n) with (nth n l None).
  destruct (le_lt_dec (List.length l) n) as [Hge|Hlt].
  - rewrite nth_overflow by lia. rewrite !firstn_all2 by lia. apply app_nil_r.
  - destruct (nth_split l None Hlt) as (l1 & l2 & Hl & Hlen).
    set (b := nth n l None) in *. clearbody b. subst l n.
    replace (S (List.length l1)) with (List.length l1 + 1) by lia.
    rewrite firstn_split_at.
    rewrite <- (Nat.add_0_r (List.length l1)) at 1.
    rewrite firstn_split_at. simpl.
    rewrite !ckeys_app. simpl. now rewrite !app_nil_r.
Qed.

Lemma counted_ballots_all l n : List.length l <= n -> counted (ballots l) n = ckeys l.
Proof. intros H. rewrite counted_ballots. now rewrite firstn_all2. Qed.

Lemma interleaved_ckeys l l' : interleaved l l' -> ckeys l = ckeys l'.
Proof.
  induction 1 as [|b l l' _ IH|l l' _ IH]; simpl; auto. now rewrite IH.
Qed.

Lemma interleaved_length l l' : interleaved l l' -> List.length l <= List.length l'.
Proof. induction 1; simpl; lia. Qed.

End StreamFacts.

(* ================================================================= *)
(** ** The admission controller *)

Module LimiterFacts.
Import RateLimiter.

Lemma filter_partition_perm {A} (f : A -> bool) (l : list A) :
  Permutation l (filter f l ++ filter (fun x => negb (f x)) l).
Proof.
  induction l as [|x l IH]; simpl; auto.
  destruct (f x); simpl.
  - now constructor.
  - rewrite <- Permutation_middle. now constructor.
Qed.

Lemma filter_perm {A} (f : A -> bool) (l l' : list A) :
  Permutation l l' -> Permutation (filter f l) (filter f l').
Proof.
  induction 1 as [|x l l' _ IH|x y l|l l' l'' _ IH1 _ IH2]; simpl; auto.
  - destruct (f x); auto.
  - destruct (f x), (f y); auto. apply perm_swap.
  - now rewrite IH1.
Qed.

Lemma admissions_in_perm s l l' :
  Permutation l l' -> admissions_in s l = admissions_in s l'.
Proof.
  intros H. unfold admissions_in. apply Permutation_length. now apply filter_perm.
Qed.

Lemma admissions_in_app s l l' :
  admissions_in s (l ++ l') = admissions_in s l + admissions_in s l'.
Proof. unfold admissions_in. now rewrite filter_app, length_app. Qed.

Lemma admissions_in_le s l : admissions_in s l <= List.length l.
Proof. unfold admissions_in. apply filter_length_le. Qed.

Lemma admissions_in_old s now l :
  Forall (fun t => t + 60000 <= now)%Z l -> (now < s + 60000)%Z -> admissions_in s l = 0.
Proof.
  intros Hold Hs. unfold admissions_in.
  induction Hold as [|t l Ht _ IH]; simpl; auto.
  unfold in_window at 1.
  replace (s <=? t)%Z with false; [exact IH|].
  symmetry. apply Z.leb_gt. lia.
Qed.

(** The timestamps [A] of all admissions so far against the window [R] the
    limiter keeps, at the time [now] and for the limit [M]. *)
Definition stamps_ok (M now : Z) (A R : list Z) : Prop :=
  Forall (fun t => t <= now)%Z A /\
  (exists P, Permutation A (P ++ R) /\ Forall (fun t => t + 60000 <= now)%Z P) /\
  forall s, (Z.of_nat (admissions_in s A) <= Z.max 0 M)%Z.

Lemma stamps_ok_boot M now : stamps_ok M now [] [].
Proof.
  split; [constructor|]. split.
  - exists []. split; [reflexivity|constructor].
  - intros s. simpl. lia.
Qed.

Lemma stamps_ok_later M now now' A R :
  (now <= now')%Z -> stamps_ok M now A R -> stamps_ok M now' A R.
Proof.
  intros Hle (Hpast & (P & Hperm & Hold) & Hbound). split; [|split].
  - eapply Forall_impl; [|exact Hpast]. simpl. intros; lia.
  - exists P. split; auto. eapply Forall_impl; [|exact Hold]. simpl. intros; lia.
  - exact Hbound.
Qed.

Lemma stamps_ok_prune M now A R : stamps_ok M now A R -> stamps_ok M now A (prune now R).
Proof.
  intros (Hpast & (P & Hperm & Hold) & Hbound). split; [|split]; auto.
  exists (P ++ filter (fun t => negb (now - t <? 60000)%Z) R). split.
  - rewrite Hperm. rewrite <- app_assoc. apply Permutation_app_head.
    unfold prune. rewrite Permutation_app_comm. apply filter_partition_perm.
  - apply Forall_app. split; auto.
    apply Forall_forall. intros t Ht. apply filter_In in Ht. destruct Ht as [_ Ht].
    apply negb_true_iff, Z.ltb_ge in Ht. lia.
Qed.

Lemma stamps_ok_admit M now A R :
  stamps_ok M now A R -> (Z.of_nat (List.length R) < M)%Z ->
  stamps_ok M now (A ++ [now]) (R ++ [now]).
Proof.
  intros (Hpast & (P & Hperm & Hold) & Hbound) Hcap. split; [|split].
  - apply Forall_app. split; auto. constructor; [lia|constructor].
  - exists P. split; auto. rewrite app_assoc. now apply Permutation_app_tail.
  - intros s. rewrite admissions_in_app.
    unfold admissions_in at 2. simpl.
    destruct (in_window s now) eqn:Hw; simpl.
    + unfold in_window in Hw. apply andb_true_iff in Hw. destruct Hw as [_ Hw].
      apply Z.ltb_lt in Hw.
      rewrite (admissions_in_perm s _ _ Hperm), admissions_in_app.
      rewrite (admissions_in_old s now P Hold Hw).
      pose proof (admissions_in_le s R). lia.
    + specialize (Hbound s). lia.
Qed.

Section Runs.
Context {T : Type}.
Implicit Types (w : world T) (e : event T).

Definition stamps w : list Z := map snd (started w).

(** What holds of the limiter between two runs of its loop. *)
Record inv (M : Z) w : Prop := {
  inv_limit : maxRpm (limiter w) = M;
  inv_idle : processing (limiter w) = false ->
             queue (limiter w) = [] /\ timer w = None;
  inv_busy : processing (limiter w) = true -> timer w <> None;
  inv_stamps : stamps_ok M (clock w) (stamps w) (requestTimestamps (limiter w))
}.

Lemma inv_boot M now : inv M (boot M now).
Proof.
  constructor; simpl; auto; try discriminate. apply stamps_ok_boot.
Qed.

(** One run of the loop. *)
Lemma while_queue_spec M now q : forall R A,
  stamps_ok M now A R ->
  let p := while_queue T M now q R in
  stamps_ok M now (A ++ map snd (started_now T p))
            (requestTimestamps (limiter_after T p)) /\
  map fst (started_now T p) ++ queue (limiter_after T p) = q /\
  maxRpm (limiter_after T p) = M /\
  (processing (limiter_after T p) = false ->
     queue (limiter_after T p) = [] /\ sleeping T p = None) /\
  (processing (limiter_after T p) = true -> sleeping T p <> None) /\
  Forall (fun x => snd x = now) (started_now T p).
Proof.
  induction q as [|task rest IH]; intros R A Hok; simpl.
  - rewrite app_nil_r. split; [exact Hok|]. repeat split; auto; easy.
  - pose proof (stamps_ok_prune _ _ _ _ Hok) as Hpr.
    destruct (Z.of_nat (List.length (prune now R)) <? M)%Z eqn:Hcap; simpl.
    + apply Z.ltb_lt in Hcap.
      pose proof (stamps_ok_admit _ _ _ _ Hpr Hcap) as Hadm.
      destruct (IH _ _ Hadm) as (H1 & H2 & H3 & H4 & H5 & H6).
      rewrite <- app_assoc in H1. simpl in H1.
      split; [exact H1|]. split; [now rewrite H2|].
      split; [exact H3|]. split; [exact H4|]. split; [exact H5|].
      constructor; auto.
    + rewrite app_nil_r. split; [exact Hpr|]. repeat split; auto; easy.
Qed.

Lemma resume_inv M w :
  maxRpm (limiter w) = M ->
  stamps_ok M (clock w) (stamps w) (requestTimestamps (limiter w)) ->
  inv M (resume T w) /\
  map fst (started (resume T w)) ++ queue (limiter (resume T w)) =
  map fst (started w) ++ queue (limiter w).
Proof.
  intros HM Hok. unfold resume. rewrite HM.
  destruct (while_queue_spec M (clock w) (queue (limiter w)) _ _ Hok)
    as (H1 & H2 & H3 & H4 & H5 & _).
  split.
  - constructor; simpl; auto.
    + intros Hp. destruct (H4 Hp) as [Hq Hs]. now rewrite Hs.
    + intros Hp. specialize (H5 Hp).
      destruct (sleeping T _); [discriminate|congruence].
    + unfold stamps. simpl. now rewrite map_app.
  - simpl. rewrite map_app, <- app_assoc. now rewrite H2.
Qed.

Lemma step_inv M w e :
  inv M w ->
  inv M (step w e) /\
  map fst (started (step w e)) ++ queue (limiter (step w e)) =
  (map fst (started w) ++ queue (limiter w)) ++ submitted [e].
Proof.
  intros Hinv. pose proof Hinv as [HM Hidle Hbusy Hok].
  destruct e as [task|ms| |]; simpl.
  - unfold throttle, processQueue. simpl.
    destruct (processing (limiter w)) eqn:Hp.
    + split; [|simpl; now rewrite app_assoc].
      constructor; simpl; auto; easy.
    + destruct (resume_inv M
          {| limiter := {| maxRpm := maxRpm (limiter w);
                           queue := queue (limiter w) ++ [task];
                           processing := false;
                           requestTimestamps := requestTimestamps (limiter w) |};
             clock := clock w; timer := timer w; started := started w |})
        as [Hinv' Hfifo]; auto.
      split; auto. rewrite Hfifo. simpl. now rewrite app_assoc.
  - split; [|now rewrite app_nil_r].
    constructor; simpl; auto.
    eapply stamps_ok_later; [|exact Hok]. lia.
  - rewrite app_nil_r.
    destruct (timer w) as [due|]; [|now split].
    destruct (due <=? clock w)%Z; [|now split].
    now apply resume_inv.
  - split; [|now rewrite app_nil_r].
    constructor; simpl; auto. now apply stamps_ok_prune.
Qed.

Lemma run_inv M events : forall w,
  inv M w ->
  inv M (run w events) /\
  map fst (started (run w events)) ++ queue (limiter (run w events)) =
  (map fst (started w) ++ queue (limiter w)) ++ submitted events.
Proof.
  induction events as [|e events IH]; intros w Hinv; simpl.
  - split; auto. now rewrite app_nil_r.
  - destruct (step_inv M w e Hinv) as [Hinv' Hfifo].
    destruct (IH _ Hinv') as [Hinv'' Hfifo'].
    split; auto. rewrite Hfifo', Hfifo. unfold submitted. simpl.
    now rewrite <- !app_assoc.
Qed.

End Runs.

End LimiterFacts.

(* ================================================================= *)
(** ** The state merge *)

Module MakerFacts.
Import JS Utils JSON Consensus Maker Steps JSFacts CanonicalFacts.

Section Spread.
Context {V : Type}.
Implicit Types (o target source : object V).

Definition assign (acc : object V) (p : string * V) : object V :=
  set acc (fst p) (snd p).

Lemma get_assign_all entries : forall target k,
  NoDup (keys_of entries) ->
  get (fold_left assign entries target) k =
  match get entries k with
  | Some v => Some v
  | None => get target k
  end.
Proof.
  induction entries as [|[k' v'] entries IH]; intros target k Hnd; simpl; auto.
  inversion Hnd as [|? ? Hnotin Hnd']; subst.
  rewrite IH by assumption. unfold assign. simpl.
  destruct (k' =? k)%string eqn:E.
  - apply String.eqb_eq in E. subst k'.
    apply get_None_notin in Hnotin. rewrite Hnotin. apply get_set_same.
  - apply String.eqb_neq in E. destruct (get entries k); auto.
    now apply get_set_other.
Qed.

Lemma get_assign_none entries : forall target k,
  get entries k = None ->
  get (fold_left assign entries target) k = get target k.
Proof.
  induction entries as [|[k' v'] entries IH]; intros target k Hnone; simpl in *; auto.
  destruct (k' =? k)%string eqn:E; [discriminate|].
  apply String.eqb_neq in E. rewrite IH by assumption. now apply get_set_other.
Qed.

Lemma NoDup_assign_all entries : forall target,
  NoDup (keys_of target) -> NoDup (keys_of (fold_left assign entries target)).
Proof.
  induction entries as [|p entries IH]; intros target Hnd; simpl; auto.
  apply IH. now apply NoDup_set.
Qed.

Lemma get_entries_none source k :
  get source k = None -> get (Object_entries source) k = None.
Proof.
  intros H. apply get_None_notin. apply get_None_notin in H.
  intros Hin. apply H. eapply Permutation_in; [|exact Hin].
  unfold keys_of. apply Permutation_map, Object_entries_perm.
Qed.

Lemma get_spread target source k :
  NoDup (keys_of source) ->
  get (spread target source) k =
  match get source k with
  | Some v => Some v
  | None => get target k
  end.
Proof.
  intros Hnd.
  assert (Hnd' : NoDup (keys_of (Object_entries source))).
  { eapply Permutation_NoDup; [|exact Hnd].
    unfold keys_of. apply Permutation_map, Permutation_sym, Object_entries_perm. }
  unfold spread. fold assign. rewrite get_assign_all by assumption.
  now rewrite (get_perm (Object_entries source) source k Hnd' (Object_entries_perm source)).
Qed.

Lemma get_spread_none target source k :
  get source k = None -> get (spread target source) k = get target k.
Proof.
  intros H. unfold spread. fold assign. apply get_assign_none.
  now apply get_entries_none.
Qed.

Lemma NoDup_spread target source :
  NoDup (keys_of target) -> NoDup (keys_of (spread target source)).
Proof. apply NoDup_assign_all. Qed.

Lemma get_copy source k :
  NoDup (keys_of source) -> get (spread [] source) k = get source k.
Proof.
  intros Hnd. rewrite get_spread by assumption. now destruct (get source k).
Qed.
End Spread.

(** *** The history buffer *)

Lemma slice_last5_short l : List.length l <= 5 -> slice_last5 l = l.
Proof.
  intros H. unfold slice_last5. now replace (List.length l - 5) with 0 by lia.
Qed.

Lemma slice_last5_length l : List.length (slice_last5 l) <= 5.
Proof. unfold slice_last5. rewrite length_skipn. lia. Qed.

Lemma slice_last5_app l v : slice_last5 (slice_last5 l ++ [v]) = slice_last5 (l ++ [v]).
Proof.
  unfold slice_last5. rewrite !length_app, length_skipn. simpl.
  destruct (le_lt_dec (List.length l) 5) as [Hle|Hgt].
  - replace (List.length l - 5) with 0 by lia. simpl. now rewrite Nat.sub_0_r.
  - replace (List.length l - (List.length l - 5) + 1 - 5) with 1 by lia.
    replace (List.length l + 1 - 5) with (1 + (List.length l - 5)) by lia.
    rewrite <- skipn_skipn. f_equal.
    rewrite skipn_app.
    replace (List.length l - 5 - List.length l) with 0 by lia. reflexivity.
Qed.

(** A state the loop can hold: its keys are distinct and [history] is an
    array. *)
Definition state_ok (st : state) (history : list jsval) : Prop :=
  NoDup (keys_of st) /\ get st "history" = Some (VArr history).

Lemma initial_state_ok prompt : state_ok (initial_state prompt) [].
Proof.
  split; [|reflexivity]. simpl. repeat constructor; simpl; intuition discriminate.
Qed.

Lemma merge_history st value history :
  get st "history" = Some (VArr history) ->
  exists st',
    merge st value = Return st' /\
    get st' "history" = Some (VArr (slice_last5 (history ++ [value]))) /\
    NoDup (keys_of st').
Proof.
  intros Hh. unfold merge. rewrite Hh. simpl.
  destruct value; eexists; (split; [reflexivity|]);
    (split; [apply get_set_same|]);
    repeat (apply NoDup_set || apply NoDup_spread); constructor.
Qed.

Lemma merge_keeps st value history k v :
  state_ok st history -> k <> "history" ->
  match value with
  | VObj props => get props k = None
  | _ => k <> "current_value"
  end ->
  get st k = Some v ->
  forall st', merge st value = Return st' -> get st' k = Some v.
Proof.
  intros [Hnd Hh] Hk Hval Hget st'. unfold merge. rewrite Hh. simpl.
  destruct value; intros [= <-];
    rewrite get_set_other by congruence;
    try (rewrite get_set_other by congruence; now rewrite get_copy).
  rewrite get_spread_none by assumption. now rewrite get_copy.
Qed.

Lemma merge_overwrites st props history k v :
  get st "history" = Some (VArr history) ->
  NoDup (keys_of props) -> k <> "history" -> get props k = Some v ->
  forall st', merge st (VObj props) = Return st' -> get st' k = Some v.
Proof.
  intros Hh Hnd Hk Hget st'. unfold merge. rewrite Hh. simpl. intros [= <-].
  rewrite get_set_other by congruence.
  rewrite get_spread by assumption. now rewrite Hget.
Qed.

Lemma merge_all_app st : forall values v st',
  merge_all st values = Return st' ->
  merge_all st (values ++ [v]) = merge st' v.
Proof.
  intros values. revert st.
  induction values as [|x values IH]; intros st v st' H; simpl in *.
  - injection H as <-. now destruct (merge st v).
  - destruct (merge st x); try discriminate. now apply IH.
Qed.

(** What the state holds after any number of merges. *)
Lemma merge_all_spec prompt values :
  exists st,
    merge_all (initial_state prompt) values = Return st /\
    state_ok st (slice_last5 values) /\
    (forallb (fun v => negb (names_original_task v)) values = true ->
     get st "original_task" = Some (VStr prompt)).
Proof.
  induction values as [|v values IH] using rev_ind.
  - exists (initial_state prompt). split; [reflexivity|]. split; [|reflexivity].
    apply initial_state_ok.
  - destruct IH as (st & Hst & [Hnd Hh] & Htask).
    destruct (merge_history st v _ Hh) as (st' & Hm & Hh' & Hnd').
    exists st'. split; [|split; [split|]]; auto.
    + now rewrite (merge_all_app _ _ _ _ Hst).
    + now rewrite <- slice_last5_app.
    + rewrite forallb_app. simpl. rewrite andb_true_r.
      intros Hall. apply andb_true_iff in Hall. destruct Hall as [Hall Hv].
      apply (merge_keeps st v (slice_last5 values) "original_task" (VStr prompt));
        auto.
      * now split.
      * discriminate.
      * unfold names_original_task in Hv.
        destruct v; try discriminate.
        destruct (get props "original_task"); [discriminate|reflexivity].
Qed.

End MakerFacts.

(* ================================================================= *)
(** ** The engine as a whole *)

Module ResolveFacts.
Import JS Utils JSON Consensus Ballots Steps.
Import JSFacts TallyFacts EngineFacts StreamFacts.

Section Resolve.
Variable cfg : CONFIG.
Variable w : nat -> option jsval.
Let K := VOTE_MARGIN_K cfg.
Let MAX := MAX_ATTEMPTS_PER_STEP cfg.

(** Checking ballot by ballot, the engine is the sequential loop. *)
Lemma ballot_by_ballot_sequential fuel :
  ballot_by_ballot cfg -> MAX <= fuel ->
  getConsensusResult cfg w fuel = getConsensusResultSequential cfg w fuel.
Proof.
  intros Hb Hfuel. unfold getConsensusResult.
  destruct (ENABLE_PARALLEL cfg) eqn:Hp; auto.
  destruct Hb as [Hb|[He Hbatch]]; [congruence|].
  unfold getConsensusResultParallel, getConsensusResultSequential.
  rewrite parallel_early_sequential by (auto; fold MAX; lia).
  symmetry. apply sequential_fuel. fold MAX. lia.
Qed.

Lemma resolve_margin_rule fuel :
  ballot_by_ballot cfg -> MAX <= fuel ->
  MarginRule.holds cfg w (getConsensusResult cfg w fuel).
Proof.
  intros Hb Hfuel. rewrite ballot_by_ballot_sequential by assumption.
  now apply sequential_margin_rule.
Qed.

(** Nobody ahead within the ceiling: the engine uses it up and throws. *)
Lemma resolve_unresolved fuel :
  ballot_by_ballot cfg -> MAX <= fuel ->
  (forall n k, n <= MAX -> ~ ahead_by K (counted w n) k) ->
  getConsensusResult cfg w fuel = (events w 0 MAX, Throw (unresolved cfg)).
Proof.
  intros Hb Hfuel Hnone.
  destruct (resolve_margin_rule fuel Hb Hfuel) as [(n & k & Hn & [Hah _] & _) | [_ H]];
    auto.
  exfalso. eapply Hnone; eauto.
Qed.

(** Somebody first ahead within the ceiling: the engine returns for it. *)
Lemma resolve_decided fuel n k :
  ballot_by_ballot cfg -> MAX <= fuel ->
  n <= MAX -> first_reach K w n k ->
  getConsensusResult cfg w fuel =
  (events w 0 n, declare (k, cnt (counted w n) k) (lead (counted w n) k) n).
Proof.
  intros Hb Hfuel Hn Hfr.
  destruct (resolve_margin_rule fuel Hb Hfuel) as [(n' & k' & Hn' & Hfr' & ->) | [Hnone _]].
  - destruct (first_reach_unique _ _ _ _ _ _ Hfr Hfr') as [<- <-]. reflexivity.
  - exfalso. destruct Hfr as [Hah _]. eapply Hnone; eauto.
Qed.

(** A returned outcome names a candidate that was first ahead. *)
Lemma resolve_returned fuel log r :
  ballot_by_ballot cfg -> MAX <= fuel ->
  getConsensusResult cfg w fuel = (log, Return r) ->
  exists n k,
    n <= MAX /\ first_reach K w n k /\ log = events w 0 n /\
    JSON_parse k = Some (value r) /\
    voteMargin (metadata r) = lead (counted w n) k /\
    attempts (metadata r) = n /\ totalVotes (metadata r) = n.
Proof.
  intros Hb Hfuel Hrun.
  destruct (resolve_margin_rule fuel Hb Hfuel) as [(n & k & Hn & Hfr & Heq) | [_ Heq]];
    rewrite Hrun in Heq; [|discriminate].
  injection Heq as -> Hd. exists n, k. unfold declare in Hd. simpl in Hd.
  destruct (JSON_parse k) as [v|]; [|discriminate].
  injection Hd as ->. simpl.
  split; [exact Hn|]. split; [exact Hfr|]. repeat split; reflexivity.
Qed.
End Resolve.

(** *** Two candidates that stay within one vote of each other *)

Lemma runner_up_ge_any ks k k' : k' <> k -> (cnt ks k' <= runner_up ks k)%Z.
Proof.
  intros Hne. destruct (in_dec string_dec k' ks) as [Hin|Hnin].
  - now apply runner_up_ge.
  - pose proof (runner_up_nonneg ks k).
    assert (cnt ks k' = 0%Z); [|lia].
    unfold cnt. apply (count_occ_not_In string_dec) in Hnin. now rewrite Hnin.
Qed.

Lemma race_tied_nobody_ahead K a b ks k :
  (2 <= K)%Z -> a <> b -> race_tied a b ks = true -> ~ ahead_by K ks k.
Proof.
  intros HK Hab Hrace [Hin Hlead]. unfold race_tied in Hrace.
  apply andb_true_iff in Hrace. destruct Hrace as [Hdiff Hall].
  apply Z.leb_le in Hdiff. rewrite forallb_forall in Hall.
  specialize (Hall k Hin). apply Z.leb_le in Hall. unfold lead in Hlead.
  destruct (string_dec k a) as [->|Hka].
  - pose proof (runner_up_ge_any ks a b (not_eq_sym Hab)). lia.
  - destruct (string_dec k b) as [->|Hkb].
    + pose proof (runner_up_ge_any ks b a Hab). lia.
    + pose proof (runner_up_ge_any ks k a (not_eq_sym Hka)).
      pose proof (runner_up_ge_any ks k b (not_eq_sym Hkb)).
      apply cnt_pos_in in Hin. lia.
Qed.

(** Two leaders with the same count leave nobody ahead by 1 or more. *)
Lemma tie_nobody_ahead K ks k1 k2 k :
  (1 <= K)%Z -> k1 <> k2 -> cnt ks k1 = cnt ks k2 ->
  (forall k', (cnt ks k' <= cnt ks k1)%Z) -> ~ ahead_by K ks k.
Proof.
  intros HK Hne Htie Hmax [Hin Hlead]. unfold lead in Hlead.
  specialize (Hmax k).
  destruct (string_dec k k1) as [->|Hk1].
  - pose proof (runner_up_ge_any ks k1 k2 (not_eq_sym Hne)). lia.
  - pose proof (runner_up_ge_any ks k k1 (not_eq_sym Hk1)). lia.
Qed.

(** *** The ballot that decides *)




(** *** Flagged results put in between *)

Lemma first_reach_within l K n k :
  first_reach K (ballots l) n k -> exists rest, ckeys l = counted (ballots l) n ++ rest.
Proof.
  intros _. rewrite counted_ballots.
  exists (ckeys (skipn n l)). rewrite <- ckeys_app. now rewrite firstn_skipn.
Qed.

Lemma accepted_events w : forall n, accepted (events w 0 n) = List.length (counted w n).
Proof.
  induction n as [|n IH]; [reflexivity|].
  rewrite (events_app w 0 n (S n)) by lia.
  unfold accepted in *. rewrite filter_app, length_app, IH.
  rewrite counted_S, length_app. f_equal.
  rewrite (events_step w n (S n)) by lia. rewrite events_nil.
  destruct (w n); reflexivity.
Qed.

(** With flagged results put in between, no position has counted more. *)
Lemma interleaved_no_sooner l l' :
  interleaved l l' ->
  forall n, List.length (ckeys (firstn n l')) <= List.length (ckeys (firstn n l)).
Proof.
  induction 1 as [|b l l' _ IH|l l' _ IH]; intros n.
  - now rewrite !firstn_nil.
  - destruct n as [|n]; simpl; [lia|].
    change (ckeys (b :: firstn n l')) with (key_of b ++ ckeys (firstn n l')).
    change (ckeys (b :: firstn n l)) with (key_of b ++ ckeys (firstn n l)).
    rewrite !length_app. specialize (IH n). lia.
  - destruct n as [|n]; [simpl; lia|].
    change (firstn (S n) (None :: l')) with (None :: firstn n l').
    change (ckeys (None :: firstn n l')) with (ckeys (firstn n l')).
    specialize (IH n).
    rewrite <- !counted_ballots in *.
    pose proof (counted_length_mono (ballots l) n (S n) ltac:(lia)). lia.
Qed.

Lemma interleaved_first_reach K l l' n k :
  interleaved l l' -> first_reach K (ballots l) n k ->
  exists n', n <= n' /\ n' <= List.length l' /\ first_reach K (ballots l') n' k /\
             counted (ballots l') n' = counted (ballots l) n.
Proof.
  intros Hil Hfr.
  destruct (first_reach_within l K n k Hfr) as [rest Hrest].
  destruct (first_reach_transfer K (ballots l) (ballots l') n k (List.length l'))
    as (n' & Hn' & Hfr' & Heq); auto.
  { exists rest. rewrite counted_ballots_all by lia.
    now rewrite <- (interleaved_ckeys l l' Hil). }
  exists n'. repeat split; auto; try apply Hfr'.
  destruct (le_lt_dec n n') as [|Hlt]; auto. exfalso.
  pose proof (interleaved_no_sooner l l' Hil n') as Hle.
  rewrite <- !counted_ballots in Hle. rewrite Heq in Hle.
  pose proof (counted_length_mono (ballots l) n' n ltac:(lia)) as Hmono.
  destruct Hfr as [Hah Hfirst]. apply (Hfirst n' k Hlt).
  replace (counted (ballots l) n') with (counted (ballots l) n); auto.
  rewrite (counted_prefix (ballots l) n' n ltac:(lia)).
  replace (List.length (counted (ballots l) n')) with (List.length (counted (ballots l) n))
    by lia.
  now rewrite firstn_all.
Qed.

End ResolveFacts.

(* ================================================================= *)
(** ** The step loop *)

Module StepFacts.
Import JS Utils JSON Consensus Ballots Maker Steps.
Import JSFacts MakerFacts.

Section Execute.
Variable cfg : CONFIG.
Variable runMicroAgent : state -> string -> nat -> option jsval.

(** A step on which the engine throws ends the run there. *)
Lemma execute_throw high total step rest i st log error :
  getConsensusResult cfg (runMicroAgent st step) (MAX_ATTEMPTS_PER_STEP cfg)
    = (log, Throw error) ->
  execute cfg runMicroAgent high total (step :: rest) i st =
  (pit_stop high i ++ [spinner_start (step_label i total step)]
     ++ map (on_vote i total step) log
     ++ report_failure cfg i step st error,
   Exited 1 st).
Proof.
  intros H. simpl. rewrite H. now rewrite <- app_assoc.
Qed.

(** The state a run ends with is the initial one with winning values
    merged into it, one for each step that succeeded. *)
Lemma execute_states high total steps : forall i st0 out e,
  execute cfg runMicroAgent high total steps i st0 = (out, e) ->
  match e with
  | Finished st =>
      exists values, List.length values = List.length steps /\
                     merge_all st0 values = Return st
  | Exited code st =>
      code = 1 /\
      exists values, List.length values < List.length steps /\
                     merge_all st0 values = Return st
  | Hangs => True
  end.
Proof.
  induction steps as [|step rest IH]; intros i st0 out e; simpl.
  - intros [= <- <-]. exists []. split; reflexivity.
  - destruct (getConsensusResult cfg (runMicroAgent st0 step) _) as [votes outcome].
    destruct outcome as [result|error|].
    + destruct (merge st0 (value result)) as [st'|error|] eqn:Hm.
      * destruct (execute cfg runMicroAgent high total rest (S i) st') as [out' e'] eqn:He.
        intros [= <- <-]. specialize (IH _ _ _ _ He).
        destruct e' as [st|code st|]; auto.
        -- destruct IH as (values & Hlen & Hall).
           exists (value result :: values). simpl. rewrite Hm. split; auto.
        -- destruct IH as (Hcode & values & Hlen & Hall). split; auto.
           exists (value result :: values). simpl. rewrite Hm. split; auto. lia.
      * intros [= <- <-]. split; auto. exists []. split; simpl; auto. lia.
      * intros [= <- <-]. exact I.
    + intros [= <- <-]. split; auto. exists []. split; simpl; auto. lia.
    + intros [= <- <-]. exact I.
Qed.
End Execute.

End StepFacts.
(* ================================================================= *)
(** ** The standard batch mode, and what all modes share *)

Module ModeFacts.
Import JS Utils JSON Consensus Ballots Steps.
Import JSFacts TallyFacts EngineFacts StreamFacts ResolveFacts.

Lemma tally_ok_empty votes : tally_ok votes [] -> votes = [].
Proof.
  intros [_ H]. destruct votes as [|[k c] votes]; auto.
  specialize (H k). simpl in H. now rewrite String.eqb_refl in H.
Qed.

Lemma cnt_le_length ks k : (cnt ks k <= Z.of_nat (List.length ks))%Z.
Proof.
  unfold cnt. apply inj_le.
  induction ks as [|x ks IH]; simpl; auto.
  destruct (string_dec x k); lia.
Qed.

Lemma lead_le_length ks k : (lead ks k <= Z.of_nat (List.length ks))%Z.
Proof.
  unfold lead. pose proof (runner_up_nonneg ks k). pose proof (cnt_le_length ks k). lia.
Qed.

Lemma counted_le w n : List.length (counted w n) <= n.
Proof.
  induction n as [|n IH]; simpl; auto.
  rewrite length_app. destruct (w n); simpl; lia.
Qed.

Lemma counted_in w n k :
  In k (counted w n) ->
  exists j b, j < n /\ w j = Some b /\ canonicalStringify b = k.
Proof.
  induction n as [|n IH]; simpl; [intros []|].
  intros Hin. apply in_app_or in Hin. destruct Hin as [Hin|Hin].
  - destruct (IH Hin) as (j & b & Hj & Hw & Hk). exists j, b. auto.
  - destruct (w n) as [b|] eqn:Hw; simpl in Hin; [|contradiction].
    destruct Hin as [<-|[]]. exists n, b. auto.
Qed.

Lemma ahead_by_pos K w n k : ahead_by K (counted w n) k -> 0 < n.
Proof. intros [Hin _]. destruct n; [destruct Hin|lia]. Qed.

Section Modes.
Variable cfg : CONFIG.
Variable w : nat -> option jsval.
Let K := VOTE_MARGIN_K cfg.
Let MAX := MAX_ATTEMPTS_PER_STEP cfg.
Let B := BATCH_SIZE cfg.

(** The check on any tally the loops can hold, the empty one included. *)
Lemma decide_any votes ks n :
  tally_ok votes ks ->
  (exists k, ahead_by K ks k /\
             decide cfg votes n = Some (declare (k, cnt ks k) (lead ks k) n))
  \/ ((forall k, ~ ahead_by K ks k) /\ decide cfg votes n = None).
Proof.
  intros Hok. destruct ks as [|k0 ks].
  - right. split; [intros k [[] _]|].
    now rewrite (tally_ok_empty _ Hok).
  - apply decide_spec; auto. discriminate.
Qed.

(** The tally loop of the standard batch mode. *)
Lemma tally_batch_spec b : forall a votes,
  tally_ok votes (counted w a) ->
  exists votes',
    tally_batch (map w (seq a b)) votes = (events w a (a + b), votes') /\
    tally_ok votes' (counted w (a + b)).
Proof.
  induction b as [|b IH]; intros a votes Hok; simpl.
  - exists votes. rewrite Nat.add_0_r, events_nil. auto.
  - rewrite (events_step w a (a + S b)) by lia.
    replace (a + S b) with (S a + b) by lia.
    destruct (w a) as [result|] eqn:Hw.
    + destruct (IH (S a) (cast_vote votes (canonicalStringify result)))
        as (votes' & -> & Hok').
      { rewrite (counted_valid _ _ _ Hw). now apply cast_vote_ok. }
      exists votes'. auto.
    + destruct (IH (S a) votes) as (votes' & -> & Hok').
      { now rewrite (counted_flagged _ _ Hw). }
      exists votes'. auto.
Qed.

(** The attempt counts at which the standard batch mode checks the margin. *)
Definition batch_end (n : nat) : Prop := Nat.divide B n \/ n = MAX.

Lemma next_batch_end a :
  1 <= B -> a < MAX -> Nat.divide B a ->
  batch_end (a + Nat.min B (MAX - a)) /\
  forall j, a < j < a + Nat.min B (MAX - a) -> ~ batch_end j.
Proof.
  intros HB Ha [q Hq]. split.
  - destruct (Nat.le_gt_cases B (MAX - a)) as [Hle|Hgt].
    + left. exists (S q). rewrite Nat.min_l by assumption. simpl. lia.
    + right. rewrite Nat.min_r by lia. lia.
  - intros j Hj [[q' Hq']|Hm]; [|lia].
    assert (Hlt : q * B < q' * B < (S q) * B) by (simpl; lia).
    destruct Hlt as [H1 H2].
    apply Nat.mul_lt_mono_pos_r in H1; [|lia].
    apply Nat.mul_lt_mono_pos_r in H2; lia.
Qed.

(** The standard batch mode from the start of any batch. *)
Lemma exhaustive_from fuel : forall a votes,
  EARLY_TERMINATION cfg = false -> 1 <= B ->
  tally_ok votes (counted w a) ->
  MAX - a <= fuel -> a <= MAX -> batch_end a ->
  (exists n k,
      a < n /\ n <= MAX /\ batch_end n /\ ahead_by K (counted w n) k /\
      (forall j k', a < j < n -> batch_end j -> ~ ahead_by K (counted w j) k') /\
      parallel_loop cfg w fuel votes a =
      (events w a n, declare (k, cnt (counted w n) k) (lead (counted w n) k) n))
  \/
  ((forall j k', a < j <= MAX -> batch_end j -> ~ ahead_by K (counted w j) k') /\
   parallel_loop cfg w fuel votes a = (events w a MAX, Throw (unresolved cfg))).
Proof.
  induction fuel as [|fuel IH]; intros a votes He HB Hok Hfuel Ha Hend.
  - right. assert (a = MAX) by lia. subst a. split; [intros; lia|].
    simpl. fold MAX. now rewrite Nat.ltb_irrefl, events_nil.
  - simpl. fold MAX. destruct (a <? MAX)%nat eqn:Hlt.
    2:{ apply Nat.ltb_ge in Hlt. assert (a = MAX) by lia. subst a.
        right. split; [intros; lia|]. now rewrite events_nil. }
    apply Nat.ltb_lt in Hlt. rewrite He. fold B.
    assert (Hdiv : Nat.divide B a) by (destruct Hend; [assumption|lia]).
    destruct (next_batch_end a HB Hlt Hdiv) as [Hnext Hbetween].
    set (b := Nat.min B (MAX - a)) in *.
    assert (Hb : 1 <= b <= MAX - a) by (unfold b; lia).
    destruct (tally_batch_spec b a votes Hok) as (votes' & -> & Hok').
    destruct (decide_any votes' _ (a + b) Hok') as [(k & Hk & ->) | (Hno & ->)].
    + left. exists (a + b), k. split; [lia|]. split; [lia|]. split; [exact Hnext|].
      split; [exact Hk|]. split; [|reflexivity].
      intros j k' Hj Hje. now destruct (Hbetween j Hj).
    + destruct (IH (a + b) votes' He HB Hok')
        as [(n & k & Hn1 & Hn2 & Hne & Hk & Hfirst & ->) | (Hall & ->)];
        try lia; auto.
      * left. exists n, k. split; [lia|]. split; [lia|]. split; [exact Hne|].
        split; [exact Hk|]. split.
        -- intros j k' Hj Hje.
           destruct (Nat.lt_trichotomy j (a + b)) as [Hl|[->|Hg]].
           ++ destruct (Hbetween j); auto. lia.
           ++ apply Hno.
           ++ apply Hfirst; auto. lia.
        -- unfold after. simpl. now rewrite <- events_app by lia.
      * right. split.
        -- intros j k' Hj Hje.
           destruct (Nat.lt_trichotomy j (a + b)) as [Hl|[->|Hg]].
           ++ destruct (Hbetween j); auto. lia.
           ++ apply Hno.
           ++ apply Hall; auto. lia.
        -- unfold after. simpl. now rewrite <- events_app by lia.
Qed.

(** Every mode: a run decides for a candidate that is ahead by K after the
    results it consumed, or uses the ceiling up and throws. *)
Lemma engine_run fuel :
  (ENABLE_PARALLEL cfg = true -> 1 <= B) -> MAX <= fuel ->
  (exists n k,
      0 < n /\ n <= MAX /\ ahead_by K (counted w n) k /\
      getConsensusResult cfg w fuel =
      (events w 0 n, declare (k, cnt (counted w n) k) (lead (counted w n) k) n))
  \/
  getConsensusResult cfg w fuel = (events w 0 MAX, Throw (unresolved cfg)).
Proof.
  intros HB Hfuel.
  destruct (ENABLE_PARALLEL cfg) eqn:Hp.
  - specialize (HB eq_refl). destruct (EARLY_TERMINATION cfg) eqn:He.
    + assert (Hb : ballot_by_ballot cfg) by (right; auto).
      destruct (resolve_margin_rule cfg w fuel Hb Hfuel)
        as [(n & k & Hn & [Hah _] & ->) | [_ ->]]; auto.
      left. exists n, k. split; [eapply ahead_by_pos; eauto|]. auto.
    + unfold getConsensusResult, getConsensusResultParallel. rewrite Hp.
      destruct (exhaustive_from fuel 0 [] He HB)
        as [(n & k & Hn1 & Hn2 & _ & Hk & _ & ->) | (_ & ->)]; auto; try (fold MAX; lia).
      * apply tally_ok_nil.
      * left. exists 0. now rewrite Nat.mul_0_l.
      * left. exists n, k. auto.
  - assert (Hb : ballot_by_ballot cfg) by (left; auto).
    destruct (resolve_margin_rule cfg w fuel Hb Hfuel)
      as [(n & k & Hn & [Hah _] & ->) | [_ ->]]; auto.
    left. exists n, k. split; [eapply ahead_by_pos; eauto|]. auto.
Qed.

End Modes.

(** *** Workers with the same canonical keys *)

Section SameKeys.
Variable cfg : CONFIG.
Variables w w' : nat -> option jsval.
Hypothesis same_keys :
  forall n, option_map canonicalStringify (w n) = option_map canonicalStringify (w' n).

Lemma same_keys_at n :
  match w n, w' n with
  | Some a, Some b => canonicalStringify a = canonicalStringify b
  | None, None => True
  | _, _ => False
  end.
Proof.
  specialize (same_keys n). destruct (w n), (w' n); simpl in *; auto; congruence.
Qed.

Lemma sequential_same_keys fuel : forall votes a,
  sequential_loop cfg w fuel votes a = sequential_loop cfg w' fuel votes a.
Proof.
  induction fuel as [|fuel IH]; intros votes a; simpl; auto.
  destruct (a <? MAX_ATTEMPTS_PER_STEP cfg)%nat; auto.
  pose proof (same_keys_at a) as H.
  destruct (w a) as [x|], (w' a) as [y|]; try contradiction.
  - rewrite H. destruct (decide cfg _ (S a)); auto. now rewrite IH.
  - now rewrite IH.
Qed.

Lemma early_batch_same_keys b : forall votes a,
  early_batch cfg (map w (seq a b)) votes a = early_batch cfg (map w' (seq a b)) votes a.
Proof.
  induction b as [|b IH]; intros votes a; simpl; auto.
  pose proof (same_keys_at a) as H.
  destruct (w a) as [x|], (w' a) as [y|]; try contradiction.
  - rewrite H. destruct (decide cfg _ (S a)); auto. now rewrite IH.
  - now rewrite IH.
Qed.

Lemma tally_batch_same_keys b : forall votes a,
  tally_batch (map w (seq a b)) votes = tally_batch (map w' (seq a b)) votes.
Proof.
  induction b as [|b IH]; intros votes a; simpl; auto.
  pose proof (same_keys_at a) as H.
  destruct (w a) as [x|], (w' a) as [y|]; try contradiction.
  - rewrite H. now rewrite IH.
  - now rewrite IH.
Qed.

Lemma parallel_same_keys fuel : forall votes a,
  parallel_loop cfg w fuel votes a = parallel_loop cfg w' fuel votes a.
Proof.
  induction fuel as [|fuel IH]; intros votes a; simpl; auto.
  destruct (a <? MAX_ATTEMPTS_PER_STEP cfg)%nat; auto.
  rewrite early_batch_same_keys, tally_batch_same_keys.
  destruct (EARLY_TERMINATION cfg).
  - destruct (early_batch cfg _ votes a) as [log [c|[votes' a']]]; auto.
    now rewrite IH.
  - destruct (tally_batch _ votes) as [log votes'].
    destruct (decide cfg votes' _); auto. now rewrite IH.
Qed.

Lemma resolve_same_keys fuel :
  getConsensusResult cfg w fuel = getConsensusResult cfg w' fuel.
Proof.
  unfold getConsensusResult, getConsensusResultParallel, getConsensusResultSequential.
  destruct (ENABLE_PARALLEL cfg).
  - apply parallel_same_keys.
  - apply sequential_same_keys.
Qed.

End SameKeys.

End ModeFacts.
(* ================================================================= *)
(** ** The admission controller: queries, idle admission, the timer *)

Module QueueFacts.
Import RateLimiter LimiterFacts.

Lemma prune_app now l l' : prune now (l ++ l') = prune now l ++ prune now l'.
Proof. apply filter_app. Qed.

Lemma prune_idem now l : prune now (prune now l) = prune now l.
Proof.
  unfold prune. induction l as [|t l IH]; simpl; auto.
  destruct (now - t <? 60000)%Z eqn:E; simpl; [rewrite E|]; now rewrite ?IH.
Qed.

Lemma prune_later now now' l :
  (now <= now')%Z -> prune now' (prune now l) = prune now' l.
Proof.
  intros Hle. unfold prune. induction l as [|t l IH]; simpl; auto.
  destruct (now - t <? 60000)%Z eqn:E; simpl.
  - now rewrite IH.
  - rewrite IH. replace (now' - t <? 60000)%Z with false; auto.
    symmetry. apply Z.ltb_ge. apply Z.ltb_ge in E. lia.
Qed.

Lemma prune_now now : prune now [now] = [now].
Proof. unfold prune. simpl. now rewrite Z.sub_diag. Qed.

Lemma prune_length now l : List.length (prune now l) <= List.length l.
Proof. apply filter_length_le. Qed.

Lemma prune_past now l :
  Forall (fun t => t <= now)%Z l -> Forall (fun t => t <= now)%Z (prune now l).
Proof.
  intros H. apply Forall_forall. intros t Ht. apply filter_In in Ht.
  rewrite Forall_forall in H. now apply H.
Qed.

Lemma filter_length_impl {A} (f g : A -> bool) (l : list A) :
  (forall x, f x = true -> g x = true) ->
  List.length (filter f l) <= List.length (filter g l).
Proof.
  intros Himp. induction l as [|x l IH]; simpl; auto.
  destruct (f x) eqn:Hf.
  - rewrite (Himp x Hf). simpl. lia.
  - destruct (g x); simpl; lia.
Qed.

Section Queue.
Context {T : Type}.
Implicit Types (w : world T) (e : event T).

(** *** A query changes nothing that matters *)

(** Two states of the program that differ at most in timestamps that have
    left the window. *)
Definition same_but_stale w1 w2 : Prop :=
  maxRpm (limiter w1) = maxRpm (limiter w2) /\
  queue (limiter w1) = queue (limiter w2) /\
  processing (limiter w1) = processing (limiter w2) /\
  clock w1 = clock w2 /\
  timer w1 = timer w2 /\
  started w1 = started w2 /\
  prune (clock w1) (requestTimestamps (limiter w1))
  = prune (clock w1) (requestTimestamps (limiter w2)).

Lemma while_queue_stale M now task q R1 R2 :
  prune now R1 = prune now R2 ->
  while_queue T M now (task :: q) R1 = while_queue T M now (task :: q) R2.
Proof. intros H. simpl. now rewrite H. Qed.

Lemma resume_stale w1 w2 : same_but_stale w1 w2 -> same_but_stale (resume T w1) (resume T w2).
Proof.
  intros (HM & Hq & Hp & Hc & Ht & Hs & HR). unfold resume.
  rewrite <- HM, <- Hq, <- Hc, <- Hs.
  destruct (queue (limiter w1)) as [|task q].
  - simpl. repeat split; auto.
  - rewrite (while_queue_stale _ _ task q _ _ HR). repeat split; auto.
Qed.

Lemma step_stale w1 w2 e : same_but_stale w1 w2 -> same_but_stale (step w1 e) (step w2 e).
Proof.
  intros Hsame. pose proof Hsame as (HM & Hq & Hp & Hc & Ht & Hs & HR).
  destruct e as [task|ms| |]; simpl.
  - unfold throttle, processQueue. simpl. rewrite <- Hp.
    destruct (processing (limiter w1)) eqn:Hp1.
    + repeat split; simpl; auto. now rewrite Hq.
    + apply resume_stale. repeat split; simpl; auto. now rewrite Hq.
  - repeat split; simpl; auto; [now rewrite Hc|].
    rewrite <- (prune_later (clock w1) _ (requestTimestamps (limiter w1))) by lia.
    rewrite <- (prune_later (clock w1) _ (requestTimestamps (limiter w2))) by lia.
    now rewrite HR.
  - rewrite <- Ht, <- Hc. destruct (timer w1) as [due|]; auto.
    destruct (due <=? clock w1)%Z; auto. now apply resume_stale.
  - repeat split; simpl; auto. rewrite <- Hc, HR. reflexivity.
Qed.

Lemma run_stale events : forall w1 w2,
  same_but_stale w1 w2 -> same_but_stale (run w1 events) (run w2 events).
Proof.
  induction events as [|e events IH]; intros w1 w2 H; simpl; auto.
  apply IH. now apply step_stale.
Qed.

Lemma query_stale w : same_but_stale (snd (getAvailableRequests T w)) w.
Proof. repeat split; simpl; auto. apply prune_idem. Qed.

Lemma stale_available w1 w2 :
  same_but_stale w1 w2 ->
  fst (getAvailableRequests T w1) = fst (getAvailableRequests T w2).
Proof.
  intros (HM & _ & _ & Hc & _ & _ & HR). simpl. now rewrite <- HM, <- Hc, HR.
Qed.

(** *** Submissions to an idle limiter with room *)

Lemma throttle_idle task w :
  processing (limiter w) = false -> queue (limiter w) = [] ->
  (Z.of_nat (List.length (prune (clock w) (requestTimestamps (limiter w))))
   < maxRpm (limiter w))%Z ->
  throttle task w =
  {| limiter := {| maxRpm := maxRpm (limiter w); queue := []; processing := false;
                   requestTimestamps :=
                     prune (clock w) (requestTimestamps (limiter w)) ++ [clock w] |};
     clock := clock w; timer := None;
     started := started w ++ [(task, clock w)] |}.
Proof.
  intros Hp Hq Hcap. unfold throttle, processQueue. simpl. rewrite Hp.
  unfold resume. simpl. rewrite Hq. simpl.
  apply Z.ltb_lt in Hcap. now rewrite Hcap.
Qed.

Lemma throttle_all_idle tasks : forall w,
  processing (limiter w) = false -> queue (limiter w) = [] ->
  (Z.of_nat (List.length (prune (clock w) (requestTimestamps (limiter w))))
   + Z.of_nat (List.length tasks) <= maxRpm (limiter w))%Z ->
  let w' := run w (map Throttle tasks) in
  started w' = started w ++ map (fun task => (task, clock w)) tasks /\
  processing (limiter w') = false /\ queue (limiter w') = [] /\
  clock w' = clock w /\
  (tasks <> [] -> timer w' = None).
Proof.
  induction tasks as [|task tasks IH]; intros w Hp Hq Hcap; simpl.
  - rewrite app_nil_r. repeat split; auto. congruence.
  - simpl in Hcap. rewrite throttle_idle by (auto; lia).
    match goal with |- context [run ?w0 _] => destruct (IH w0) as (H1 & H2 & H3 & H4 & H5) end;
      simpl; auto.
    { rewrite prune_app, prune_idem, prune_now, length_app. simpl. lia. }
    simpl in H1, H4. rewrite H1, <- app_assoc. simpl.
    repeat split; auto. intros _.
    destruct tasks as [|t2 tasks]; [reflexivity|]. apply H5. discriminate.
Qed.

Lemma prune_repeat now n : prune now (repeat now n) = repeat now n.
Proof.
  induction n as [|n IH]; simpl; auto.
  unfold prune in *. simpl. now rewrite Z.sub_diag, IH.
Qed.

Lemma throttle_all_stamps tasks : forall w,
  processing (limiter w) = false -> queue (limiter w) = [] ->
  (Z.of_nat (List.length (prune (clock w) (requestTimestamps (limiter w))))
   + Z.of_nat (List.length tasks) <= maxRpm (limiter w))%Z ->
  tasks <> [] ->
  requestTimestamps (limiter (run w (map Throttle tasks)))
  = prune (clock w) (requestTimestamps (limiter w)) ++ repeat (clock w) (List.length tasks) /\
  maxRpm (limiter (run w (map Throttle tasks))) = maxRpm (limiter w).
Proof.
  induction tasks as [|task tasks IH]; intros w Hp Hq Hcap Hne; [congruence|].
  simpl in Hcap. simpl run. rewrite throttle_idle by (auto; lia).
  destruct tasks as [|t2 tasks].
  - simpl. auto.
  - match goal with |- context [run ?w0 _] => destruct (IH w0) as (H1 & H2) end;
      simpl; auto; try discriminate.
    { rewrite prune_app, prune_idem, prune_now, length_app. simpl List.length in *. lia. }
    simpl in H1, H2. rewrite H1, H2.
    rewrite prune_app, prune_idem, prune_now, <- app_assoc. auto.
Qed.

(** *** A limit that admits nothing *)

Lemma while_queue_closed M now q :
  (M <= 0)%Z ->
  started_now T (while_queue T M now q []) = [] /\
  requestTimestamps (limiter_after T (while_queue T M now q [])) = [] /\
  maxRpm (limiter_after T (while_queue T M now q [])) = M.
Proof.
  intros HM. destruct q as [|task q]; simpl; auto.
  replace (0 <? M)%Z with false by (symmetry; apply Z.ltb_ge; lia).
  simpl. auto.
Qed.

Definition closed (M : Z) w : Prop :=
  maxRpm (limiter w) = M /\ started w = [] /\ requestTimestamps (limiter w) = [].

Lemma resume_closed M w : (M <= 0)%Z -> closed M w -> closed M (resume T w).
Proof.
  intros HM (H1 & H2 & H3). unfold resume. rewrite H1, H2, H3.
  destruct (while_queue_closed M (clock w) (queue (limiter w)) HM) as (Ha & Hb & Hc).
  repeat split; simpl; rewrite ?Ha; auto.
Qed.

Lemma step_closed M w e : (M <= 0)%Z -> closed M w -> closed M (step w e).
Proof.
  intros HM Hc. pose proof Hc as (H1 & H2 & H3).
  destruct e as [task|ms| |]; simpl.
  - unfold throttle, processQueue. simpl.
    destruct (processing (limiter w)); [repeat split; auto|].
    apply resume_closed; auto; repeat split; auto.
  - repeat split; auto.
  - destruct (timer w) as [due|]; auto.
    destruct (due <=? clock w)%Z; auto. now apply resume_closed.
  - repeat split; simpl; rewrite ?H3; auto.
Qed.

Lemma run_closed M events : forall w,
  (M <= 0)%Z -> closed M w -> closed M (run w events).
Proof.
  induction events as [|e events IH]; intros w HM H; simpl; auto.
  apply IH; auto. now apply step_closed.
Qed.

(** *** The sleeping loop *)

(** The timestamps that are still in the window when the timer set for
    [due] fires. *)
Definition live_at (due : Z) (timestamps : list Z) : nat :=
  List.length (filter (fun t => (due - 100 - t <? 60000)%Z) timestamps).

Lemma live_at_prune due now l : live_at due (prune now l) <= live_at due l.
Proof.
  unfold live_at, prune. induction l as [|t l IH]; simpl; auto.
  destruct (now - t <? 60000)%Z; simpl; destruct (due - 100 - t <? 60000)%Z; simpl; lia.
Qed.

Lemma prune_live due now l :
  (due <= now)%Z -> List.length (prune now l) <= live_at due l.
Proof.
  intros Hle. unfold prune, live_at. apply filter_length_impl.
  intros t Ht. apply Z.ltb_lt in Ht. apply Z.ltb_lt. lia.
Qed.

Record timed (M : Z) w : Prop := {
  timed_limit : maxRpm (limiter w) = M;
  timed_length : (Z.of_nat (List.length (requestTimestamps (limiter w))) <= M)%Z;
  timed_past : Forall (fun t => t <= clock w)%Z (requestTimestamps (limiter w));
  timed_idle : processing (limiter w) = false -> timer w = None;
  timed_busy : processing (limiter w) = true ->
               exists due,
                 timer w = Some due /\ queue (limiter w) <> [] /\
                 (due <= clock w + 60100)%Z /\
                 (Z.of_nat (live_at due (requestTimestamps (limiter w))) < M)%Z
}.

Lemma timed_boot M now : (1 <= M)%Z -> timed M (boot M now).
Proof. intros HM. constructor; simpl; auto; [lia|discriminate]. Qed.

Lemma while_queue_timed M now q : forall R,
  (1 <= M)%Z ->
  (Z.of_nat (List.length R) <= M)%Z -> Forall (fun t => t <= now)%Z R ->
  let p := while_queue T M now q R in
  maxRpm (limiter_after T p) = M /\
  (Z.of_nat (List.length (requestTimestamps (limiter_after T p))) <= M)%Z /\
  Forall (fun t => t <= now)%Z (requestTimestamps (limiter_after T p)) /\
  match sleeping T p with
  | None => processing (limiter_after T p) = false
  | Some delay =>
      processing (limiter_after T p) = true /\
      queue (limiter_after T p) <> [] /\
      (100 < delay <= 60100)%Z /\
      (Z.of_nat (live_at (now + delay) (requestTimestamps (limiter_after T p))) < M)%Z
  end.
Proof.
  induction q as [|task rest IH]; intros R HM Hlen Hpast; simpl.
  - repeat split; auto.
  - pose proof (prune_length now R) as Hpl.
    pose proof (prune_past now R Hpast) as Hpp.
    destruct (Z.of_nat (List.length (prune now R)) <? M)%Z eqn:Hcap; simpl.
    + apply Z.ltb_lt in Hcap. apply IH; auto.
      * rewrite length_app. simpl. lia.
      * apply Forall_app. split; auto. constructor; [lia|constructor].
    + apply Z.ltb_ge in Hcap.
      split; [reflexivity|]. split; [lia|]. split; [exact Hpp|].
      split; [reflexivity|]. split; [discriminate|].
      destruct (prune now R) as [|oldest others] eqn:HR; [simpl in Hcap; lia|].
      change (timeToWait now (oldest :: others)) with (60000 - (now - oldest) + 100)%Z.
      assert (Hin : In oldest (prune now R)) by (rewrite HR; now left).
      apply filter_In in Hin. destruct Hin as [_ Hwin]. apply Z.ltb_lt in Hwin.
      inversion Hpp as [|? ? Hold _]; subst.
      split; [lia|].
      unfold live_at. cbn [filter].
      replace (now + (60000 - (now - oldest) + 100) - 100 - oldest <? 60000)%Z with false
        by (symmetry; apply Z.ltb_ge; lia).
      pose proof (filter_length_le
                    (fun t => (now + (60000 - (now - oldest) + 100) - 100 - t <? 60000)%Z)
                    others) as Hfl.
      simpl in Hlen, Hpl. simpl List.length in *. lia.
Qed.

Lemma resume_timed M w :
  (1 <= M)%Z ->
  maxRpm (limiter w) = M ->
  (Z.of_nat (List.length (requestTimestamps (limiter w))) <= M)%Z ->
  Forall (fun t => t <= clock w)%Z (requestTimestamps (limiter w)) ->
  timed M (resume T w).
Proof.
  intros HM Hl Hlen Hpast. unfold resume. rewrite Hl.
  destruct (while_queue_timed M (clock w) (queue (limiter w)) _ HM Hlen Hpast)
    as (H1 & H2 & H3 & H4).
  destruct (sleeping T _) as [delay|] eqn:Hs.
  - destruct H4 as (Hp & Hq & Hd & Hlive).
    constructor; simpl; auto; [congruence|].
    intros _. exists (clock w + delay)%Z. repeat split; auto; lia.
  - constructor; simpl; auto. congruence.
Qed.

Lemma step_timed M w e : (1 <= M)%Z -> timed M w -> timed M (step w e).
Proof.
  intros HM Ht. pose proof Ht as [Hl Hlen Hpast Hidle Hbusy].
  destruct e as [task|ms| |]; simpl.
  - unfold throttle, processQueue. simpl.
    destruct (processing (limiter w)) eqn:Hp.
    + constructor; simpl; auto; try congruence.
      intros _. destruct (Hbusy eq_refl) as (due & H1 & H2 & H3 & H4).
      exists due. repeat split; auto.
      intros E. now apply app_eq_nil in E as [_ [=]].
    + now apply resume_timed.
  - constructor; simpl; auto.
    + eapply Forall_impl; [|exact Hpast]. simpl. intros; lia.
    + intros Hp. destruct (Hbusy Hp) as (due & H1 & H2 & H3 & H4).
      exists due. repeat split; auto. lia.
  - destruct (timer w) as [due|]; auto.
    destruct (due <=? clock w)%Z; auto. now apply resume_timed.
  - constructor; simpl; auto.
    + pose proof (prune_length (clock w) (requestTimestamps (limiter w))). lia.
    + now apply prune_past.
    + intros Hp. destruct (Hbusy Hp) as (due & H1 & H2 & H3 & H4).
      exists due. repeat split; auto.
      pose proof (live_at_prune due (clock w) (requestTimestamps (limiter w))). lia.
Qed.

Lemma run_timed M events : forall w, (1 <= M)%Z -> timed M w -> timed M (run w events).
Proof.
  induction events as [|e events IH]; intros w HM H; simpl; auto.
  apply IH; auto. now apply step_timed.
Qed.

(** The timer, fired when due or later, starts the head of the queue. *)
Lemma timer_admits M w due now' :
  timed M w -> timer w = Some due -> (due <= now')%Z -> (clock w <= now')%Z ->
  exists task rest,
    queue (limiter w) = task :: rest /\
    exists more,
      started_now T (while_queue T M now' (queue (limiter w)) (requestTimestamps (limiter w)))
      = (task, now') :: more.
Proof.
  intros [Hl Hlen Hpast Hidle Hbusy] Htimer Hdue Hclock.
  destruct (processing (limiter w)) eqn:Hp.
  2:{ rewrite (Hidle eq_refl) in Htimer. discriminate. }
  destruct (Hbusy eq_refl) as (due' & H1 & H2 & H3 & H4).
  rewrite Htimer in H1. injection H1 as <-.
  destruct (queue (limiter w)) as [|task rest]; [congruence|].
  exists task, rest. split; auto. simpl.
  pose proof (prune_live due now' (requestTimestamps (limiter w)) Hdue) as Hlive.
  replace (Z.of_nat (List.length (prune now' (requestTimestamps (limiter w)))) <? M)%Z
    with true by (symmetry; apply Z.ltb_lt; lia).
  simpl. eexists. reflexivity.
Qed.

End Queue.

End QueueFacts.
(* ================================================================= *)
(** ** Structural equality and the canonical encoding *)

Module ValueFacts.
Import JS Utils JSON Structural.
Import JSFacts CanonicalFacts ParseFacts.

(** Structurally equal values have the same canonical encoding. *)
Lemma canonicalStringify_same v : forall w,
  distinct_keys v -> same_value v w -> canonicalStringify v = canonicalStringify w.
Proof.
  induction v as [| | b | n | s | xs IH | ps IH] using jsval_nested_ind;
    intros w Hd Hs; inversion Hs; subst; auto.
  - apply distinct_keys_arr in Hd.
    simpl. do 2 f_equal. f_equal.
    match goal with H : Forall2 same_value xs _ |- _ => revert H end.
    revert Hd IH. generalize ys. clear.
    induction xs as [|x xs IHxs]; intros ys Hd IH H; inversion H; subst; auto.
    inversion Hd; inversion IH; subst. simpl. f_equal; auto.
  - apply distinct_keys_obj in Hd. destruct Hd as [Hnd Hd].
    match goal with H : Permutation _ _ |- _ => rename H into Hperm end.
    match goal with H : Forall2 _ ps _ |- _ => rename H into Hpairs end.
    assert (Hkeys : map fst ps = map fst qs').
    { clear - Hpairs. induction Hpairs as [|p q ps qs' [Hk _] _ IHp]; simpl; congruence. }
    assert (Hnd' : NoDup (keys_of qs)).
    { eapply Permutation_NoDup; [|exact Hnd]. rewrite Hkeys.
      unfold keys_of. now apply Permutation_map, Permutation_sym. }
    rewrite !canonicalStringify_object.
    assert (Hsorted : sort_keys (Object_keys ps) = sort_keys (Object_keys qs)).
    { apply sort_keys_of_perm. rewrite !Object_keys_perm. unfold keys_of.
      rewrite Hkeys. now apply Permutation_map, Permutation_sym. }
    rewrite <- Hsorted. do 2 f_equal. f_equal.
    apply map_ext_in. intros key _. f_equal.
    unfold prop. rewrite (get_perm qs qs' key Hnd' Hperm).
    clear - Hpairs IH Hd.
    induction Hpairs as [|[k v] [k' v'] ps qs' [Hk Hv] _ IHp]; simpl; auto.
    simpl in Hk. subst k'. inversion IH; inversion Hd; subst.
    destruct (k =? key)%string; auto.
Qed.

Definition same_pair (p q : string * jsval) : Prop :=
  fst p = fst q /\ same_value (snd p) (snd q).

Lemma same_value_sym v : forall w, same_value v w -> same_value w v.
Proof.
  induction v as [| | b | n | s | xs IH | ps IH] using jsval_nested_ind;
    intros w Hs; inversion Hs; subst; try constructor.
  - match goal with H : Forall2 same_value xs _ |- _ => revert H end.
    revert IH. generalize ys. clear.
    induction xs as [|x xs IHxs]; intros ys IH H; inversion H; subst; constructor.
    + inversion IH; subst. auto.
    + inversion IH; subst. auto.
  - match goal with H : Permutation _ _ |- _ => rename H into Hperm end.
    match goal with H : Forall2 _ ps _ |- _ => rename H into Hpairs end.
    assert (Hflip : Forall2 same_pair qs' ps).
    { clear - Hpairs IH.
      induction Hpairs as [|p q ps qs' [Hk Hv] _ IHp]; constructor.
      - inversion IH; subst. split; auto.
      - inversion IH; subst. auto. }
    destruct (Permutation_Forall2 (Permutation_sym Hperm) Hflip) as (ps' & Hp' & Hf').
    now apply (same_obj qs ps ps').
Qed.

Lemma same_value_trans v : forall w u, same_value v w -> same_value w u -> same_value v u.
Proof.
  induction v as [| | b | n | s | xs IH | ps IH] using jsval_nested_ind;
    intros w u Hvw Hwu; inversion Hvw; subst; inversion Hwu; subst; try constructor.
  - match goal with H : Forall2 same_value xs _ |- _ => revert H end.
    match goal with H : Forall2 same_value ys _ |- _ => revert H end.
    revert IH. generalize ys ys0. clear.
    induction xs as [|x xs IHxs]; intros ys zs IH H1 H2;
      inversion H2; subst; inversion H1; subst; constructor.
    + inversion IH; subst. eauto.
    + inversion IH; subst. eauto.
  - match goal with
    | H1 : Permutation qs qs', H2 : Forall2 _ ps qs',
      H3 : Permutation ?us ?us', H4 : Forall2 _ qs ?us' |- _ =>
        destruct (Permutation_Forall2 H1 H4) as (us'' & Hp'' & Hf'');
        apply (same_obj ps us us'');
        [ now rewrite H3 | ];
        revert H2 Hf''; revert IH; generalize qs' us''; clear
    end.
    induction ps as [|p ps IHps]; intros qs us IH H1 H2;
      inversion H1; subst; inversion H2; subst; constructor.
    + inversion IH; subst.
      match goal with
      | Ha : fst p = fst ?q /\ _, Hb : fst ?q = fst ?r /\ _ |- _ =>
          destruct Ha as [Ha1 Ha2]; destruct Hb as [Hb1 Hb2]
      end.
      split; [congruence|]. eauto.
    + inversion IH; subst. eauto.
Qed.

(** Two values with the same sorted copy are structurally equal. *)
Lemma sorted_copy_eq_same a b :
  distinct_keys a -> distinct_keys b -> sorted_copy a = sorted_copy b -> same_value a b.
Proof.
  intros Ha Hb Heq.
  apply (same_value_trans a (sorted_copy a) b).
  - now apply sorted_copy_same.
  - rewrite Heq. apply same_value_sym. now apply sorted_copy_same.
Qed.

(** On plain data the canonical encoding tells values apart. *)
Lemma canonicalStringify_injective a b :
  plain_data a = true -> plain_data b = true ->
  distinct_keys a -> distinct_keys b ->
  canonicalStringify a = canonicalStringify b -> same_value a b.
Proof.
  intros Hpa Hpb Hda Hdb Heq.
  apply sorted_copy_eq_same; auto.
  pose proof (JSON_parse_canonical a Hpa Hda) as H1.
  pose proof (JSON_parse_canonical b Hpb Hdb) as H2.
  rewrite Heq in H1. congruence.
Qed.

(** Sorting the keys leaves the numbers as they are. *)
Lemma safe_sorted_copy v : safe_integers v = true -> safe_integers (sorted_copy v) = true.
Proof.
  induction v as [| | b | n | s | xs IH | ps IH] using jsval_nested_ind; auto.
  - simpl. rewrite !forallb_forall. intros Hs x Hx.
    apply in_map_iff in Hx. destruct Hx as (y & <- & Hy).
    rewrite Forall_forall in IH. auto.
  - cbn [sorted_copy safe_integers]. rewrite !forallb_forall. intros Hs q Hq.
    apply in_map_iff in Hq. destruct Hq as (key & <- & _). cbn [snd].
    destruct (get (map (fun p => (fst p, sorted_copy (snd p))) ps) key) as [x|] eqn:Hget;
      [|reflexivity].
    apply get_Some_in in Hget. apply in_map_iff in Hget.
    destruct Hget as (p & [= _ <-] & Hp).
    rewrite Forall_forall in IH. auto.
Qed.

End ValueFacts.
(* ================================================================= *)
(** ** The lite suite and its runner *)

Module LiteFacts.
Import JS LiteSuite LiteRunner.

Lemma seq_snoc n : seq 0 (S n) = seq 0 n ++ [n].
Proof. now rewrite seq_S. Qed.

Lemma mod4_cases n : n mod 4 = 0 \/ n mod 4 = 1 \/ n mod 4 = 2 \/ n mod 4 = 3.
Proof. pose proof (Nat.mod_upper_bound n 4). lia. Qed.

Lemma mod4_succ n :
  S n mod 4 = match n mod 4 with 3 => 0 | r => S r end.
Proof.
  pose proof (Nat.div_mod_eq n 4) as Hn.
  destruct (mod4_cases n) as [H|[H|[H|H]]]; rewrite H in *.
  - symmetry. apply (Nat.mod_unique (S n) 4 (n / 4) 1); lia.
  - symmetry. apply (Nat.mod_unique (S n) 4 (n / 4) 2); lia.
  - symmetry. apply (Nat.mod_unique (S n) 4 (n / 4) 3); lia.
  - symmetry. apply (Nat.mod_unique (S n) 4 (S (n / 4)) 0); lia.
Qed.

(** Where the walker stands after [n] steps of the generated walk. *)
Definition walk (n : nat) : Z * Z :=
  fold_left drunkWalker.move (drunkWalker.generateSteps n) (0, 0)%Z.

Lemma walk_succ n :
  walk (S n) =
  drunkWalker.move (walk n) ("Move " ++ at_index drunkWalker.pattern (n mod 4))%string.
Proof.
  unfold walk, drunkWalker.generateSteps.
  now rewrite seq_snoc, map_app, fold_left_app.
Qed.

Lemma walk_position n :
  walk n = match n mod 4 with
           | 0 => (0, 0)%Z
           | 1 => (0, 1)%Z
           | 2 => (1, 1)%Z
           | _ => (1, 0)%Z
           end.
Proof.
  induction n as [|n IH]; [reflexivity|].
  rewrite walk_succ, IH, mod4_succ.
  destruct (mod4_cases n) as [H|[H|[H|H]]]; rewrite H; reflexivity.
Qed.

Lemma parity_succ n :
  fold_left (fun value _ => paritySwitch.rule value) (seq 0 (S n)) 0%Z =
  paritySwitch.rule (fold_left (fun value (_ : nat) => paritySwitch.rule value) (seq 0 n) 0%Z).
Proof. now rewrite seq_snoc, fold_left_app. Qed.

Lemma calculate_succ n :
  fold_left brokenCalculator.calculate (brokenCalculator.generateSteps (S n)) 0%Z =
  (fold_left brokenCalculator.calculate (brokenCalculator.generateSteps n) 0%Z + 5)%Z.
Proof.
  unfold brokenCalculator.generateSteps.
  rewrite seq_snoc, map_app, fold_left_app. cbn [map fold_left].
  destruct (mod4_cases n) as [H|[H|[H|H]]]; rewrite H; reflexivity.
Qed.

(** The arguments that are not the flag. *)
Definition positional (args : list string) : list string :=
  filter (fun arg => negb (arg =? "--high")%string) args.

Definition is_flag (arg : string) : bool := (arg =? "--high")%string.

Lemma unset_some s : s <> "" -> unset (Some s) = false.
Proof. intros H. simpl. now apply String.eqb_neq. Qed.

(** The loop over the arguments, from any state it can be in. *)
Lemma read_from args : forall a,
  Forall (fun arg => arg <> "") args ->
  (testName a = None -> stepCountStr a = None) ->
  testName a <> Some "" -> stepCountStr a <> Some "" ->
  fold_left read_argument args a =
  {| testName := match testName a with
                 | Some s => Some s
                 | None => nth_error (positional args) 0
                 end;
     stepCountStr := match testName a, stepCountStr a with
                     | Some _, Some s => Some s
                     | Some _, None => nth_error (positional args) 0
                     | None, _ => nth_error (positional args) 1
                     end;
     useHighQuality := useHighQuality a || existsb is_flag args |}.
Proof.
  induction args as [|arg args IH]; intros a Hne Hord Ht Hs.
  - simpl. destruct a as [[t|] [s|] h]; simpl in *; rewrite ?orb_false_r; auto.
    now specialize (Hord eq_refl).
  - inversion Hne as [|? ? Harg Hrest]; subst.
    simpl fold_left. unfold read_argument at 2, positional. simpl filter. simpl existsb.
    unfold is_flag at 1.
    destruct (arg =? "--high")%string eqn:Hflag; simpl negb; cbv iota.
    + rewrite IH; auto. simpl. now rewrite orb_true_r.
    + fold (positional args).
      destruct a as [[t|] [s|] h]; simpl testName in *; simpl stepCountStr in *;
        simpl useHighQuality in *.
      * rewrite !unset_some by congruence. rewrite IH; simpl; auto.
      * rewrite unset_some by congruence. simpl unset. rewrite IH; simpl; auto; congruence.
      * now specialize (Hord eq_refl).
      * simpl unset. rewrite IH; simpl; auto; congruence.
Qed.

Lemma usage_error_positional args :
  Forall (fun arg => arg <> "") args ->
  usage_error (read_arguments args) = (List.length (positional args) <? 2)%nat.
Proof.
  intros Hne. unfold read_arguments. rewrite read_from; auto; try discriminate.
  unfold usage_error. simpl.
  assert (Hpos : Forall (fun arg => arg <> "") (positional args)).
  { apply Forall_forall. intros arg Hin. apply filter_In in Hin.
    rewrite Forall_forall in Hne. now apply Hne. }
  destruct (positional args) as [|a [|b l]]; simpl; auto.
  - inversion Hpos; subst. rewrite (proj2 (String.eqb_neq a "")); auto.
  - inversion Hpos as [|? ? Ha Hrest]; subst. inversion Hrest; subst.
    rewrite (proj2 (String.eqb_neq a "")), (proj2 (String.eqb_neq b "")); auto.
Qed.

End LiteFacts.

(* ================================================================= *)
(** ** The prompts of the basic tests *)

Module SuiteFacts.
Import Suite ParseFacts.

Lemma times_succ n sentence : (times n sentence ++ sentence = times (S n) sentence)%string.
Proof.
  induction n as [|n IH]; simpl.
  - now rewrite append_nil_r.
  - now rewrite append_assoc, IH.
Qed.

Lemma half_up steps i : (2 * i <? steps)%nat = (i <? (steps + 1) / 2)%nat.
Proof.
  pose proof (Nat.div_mod_eq (steps + 1) 2) as Hd.
  pose proof (Nat.mod_upper_bound (steps + 1) 2) as Hm.
  destruct (2 * i <? steps)%nat eqn:E1; destruct (i <? (steps + 1) / 2)%nat eqn:E2; auto.
  - apply Nat.ltb_lt in E1. apply Nat.ltb_ge in E2. lia.
  - apply Nat.ltb_ge in E1. apply Nat.ltb_lt in E2. lia.
Qed.

Lemma alternating_from steps fuel : forall i prompt,
  (steps + 1) / 2 - i <= fuel ->
  alternating_loop fuel steps i prompt
  = (prompt ++ times ((steps + 1) / 2 - i) " Add 10. Subtract 5.")%string.
Proof.
  induction fuel as [|fuel IH]; intros i prompt Hfuel; simpl alternating_loop;
    change (i + (i + 0)) with (2 * i); rewrite half_up.
  - replace (i <? (steps + 1) / 2)%nat with false by (symmetry; apply Nat.ltb_ge; lia).
    replace ((steps + 1) / 2 - i) with 0 by lia. simpl. now rewrite append_nil_r.
  - destruct (i <? (steps + 1) / 2)%nat eqn:E.
    + apply Nat.ltb_lt in E. rewrite IH by lia.
      replace ((steps + 1) / 2 - i) with (S ((steps + 1) / 2 - S i)) by lia.
      simpl. now rewrite append_assoc.
    + apply Nat.ltb_ge in E.
      replace ((steps + 1) / 2 - i) with 0 by lia. simpl. now rewrite append_nil_r.
Qed.

Lemma repeated_from sentence steps : forall prompt,
  fold_left (fun p (_ : nat) => (p ++ sentence)%string) (seq 0 steps) prompt
  = (prompt ++ times steps sentence)%string.
Proof.
  induction steps as [|n IH]; intros prompt.
  - simpl. now rewrite append_nil_r.
  - rewrite seq_S, fold_left_app, IH. simpl fold_left.
    now rewrite append_assoc, times_succ.
Qed.

End SuiteFacts.
(* ================================================================= *)
(** ** Cleaning and checking a response *)

Module AgentFacts.
Import JS Utils JSON Consensus Structural Maker Agent.
Import JSFacts CanonicalFacts ParseFacts.

Lemma white_no_backquote s : all_white s = true -> no_backquote s = true.
Proof.
  induction s as [|c s IH]; simpl; auto.
  intros H. apply andb_true_iff in H. destruct H as [Hc Hs].
  rewrite IH by assumption. rewrite andb_true_r.
  destruct (c =? "`")%char eqn:E; auto.
  apply Ascii.eqb_eq in E. subst c. discriminate Hc.
Qed.

Lemma no_backquote_app a b :
  no_backquote (a ++ b) = no_backquote a && no_backquote b.
Proof.
  induction a as [|c a IH]; simpl; auto. now rewrite IH, andb_assoc.
Qed.

(** *** [trim] *)

Lemma trimStart_white ws s : all_white ws = true -> trimStart (ws ++ s) = trimStart s.
Proof.
  induction ws as [|c ws IH]; simpl; auto.
  intros H. apply andb_true_iff in H. destruct H as [-> Hs]. auto.
Qed.

Lemma trimEnd_all_white ws : all_white ws = true -> trimEnd ws = "".
Proof.
  induction ws as [|c ws IH]; simpl; auto.
  intros H. apply andb_true_iff in H. destruct H as [-> Hs]. now rewrite IH.
Qed.

Lemma trimEnd_white s ws : all_white ws = true -> trimEnd (s ++ ws) = trimEnd s.
Proof.
  intros H. induction s as [|c s IH]; simpl.
  - now apply trimEnd_all_white.
  - now rewrite IH.
Qed.

Lemma trimEnd_last s c :
  is_white c = false -> trimEnd (s ++ str1 c) = (s ++ str1 c)%string.
Proof.
  intros Hc. induction s as [|a s IH]; simpl.
  - now rewrite Hc.
  - rewrite IH. now destruct s.
Qed.

(** A text that begins and ends with a character that is not white space
    is what [trim] leaves of it with white space around. *)
Lemma trim_core ws1 a m c ws2 :
  all_white ws1 = true -> all_white ws2 = true ->
  is_white a = false -> is_white c = false ->
  trim (ws1 ++ String a (m ++ str1 c) ++ ws2) = String a (m ++ str1 c).
Proof.
  intros H1 H2 Ha Hc. unfold trim.
  rewrite trimStart_white by assumption. simpl trimStart. rewrite Ha.
  change (String a ((m ++ str1 c) ++ ws2))%string
    with ((String a (m ++ str1 c)) ++ ws2)%string.
  rewrite trimEnd_white by assumption.
  change (String a (m ++ str1 c))%string with ((String a m) ++ str1 c)%string.
  now apply trimEnd_last.
Qed.

(** *** [replace] *)

Lemma drop_skip pattern a : forall b,
  drop_matches pattern (String.length a) (a ++ b) = drop_matches pattern 0 b.
Proof.
  induction a as [|c a IH]; intros b; simpl; auto.
Qed.

Lemma drop_prefix c0 pattern b :
  drop_matches (String c0 pattern) 0 (String c0 pattern ++ b)
  = drop_matches (String c0 pattern) 0 b.
Proof.
  change (String c0 pattern ++ b)%string with (String c0 (pattern ++ b)).
  unfold drop_matches at 1. fold drop_matches.
  change (String c0 (pattern ++ b)) with (String c0 pattern ++ b)%string.
  rewrite prefix_append.
  replace (String.length (String c0 pattern) - 1) with (String.length pattern)
    by (simpl; lia).
  apply drop_skip.
Qed.

Lemma drop_no_backquote pattern a : forall b,
  no_backquote a = true ->
  drop_matches (String "`" pattern) 0 (a ++ b)
  = (a ++ drop_matches (String "`" pattern) 0 b)%string.
Proof.
  induction a as [|c a IH]; intros b H; [reflexivity|].
  simpl in H. apply andb_true_iff in H. destruct H as [Hc Ha].
  assert (Hp : String.prefix (String "`" pattern) (String c (a ++ b)) = false).
  { cbn [String.prefix]. destruct (ascii_dec "`" c) as [<-|Hne]; [discriminate Hc|].
    reflexivity. }
  change (String c a ++ b)%string with (String c (a ++ b)).
  cbn [drop_matches]. rewrite Hp. now rewrite IH.
Qed.

(** The two replacements take the fences off a body without backquotes. *)
Lemma fences_removed ws2 body ws3 :
  no_backquote (ws2 ++ body ++ ws3) = true ->
  remove_all fence (remove_all fence_json (fence_json ++ ws2 ++ body ++ ws3 ++ fence))
  = (ws2 ++ body ++ ws3)%string.
Proof.
  intros H. unfold remove_all.
  assert (E1 : drop_matches fence_json 0 (fence_json ++ ws2 ++ body ++ ws3 ++ fence)
               = ((ws2 ++ body ++ ws3) ++ fence)%string).
  { unfold fence_json. rewrite (drop_prefix "`" "``json").
    replace (ws2 ++ body ++ ws3 ++ fence)%string
      with ((ws2 ++ body ++ ws3) ++ fence)%string by (now rewrite !append_assoc).
    rewrite drop_no_backquote by assumption. reflexivity. }
  rewrite E1. unfold fence at 1.
  rewrite drop_no_backquote by assumption.
  change (drop_matches "```" 0 fence) with "".
  now rewrite append_nil_r.
Qed.

Lemma cleanText_fenced ws1 ws2 a m c ws3 ws4 :
  all_white ws1 = true -> all_white ws2 = true ->
  all_white ws3 = true -> all_white ws4 = true ->
  is_white a = false -> is_white c = false ->
  no_backquote (String a (m ++ str1 c)) = true ->
  cleanText (trim (fenced ws1 ws2 (String a (m ++ str1 c)) ws3 ws4))
  = String a (m ++ str1 c).
Proof.
  intros H1 H2 H3 H4 Ha Hc Hb. unfold fenced.
  set (body := String a (m ++ str1 c)) in *.
  assert (Htrim : trim (ws1 ++ fence_json ++ ws2 ++ body ++ ws3 ++ fence ++ ws4)
                  = (fence_json ++ ws2 ++ body ++ ws3 ++ fence)%string).
  { assert (Hsplit : forall tail,
              (fence_json ++ ws2 ++ body ++ ws3 ++ fence ++ tail)%string
              = (String "`" (("``json" ++ ws2 ++ body ++ ws3 ++ "``") ++ str1 "`") ++ tail)%string).
    { intros tail. unfold fence_json, fence. cbn [append]. do 7 f_equal.
      rewrite !append_assoc. cbn [append str1]. reflexivity. }
    rewrite Hsplit, trim_core by auto.
    specialize (Hsplit ""). rewrite !append_nil_r in Hsplit. now rewrite Hsplit. }
  rewrite Htrim. unfold cleanText. rewrite fences_removed.
  - unfold body. now apply trim_core.
  - rewrite !no_backquote_app, Hb.
    now rewrite !white_no_backquote by assumption.
Qed.

(** *** The checks *)



End AgentFacts.
(* ================================================================= *)
(** ** Runs of the action under two configurations *)

Module RunFacts.
Import JS Utils JSON Consensus Ballots Maker Steps.
Import JSFacts TallyFacts EngineFacts MakerFacts ModeFacts.

(** Two configurations that the engine cannot tell apart. *)
Definition same_engine (cfg cfg' : CONFIG) : Prop :=
  VOTE_MARGIN_K cfg = VOTE_MARGIN_K cfg' /\
  MAX_ATTEMPTS_PER_STEP cfg = MAX_ATTEMPTS_PER_STEP cfg' /\
  BATCH_SIZE cfg = BATCH_SIZE cfg' /\
  ENABLE_PARALLEL cfg = ENABLE_PARALLEL cfg' /\
  EARLY_TERMINATION cfg = EARLY_TERMINATION cfg'.

Section TwoConfigs.
Variables cfg cfg' : CONFIG.
Hypothesis same : same_engine cfg cfg'.

Lemma decide_same votes n : decide cfg votes n = decide cfg' votes n.
Proof. destruct same as (HK & _). unfold decide. now rewrite HK. Qed.

Lemma unresolved_same : unresolved cfg = unresolved cfg'.
Proof. destruct same as (_ & HM & _). unfold unresolved. now rewrite HM. Qed.

Lemma sequential_same w fuel : forall votes a,
  sequential_loop cfg w fuel votes a = sequential_loop cfg' w fuel votes a.
Proof.
  pose proof same as (_ & HM & _).
  induction fuel as [|fuel IH]; intros votes a; simpl; rewrite <- ?HM, ?unresolved_same; auto.
  destruct (a <? MAX_ATTEMPTS_PER_STEP cfg)%nat; auto.
  destruct (w a) as [result|]; [|now rewrite IH].
  rewrite decide_same. destruct (decide cfg' _ (S a)); auto. now rewrite IH.
Qed.

Lemma early_batch_same promises : forall votes a,
  early_batch cfg promises votes a = early_batch cfg' promises votes a.
Proof.
  induction promises as [|[result|] promises IH]; intros votes a; simpl; auto.
  - rewrite decide_same. destruct (decide cfg' _ (S a)); auto. now rewrite IH.
  - now rewrite IH.
Qed.

Lemma parallel_same w fuel : forall votes a,
  parallel_loop cfg w fuel votes a = parallel_loop cfg' w fuel votes a.
Proof.
  pose proof same as (_ & HM & HB & _ & HE).
  induction fuel as [|fuel IH]; intros votes a; simpl;
    rewrite <- ?HM, <- ?HB, <- ?HE, ?unresolved_same; auto.
  destruct (a <? MAX_ATTEMPTS_PER_STEP cfg)%nat; auto.
  rewrite early_batch_same.
  destruct (EARLY_TERMINATION cfg).
  - destruct (early_batch cfg' _ votes a) as [log [c|[votes' a']]]; auto.
    now rewrite IH.
  - destruct (tally_batch _ votes) as [log votes'].
    rewrite decide_same. destruct (decide cfg' votes' _); auto. now rewrite IH.
Qed.

Lemma resolve_same w fuel : getConsensusResult cfg w fuel = getConsensusResult cfg' w fuel.
Proof.
  pose proof same as (_ & _ & _ & HP & _).
  unfold getConsensusResult, getConsensusResultParallel, getConsensusResultSequential.
  rewrite <- HP. destruct (ENABLE_PARALLEL cfg).
  - apply parallel_same.
  - apply sequential_same.
Qed.

Lemma execute_same agent high total steps : forall i st,
  snd (execute cfg agent high total steps i st)
  = snd (execute cfg' agent high total steps i st).
Proof.
  pose proof same as (_ & HM & _).
  induction steps as [|step rest IH]; intros i st; simpl; auto.
  rewrite <- HM, <- resolve_same.
  destruct (getConsensusResult cfg (agent st step) _) as [votes outcome].
  destruct outcome as [result|error|]; auto.
  destruct (merge st (value result)) as [st'|error|]; auto.
  specialize (IH (S i) st').
  destruct (execute cfg agent high total rest (S i) st') as [out e].
  destruct (execute cfg' agent high total rest (S i) st') as [out' e'].
  exact IH.
Qed.

End TwoConfigs.

Lemma same_engine_high cfg cfg' :
  same_engine cfg cfg' -> same_engine (high_quality cfg) (high_quality cfg').
Proof. intros H. exact H. Qed.

(** *** A run ends *)

Lemma merge_completes st value : merge st value <> Diverge.
Proof.
  unfold merge.
  destruct (iterate _); [|discriminate]. destruct value; discriminate.
Qed.

Lemma execute_ends cfg agent high total steps : forall i st,
  (ENABLE_PARALLEL cfg = true -> 1 <= BATCH_SIZE cfg) ->
  snd (execute cfg agent high total steps i st) <> Hangs.
Proof.
  induction steps as [|step rest IH]; intros i st HB; simpl; [discriminate|].
  destruct (getConsensusResult cfg (agent st step) _) as [votes outcome] eqn:Hrun.
  assert (Hc : outcome <> Diverge).
  { destruct (engine_run cfg (agent st step) (MAX_ATTEMPTS_PER_STEP cfg) HB (le_n _))
      as [(n & k & _ & _ & _ & Heq) | Heq]; rewrite Hrun in Heq;
      apply (f_equal snd) in Heq; simpl in Heq; rewrite Heq.
    - unfold declare. simpl. destruct (JSON_parse k); discriminate.
    - discriminate. }
  destruct outcome as [result|error|]; [|discriminate|congruence].
  pose proof (merge_completes st (value result)) as Hm.
  destruct (merge st (value result)) as [st'|error|]; [|discriminate|congruence].
  specialize (IH (S i) st' HB).
  destruct (execute cfg agent high total rest (S i) st') as [out e]. exact IH.
Qed.

End RunFacts.
(* ================================================================= *)
(** ** Whole batches *)

Module LaunchFacts.
Import JS Utils JSON Consensus Ballots Launches.
Import JSFacts TallyFacts EngineFacts ModeFacts.

Section Batches.
Variable cfg : CONFIG.
Variable w : nat -> option jsval.
Let MAX := MAX_ATTEMPTS_PER_STEP cfg.
Let B := BATCH_SIZE cfg.

Lemma early_batch_log promises : forall votes a log r,
  early_batch cfg promises votes a = (log, r) ->
  match r with
  | inl _ => 1 <= List.length log <= List.length promises
  | inr _ => List.length log = List.length promises
  end.
Proof.
  induction promises as [|[result|] promises IH]; intros votes a log r; simpl.
  - intros [= <- <-]. reflexivity.
  - destruct (decide cfg _ (S a)) as [c|]; simpl.
    + intros [= <- <-]. simpl. lia.
    + destruct (early_batch cfg promises _ (S a)) as [log' r'] eqn:He.
      intros [= <- <-]. specialize (IH _ _ _ _ He). simpl.
      destruct r'; lia.
  - destruct (early_batch cfg promises votes (S a)) as [log' r'] eqn:He.
    intros [= <- <-]. specialize (IH _ _ _ _ He). simpl.
    destruct r'; lia.
Qed.

(** From the start of any batch: the calls made are the results consumed,
    rounded up to the end of the batch they lie in. *)
Lemma launched_from fuel : forall a votes,
  EARLY_TERMINATION cfg = true -> 1 <= B ->
  MAX - a <= fuel -> a <= MAX -> batch_end cfg a ->
  let n := a + List.length (fst (parallel_loop cfg w fuel votes a)) in
  let L := launched_loop cfg w fuel votes a a in
  n <= L /\ L <= MAX /\ batch_end cfg L /\ L < n + B.
Proof.
  induction fuel as [|fuel IH]; intros a votes He HB Hfuel Ha Hend.
  - assert (a = MAX) by lia. subst a. simpl. fold MAX.
    rewrite Nat.ltb_irrefl. simpl. repeat split; auto; lia.
  - simpl. fold MAX. destruct (a <? MAX)%nat eqn:Hlt.
    2:{ apply Nat.ltb_ge in Hlt. simpl. repeat split; auto; lia. }
    apply Nat.ltb_lt in Hlt. rewrite He. fold B.
    assert (Hdiv : Nat.divide B a) by (destruct Hend; [assumption|lia]).
    destruct (next_batch_end cfg a HB Hlt Hdiv) as [Hnext _]. fold B MAX in Hnext.
    set (b := Nat.min B (MAX - a)) in *.
    assert (Hb : 1 <= b <= MAX - a /\ b <= B) by (unfold b; lia).
    destruct (early_batch cfg (map w (seq a b)) votes a) as [log [c|[votes' a']]] eqn:Hbatch.
    + pose proof (early_batch_log _ _ _ _ _ Hbatch) as Hlog. simpl in Hlog.
      rewrite length_map, length_seq in Hlog. simpl.
      repeat split; auto; lia.
    + pose proof (early_batch_log _ _ _ _ _ Hbatch) as Hlog. simpl in Hlog.
      rewrite length_map, length_seq in Hlog.
      pose proof (early_batch_attempts _ _ _ _ _ _ _ Hbatch) as Ha'.
      rewrite length_map, length_seq in Ha'. subst a'.
      destruct (IH (a + b) votes' He HB) as (H1 & H2 & H3 & H4); auto; try lia.
      unfold after. simpl. rewrite length_app.
      repeat split; auto; lia.
Qed.

End Batches.

End LaunchFacts.

(* ================================================================= *)
(** * The claims *)

Module Claims.
Import JS Utils JSON Consensus Ballots Structural Maker Steps Examples.
Import JSFacts CanonicalFacts TallyFacts EngineFacts StreamFacts ResolveFacts.
Import MakerFacts StepFacts.

(* ----------------------------------------------------------------- *)
(** ** Consensus engine *)



(** With K = 2 the ballots A, B, A, A are decided by the fourth, for A, with
    margin 2, under the sequential and the early-termination strategy. *)
Example margin_rule_example :
  getConsensusResult (sequential 2 10) (ballots [A; B; A; A]) 10
    = ([valid; valid; valid; valid], Return (outcome (VStr "A") 2 4 4)) /\
  getConsensusResult (parallel 2 10 3 true) (ballots [A; B; A; A]) 10
    = ([valid; valid; valid; valid], Return (outcome (VStr "A") 2 4 4)).
Proof. split; reflexivity. Qed.

(** C2, as stated, fails: on the ballots A, A, B, B, B, B with K = 2 the
    sequential strategy returns A after two ballots, and the parallel
    strategy without early termination, in batches of four, returns B. *)
Lemma exhaustive_batch_other_winner :
  getConsensusResult (sequential 2 6) (ballots [A; A; B; B; B; B]) 6
    = ([valid; valid], Return (outcome (VStr "A") 2 2 2)) /\
  getConsensusResult (parallel 2 6 4 false) (ballots [A; A; B; B; B; B]) 6
    = ([valid; valid; valid; valid; valid; valid], Return (outcome (VStr "B") 2 6 6)).
Proof. split; reflexivity. Qed.

(** C2, amended. On every ballot sequence the parallel strategy with early
    termination and batches of at least one result produces the outcome of
    the sequential strategy: the same callbacks and the same return or
    throw. The standard batch mode does so when its batches hold one
    result. *)
Theorem strategy_equivalence (cfg : CONFIG) (w : nat -> option jsval) (fuel : nat) :
  MAX_ATTEMPTS_PER_STEP cfg <= fuel ->
  (EARLY_TERMINATION cfg = true -> 1 <= BATCH_SIZE cfg ->
   getConsensusResultParallel cfg w fuel = getConsensusResultSequential cfg w fuel) /\
  (EARLY_TERMINATION cfg = false -> BATCH_SIZE cfg = 1 ->
   getConsensusResultParallel cfg w fuel = getConsensusResultSequential cfg w fuel).
Proof.
  intros Hfuel. unfold getConsensusResultParallel, getConsensusResultSequential.
  split; intros He Hb.
  - rewrite parallel_early_sequential by (auto; lia).
    symmetry. apply sequential_fuel. lia.
  - rewrite parallel_exhaustive_sequential; auto; try lia.
    + symmetry. apply sequential_fuel. lia.
    + apply undecided_nil.
Qed.

Lemma strategy_equivalence_witness :
  getConsensusResultParallel (parallel 2 10 3 true) (ballots [A; B; A; A]) 10
    = getConsensusResultSequential (parallel 2 10 3 true) (ballots [A; B; A; A]) 10.
Proof.
  refine (proj1 (strategy_equivalence (parallel 2 10 3 true) (ballots [A; B; A; A]) 10 _)
                _ _).
  - simpl. lia.
  - reflexivity.
  - simpl. lia.
Defined.

(** C3, as stated, fails for K = 1: the alternating ballots A, B, A, B, A, B
    are decided by the first one. *)
Lemma alternating_ballots_decided_for_K1 :
  getConsensusResult (sequential 1 6) (ballots [A; B; A; B; A; B]) 6
    = ([valid], Return (outcome (VStr "A") 1 1 1)).
Proof. reflexivity. Qed.

(** C3, amended. For K >= 2, when two candidates stay within one vote of
    each other after every result up to the ceiling and no candidate is
    above both, the engine makes a callback for each of the MaxAttempts
    results and throws the error naming the ceiling. For K >= 1, counted
    ballots whose two leading candidates have the same count leave nobody
    ahead by K. *)
Theorem tie_non_termination :
  (forall (cfg : CONFIG) (w : nat -> option jsval) (fuel : nat) (a b : string),
      ballot_by_ballot cfg ->
      MAX_ATTEMPTS_PER_STEP cfg <= fuel ->
      (2 <= VOTE_MARGIN_K cfg)%Z ->
      a <> b ->
      (forall n, n <= MAX_ATTEMPTS_PER_STEP cfg -> race_tied a b (counted w n) = true) ->
      getConsensusResult cfg w fuel
        = (events w 0 (MAX_ATTEMPTS_PER_STEP cfg), Throw (unresolved cfg)) /\
      List.length (events w 0 (MAX_ATTEMPTS_PER_STEP cfg)) = MAX_ATTEMPTS_PER_STEP cfg) /\
  (forall (K : Z) (ks : list string) (k1 k2 k : string),
      (1 <= K)%Z -> k1 <> k2 -> cnt ks k1 = cnt ks k2 ->
      (forall k', (cnt ks k' <= cnt ks k1)%Z) ->
      ~ ahead_by K ks k).
Proof.
  split.
  - intros cfg w fuel a b Hb Hfuel HK Hab Hrace. split.
    + apply resolve_unresolved; auto.
      intros n k Hn. eapply race_tied_nobody_ahead; eauto.
    + rewrite events_length. lia.
  - intros K ks k1 k2 k. apply tie_nobody_ahead.
Qed.

Lemma tie_non_termination_witness :
  getConsensusResult (sequential 2 6) (ballots [A; B; A; B; A; B]) 6
    = (events (ballots [A; B; A; B; A; B]) 0 6, Throw (unresolved (sequential 2 6))) /\
  List.length (events (ballots [A; B; A; B; A; B]) 0 6) = 6.
Proof.
  apply (proj1 tie_non_termination (sequential 2 6) (ballots [A; B; A; B; A; B]) 6
               keyA keyB).
  - left. reflexivity.
  - simpl. lia.
  - simpl. lia.
  - discriminate.
  - intros n Hn. simpl in Hn.
    do 7 (destruct n as [|n]; [reflexivity|]). lia.
Defined.

(** With K = 2 and a ceiling of 6 the ballots A, B, A, B, A, B fail after six
    attempts. *)
Example tie_example :
  getConsensusResult (sequential 2 6) (ballots [A; B; A; B; A; B]) 6
    = ([valid; valid; valid; valid; valid; valid],
       Throw (Error "Failed to reach consensus after 6 attempts.")).
Proof. reflexivity. Qed.

(** C4, as stated, fails when the flagged results use up the ceiling: with
    K = 2 and a ceiling of 3 the ballots A, A are decided for A, and with a
    flagged result put before each of them the step is not resolved. *)
Lemma flagged_ballots_exhaust_ceiling :
  interleaved [A; A] [flag; A; flag; A] /\
  getConsensusResult (sequential 2 3) (ballots [A; A]) 3
    = ([valid; valid], Return (outcome (VStr "A") 2 2 2)) /\
  getConsensusResult (sequential 2 3) (ballots [flag; A; flag; A]) 3
    = ([flagged; valid; flagged],
       Throw (Error "Failed to reach consensus after 3 attempts.")).
Proof.
  split; [|split; reflexivity].
  apply interleaved_flag, interleaved_keep, interleaved_flag, interleaved_keep.
  apply interleaved_nil.
Qed.

(** C4, amended. When the ballots [l] are decided and [l'] is [l] with
    flagged results put in between, no longer than the ceiling, then [l'] is
    decided too: with the same winning value and margin and the same number
    of accepted votes, after one attempt for each result consumed, flagged
    or not, which is no sooner than for [l]. *)
Theorem flagged_ballot_neutrality (cfg : CONFIG) (l l' : list (option jsval))
    (fuel : nat) (log : list voteType) (r : consensus) :
  ballot_by_ballot cfg ->
  MAX_ATTEMPTS_PER_STEP cfg <= fuel ->
  interleaved l l' ->
  List.length l' <= MAX_ATTEMPTS_PER_STEP cfg ->
  getConsensusResult cfg (ballots l) fuel = (log, Return r) ->
  exists log' r',
    getConsensusResult cfg (ballots l') fuel = (log', Return r') /\
    value r' = value r /\
    voteMargin (metadata r') = voteMargin (metadata r) /\
    accepted log' = accepted log /\
    attempts (metadata r') = List.length log' /\
    attempts (metadata r) <= attempts (metadata r') /\
    attempts (metadata r') <= List.length l'.
Proof.
  intros Hb Hfuel Hil Hlen Hrun.
  destruct (resolve_returned cfg (ballots l) fuel log r Hb Hfuel Hrun)
    as (n & k & Hn & Hfr & -> & Hparse & Hmargin & Hatt & _).
  destruct (interleaved_first_reach _ l l' n k Hil Hfr) as (n' & Hnn' & Hn' & Hfr' & Heq).
  pose proof (resolve_decided cfg (ballots l') fuel n' k Hb Hfuel ltac:(lia) Hfr') as Hrun'.
  unfold declare in Hrun'. simpl in Hrun'. rewrite Hparse in Hrun'.
  eexists. eexists. split; [exact Hrun'|]. simpl.
  rewrite Heq, Hmargin, Hatt, !accepted_events, Heq, events_length.
  repeat split; auto; lia.
Qed.

Lemma flagged_ballot_neutrality_witness :
  exists log' r',
    getConsensusResult (sequential 2 6) (ballots [flag; A; flag; A]) 6 = (log', Return r') /\
    value r' = value (outcome (VStr "A") 2 2 2) /\
    voteMargin (metadata r') = voteMargin (metadata (outcome (VStr "A") 2 2 2)) /\
    accepted log' = accepted [valid; valid] /\
    attempts (metadata r') = List.length log' /\
    attempts (metadata (outcome (VStr "A") 2 2 2)) <= attempts (metadata r') /\
    attempts (metadata r') <= List.length [flag; A; flag; A].
Proof.
  apply (flagged_ballot_neutrality (sequential 2 6) [A; A] [flag; A; flag; A] 6
           [valid; valid] (outcome (VStr "A") 2 2 2)).
  - left. reflexivity.
  - simpl. lia.
  - apply interleaved_flag, interleaved_keep, interleaved_flag, interleaved_keep.
    apply interleaved_nil.
  - simpl. lia.
  - reflexivity.
Defined.

(** With K = 2 the results flag, A, flag, A are decided for A after four
    attempts. *)
Example flagged_example :
  getConsensusResult (sequential 2 6) (ballots [flag; A; flag; A]) 6
    = ([flagged; valid; flagged; valid], Return (outcome (VStr "A") 2 4 4)).
Proof. reflexivity. Qed.




(** A ballot with the keys b and a is returned with the keys a and b. Keys
    are written into the canonical key without escapes: a ballot whose key
    contains a double quote is not returned at all when its canonical key
    does not parse, and is returned as another object when it does. *)
Example decoding_examples :
  getConsensusResult (sequential 1 6)
      (ballots [Some (VObj [("b", VNum 2); ("a", VArr [VNull; VNum (-1)])])]) 6
    = ([valid],
       Return (outcome (VObj [("a", VArr [VNull; VNum (-1)]); ("b", VNum 2)]) 1 1 1)) /\
  getConsensusResult (sequential 1 6)
      (ballots [Some (VObj [(String "a" (String dquote "b"), VNum 1)])]) 6
    = ([valid], Throw SyntaxError) /\
  getConsensusResult (sequential 1 6)
      (ballots [Some (VObj [(("a" ++ str1 dquote ++ ":1," ++ str1 dquote ++ "b")%string,
                             VNum 2)])]) 6
    = ([valid], Return (outcome (VObj [("a", VNum 1); ("b", VNum 2)]) 1 1 1)).
Proof. repeat split; reflexivity. Qed.

(* ----------------------------------------------------------------- *)
(** ** Admission controller *)

Import RateLimiter LimiterFacts.

(** C5, as stated, fails in its third part. With a limit of one request per
    minute, a first task admitted at time 0 and a second one waiting since
    time 10, the trailing 60 seconds hold no admission at time 60050; a task
    submitted then is not started: it queues behind the waiting one until
    the timer set for 60100 fires. *)
Lemma queued_task_waits_under_capacity :
  under_capacity one_per_minute /\
  started (throttle "T3" one_per_minute) = [("T1", 0%Z)] /\
  queue (limiter (throttle "T3" one_per_minute)) = ["T2"; "T3"] /\
  timer (throttle "T3" one_per_minute) = Some 60100%Z /\
  ~ admitted_at_once "T3" one_per_minute.
Proof.
  split; [reflexivity|]. split; [reflexivity|]. split; [reflexivity|].
  split; [reflexivity|]. intros [H _]. discriminate H.
Qed.

(** C5, amended. After any sequence of submissions, timer firings, queries
    and passages of time, with a clock that does not run backwards: at most
    [maxRpm] admission timestamps lie in any 60 seconds [s <= t < s + 60000];
    the tasks started, followed by those still queued, are the tasks
    submitted, in the order of submission; and a task submitted while the
    loop is idle and fewer than [maxRpm] admissions lie in the trailing 60
    seconds is started at once, at the time of submission, with no timer
    set. *)
Theorem admission_bounds_and_fairness (T : Type) (M now : Z) (events : list (event T)) :
  let w := run (boot M now) events in
  (forall s, (Z.of_nat (admissions_in s (map snd (started w))) <= Z.max 0 M)%Z) /\
  map fst (started w) ++ queue (limiter w) = submitted events /\
  (forall task,
      processing (limiter w) = false -> under_capacity w -> admitted_at_once task w).
Proof.
  intros w.
  destruct (run_inv M events (boot M now) (inv_boot M now)) as [Hinv Hfifo].
  fold w in Hinv, Hfifo. destruct Hinv as [HM Hidle Hbusy Hok].
  split; [|split].
  - apply Hok.
  - exact Hfifo.
  - intros task Hp Hcap. destruct (Hidle Hp) as [Hq Ht].
    unfold under_capacity, in_trailing_window in Hcap.
    unfold admitted_at_once, throttle, processQueue. simpl. rewrite Hp.
    unfold resume. simpl. rewrite Hq. simpl.
    unfold prune. rewrite HM in *.
    apply Z.ltb_lt in Hcap. rewrite Hcap. simpl. split; reflexivity.
Qed.

Lemma admission_bounds_and_fairness_witness :
  admitted_at_once "T2" (run (boot 2 0) [Throttle "T1"; Elapse 10]).
Proof.
  apply (proj2 (proj2 (admission_bounds_and_fairness string 2 0
                         [Throttle "T1"; Elapse 10])) "T2").
  - reflexivity.
  - reflexivity.
Defined.

(* ----------------------------------------------------------------- *)
(** ** Canonical encoder *)

(** C6. Structurally equal values, whose objects list each key once, have
    the same canonical encoding, whatever the order of their keys. *)
Theorem canonical_key_order_invariance (v : jsval) : forall w : jsval,
  distinct_keys v -> same_value v w -> canonicalStringify v = canonicalStringify w.
Proof.
  induction v as [| | b | n | s | xs IH | ps IH] using jsval_nested_ind;
    intros w Hd Hs; inversion Hs; subst; auto.
  - (* arrays *)
    apply distinct_keys_arr in Hd.
    simpl. do 2 f_equal. f_equal.
    match goal with H : Forall2 same_value xs _ |- _ => revert H end.
    revert Hd IH. generalize ys. clear.
    induction xs as [|x xs IHxs]; intros ys Hd IH H; inversion H; subst; auto.
    inversion Hd; inversion IH; subst. simpl. f_equal; auto.
  - (* objects *)
    apply distinct_keys_obj in Hd. destruct Hd as [Hnd Hd].
    match goal with H : Permutation _ _ |- _ => rename H into Hperm end.
    match goal with H : Forall2 _ ps _ |- _ => rename H into Hpairs end.
    assert (Hkeys : map fst ps = map fst qs').
    { clear - Hpairs. induction Hpairs as [|p q ps qs' [Hk _] _ IHp]; simpl; congruence. }
    assert (Hnd' : NoDup (keys_of qs)).
    { eapply Permutation_NoDup; [|exact Hnd]. rewrite Hkeys.
      unfold keys_of. now apply Permutation_map, Permutation_sym. }
    rewrite !canonicalStringify_object.
    assert (Hsorted : sort_keys (Object_keys ps) = sort_keys (Object_keys qs)).
    { apply sort_keys_of_perm. rewrite !Object_keys_perm. unfold keys_of.
      rewrite Hkeys. now apply Permutation_map, Permutation_sym. }
    rewrite <- Hsorted. do 2 f_equal. f_equal.
    apply map_ext_in. intros key _. f_equal.
    unfold prop. rewrite (get_perm qs qs' key Hnd' Hperm).
    clear - Hpairs IH Hd.
    induction Hpairs as [|[k v] [k' v'] ps qs' [Hk Hv] _ IHp]; simpl; auto.
    simpl in Hk. subst k'. inversion IH; inversion Hd; subst.
    destruct (k =? key)%string; auto.
Qed.

Lemma canonical_key_order_invariance_witness :
  canonicalStringify (VObj [("b", VNum 2); ("a", VNum 1)])
    = canonicalStringify (VObj [("a", VNum 1); ("b", VNum 2)]).
Proof.
  apply (canonical_key_order_invariance
           (VObj [("b", VNum 2); ("a", VNum 1)]) (VObj [("a", VNum 1); ("b", VNum 2)])).
  - simpl. split; [|tauto]. constructor.
    + simpl. intros [H|[]]. discriminate H.
    + constructor; [simpl; tauto|constructor].
  - apply (same_obj _ _ [("b", VNum 2); ("a", VNum 1)]).
    + apply perm_swap.
    + repeat constructor.
Defined.

(** The two orders of the keys b and a give the same string. *)
Example canonical_example :
  canonicalStringify (VObj [("b", VNum 2); ("a", VNum 1)])
    = (String "{" (String dquote ("a" ++ String dquote (":1," ++
        String dquote ("b" ++ String dquote ":2}")))))%string.
Proof. reflexivity. Qed.

(* ----------------------------------------------------------------- *)
(** ** Step orchestrator *)

(** C8, as stated, fails in its last part: outside DEV_MODE the failure of
    the step "Add 10" is reported by one line with the number of the step
    and the message of the error, which does not mention the instruction. *)
Lemma failure_report_without_instruction :
  execute (sequential 2 6) alternating false 1 ["Add 10"] 0 (initial_state "task")
    = ([spinner_start "Step 1/1: Add 10";
        spinner_text "Step 1/1: Add 10 (Voting...)";
        spinner_text "Step 1/1: Add 10 (Voting...)";
        spinner_text "Step 1/1: Add 10 (Voting...)";
        spinner_text "Step 1/1: Add 10 (Voting...)";
        spinner_text "Step 1/1: Add 10 (Voting...)";
        spinner_text "Step 1/1: Add 10 (Voting...)"]
         ++ report_failure (sequential 2 6) 0 "Add 10" (initial_state "task")
              (unresolved (sequential 2 6)),
       Exited 1 (initial_state "task")) /\
  report_failure (sequential 2 6) 0 "Add 10" (initial_state "task")
      (unresolved (sequential 2 6))
    = [spinner_fail "Step 1 Failed: Failed to reach consensus after 6 attempts."] /\
  existsb (mentions "Add 10")
    (report_failure (sequential 2 6) 0 "Add 10" (initial_state "task")
       (unresolved (sequential 2 6))) = false.
Proof. repeat split; reflexivity. Qed.

(** C8, amended. When nobody gets ahead by K within the ceiling on a step,
    the run ends with that step: after the callbacks for the MaxAttempts
    results comes the failure report and [process.exit(1)], whatever steps
    remain, with the state as it was before the step. The report is the
    line "Step i Failed: Failed to reach consensus after MaxAttempts
    attempts."; the instruction and the state are added in DEV_MODE only. *)
Theorem unresolved_consensus_is_fatal (cfg : CONFIG)
    (runMicroAgent : state -> string -> nat -> option jsval)
    (high : bool) (total : nat) (step : string) (rest : list string) (i : nat) (st : state) :
  ballot_by_ballot cfg ->
  (forall n k, n <= MAX_ATTEMPTS_PER_STEP cfg ->
               ~ ahead_by (VOTE_MARGIN_K cfg) (counted (runMicroAgent st step) n) k) ->
  execute cfg runMicroAgent high total (step :: rest) i st
    = (pit_stop high i ++ [spinner_start (step_label i total step)]
         ++ map (on_vote i total step)
                (events (runMicroAgent st step) 0 (MAX_ATTEMPTS_PER_STEP cfg))
         ++ report_failure cfg i step st (unresolved cfg),
       Exited 1 st) /\
  report_failure cfg i step st (unresolved cfg)
    = spinner_fail ("Step " ++ string_of_nat (i + 1)
                      ++ " Failed: Failed to reach consensus after "
                      ++ string_of_nat (MAX_ATTEMPTS_PER_STEP cfg) ++ " attempts.")
      :: (if DEV_MODE cfg
          then [console_error [Text (String "010"%char "[DEV MODE] Step Failure Details:")];
                console_error [Text "Step:"; Text step];
                console_error [Text "State:"; Pretty (VObj st)];
                console_error [Text "Error:"; Thrown (unresolved cfg)];
                console_error [Text "Stack:"; Thrown (unresolved cfg)]]
          else []).
Proof.
  intros Hb Hnone. split; [|reflexivity].
  apply execute_throw. now apply resolve_unresolved.
Qed.

Lemma unresolved_consensus_is_fatal_witness :
  execute (sequential 2 6) alternating false 2 ["Add 10"; "Multiply by 2"] 0
      (initial_state "task")
    = (pit_stop false 0 ++ [spinner_start (step_label 0 2 "Add 10")]
         ++ map (on_vote 0 2 "Add 10")
                (events (alternating (initial_state "task") "Add 10") 0 6)
         ++ report_failure (sequential 2 6) 0 "Add 10" (initial_state "task")
              (unresolved (sequential 2 6)),
       Exited 1 (initial_state "task")).
Proof.
  refine (proj1 (unresolved_consensus_is_fatal (sequential 2 6) alternating false 2
                   "Add 10" ["Multiply by 2"] 0 (initial_state "task") _ _)).
  - left. reflexivity.
  - intros n k Hn. apply (race_tied_nobody_ahead 2 keyA keyB).
    + lia.
    + discriminate.
    + simpl in Hn. do 7 (destruct n as [|n]; [reflexivity|]). lia.
Defined.

(** C9, as stated, fails in its first part: a step won by a mapping with a
    field [original_task] replaces the task text of the state. *)
Lemma original_task_overwritten :
  snd (action (sequential 1 3) renaming false "the task" (inl ["a step"]))
    = Finished [("original_task", VStr "another task");
                ("history", VArr [VObj [("original_task", VStr "another task")]])].
Proof. reflexivity. Qed.

(** C9, amended. Merging any winning values into the initial state, one
    after the other, never fails; the state then holds as [history] the
    last five of them at most, in the order they were merged; and it holds
    the original task text unless one of the values was a mapping with a
    field [original_task]. The state a run of the action ends with is such a
    state, with one value merged for each step that succeeded. *)
Theorem state_invariant :
  (forall (prompt : string) (values : list jsval),
      exists st,
        merge_all (initial_state prompt) values = Return st /\
        get st "history" = Some (VArr (slice_last5 values)) /\
        List.length (slice_last5 values) <= 5 /\
        (forallb (fun v => negb (names_original_task v)) values = true ->
         get st "original_task" = Some (VStr prompt))) /\
  (forall (cfg : CONFIG) (runMicroAgent : state -> string -> nat -> option jsval)
          (high : bool) (prompt : string) (steps : list string)
          (out : list output) (e : ending) (st : state),
      action cfg runMicroAgent high prompt (inl steps) = (out, e) ->
      (e = Finished st \/ e = Exited 1 st) ->
      exists values,
        List.length values <= List.length steps /\
        merge_all (initial_state prompt) values = Return st).
Proof.
  split.
  - intros prompt values.
    destruct (merge_all_spec prompt values) as (st & Hm & [_ Hh] & Ht).
    exists st. repeat split; auto. apply slice_last5_length.
  - intros cfg agent high prompt steps out e st. unfold action.
    set (cfg' := if high then high_quality cfg else cfg).
    destruct (execute cfg' agent high (List.length steps) steps 0 (initial_state prompt))
      as [out' e'] eqn:He.
    intros [= _ <-] Hend.
    pose proof (execute_states cfg' agent high _ steps 0 _ out' e' He) as Hst.
    destruct Hend as [-> | ->].
    + destruct Hst as (values & Hlen & Hm). exists values. split; auto. lia.
    + destruct Hst as (_ & values & Hlen & Hm). exists values. split; auto. lia.
Qed.

Lemma state_invariant_witness :
  exists st,
    merge_all (initial_state "the task")
      [VNum 1; VNum 2; VNum 3; VObj [("x", VNum 4)]; VNum 5; VNum 6] = Return st /\
    get st "history" = Some (VArr [VNum 2; VNum 3; VObj [("x", VNum 4)]; VNum 5; VNum 6]) /\
    get st "original_task" = Some (VStr "the task").
Proof.
  destruct (proj1 state_invariant "the task"
              [VNum 1; VNum 2; VNum 3; VObj [("x", VNum 4)]; VNum 5; VNum 6])
    as (st & Hm & Hh & _ & Ht).
  exists st. split; [exact Hm|]. split; [exact Hh|]. apply Ht. reflexivity.
Defined.

(** C10. Whatever value wins a step, the [history] of the merged state is
    the buffer the loop maintains: the previous one with the value appended,
    cut to its last five entries. A field [history] of the value is
    discarded; the other fields of a value that is a mapping are written
    over the fields of the state with the same name. *)
Theorem history_is_orchestrator_owned (st : state) (value : jsval) (history : list jsval) :
  get st "history" = Some (VArr history) ->
  exists st',
    merge st value = Return st' /\
    get st' "history" = Some (VArr (slice_last5 (history ++ [value]))) /\
    forall props k v,
      value = VObj props -> NoDup (map fst props) -> k <> "history" ->
      get props k = Some v -> get st' k = Some v.
Proof.
  intros Hh. destruct (merge_history st value history Hh) as (st' & Hm & Hh' & _).
  exists st'. split; [exact Hm|]. split; [exact Hh'|].
  intros props k v -> Hnd Hk Hget.
  exact (merge_overwrites st props history k v Hh Hnd Hk Hget st' Hm).
Qed.

Lemma history_is_orchestrator_owned_witness :
  exists st',
    merge (initial_state "the task")
      (VObj [("history", VStr "mine"); ("original_task", VStr "other")]) = Return st' /\
    get st' "history"
      = Some (VArr [VObj [("history", VStr "mine"); ("original_task", VStr "other")]]) /\
    get st' "original_task" = Some (VStr "other").
Proof.
  destruct (history_is_orchestrator_owned (initial_state "the task")
              (VObj [("history", VStr "mine"); ("original_task", VStr "other")]) []
              eq_refl) as (st' & Hm & Hh & Hover).
  exists st'. split; [exact Hm|]. split; [exact Hh|].
  apply (Hover [("history", VStr "mine"); ("original_task", VStr "other")]
               "original_task" (VStr "other")).
  - reflexivity.
  - simpl. constructor; [simpl; intros [H|[]]; discriminate H|].
    constructor; [simpl; tauto|constructor].
  - discriminate.
  - reflexivity.
Defined.

End Claims.
(* ================================================================= *)
(** * Further properties of the code *)

Module Properties.
Import JS Utils JSON Consensus Ballots Structural Steps Maker Examples.
Import JSFacts CanonicalFacts TallyFacts EngineFacts StreamFacts MakerFacts.
Import ResolveFacts StepFacts ModeFacts ValueFacts ParseFacts.

(* ----------------------------------------------------------------- *)
(** ** consensus.js: all three loops *)

(** X1. In every mode, with batches that are not empty, a run of the engine
    completes. It made one callback for each result it consumed, in order,
    and consumed the ceiling at most. An outcome it returns reports the
    number of results consumed, and a margin that is at least K and at most
    the number of votes accepted, so that no outcome is returned on fewer
    than K results. What it throws is the error of [JSON.parse] on the
    winning key, or the unresolved-consensus error after exactly the ceiling. *)
Theorem engine_bounds (cfg : CONFIG) (w : nat -> option jsval) (fuel : nat)
    (log : list voteType) (c : completion consensus) :
  (ENABLE_PARALLEL cfg = true -> 1 <= BATCH_SIZE cfg) ->
  MAX_ATTEMPTS_PER_STEP cfg <= fuel ->
  getConsensusResult cfg w fuel = (log, c) ->
  c <> Diverge /\
  List.length log <= MAX_ATTEMPTS_PER_STEP cfg /\
  log = events w 0 (List.length log) /\
  (forall r, c = Return r ->
     attempts (metadata r) = List.length log /\
     totalVotes (metadata r) = List.length log /\
     (VOTE_MARGIN_K cfg <= voteMargin (metadata r) <= Z.of_nat (accepted log))%Z) /\
  (forall e, c = Throw e ->
     e = SyntaxError \/
     (e = unresolved cfg /\ List.length log = MAX_ATTEMPTS_PER_STEP cfg)).
Proof.
  intros HB Hfuel Hrun.
  destruct (engine_run cfg w fuel HB Hfuel) as [(n & k & Hn0 & Hn & Hah & Heq) | Heq];
    rewrite Hrun in Heq; injection Heq as -> ->.
  - rewrite events_length, Nat.sub_0_r.
    split; [unfold declare; destruct (JSON_parse _); discriminate|].
    split; [exact Hn|]. split; [reflexivity|].
    rewrite accepted_events.
    destruct Hah as [_ Hlead].
    pose proof (lead_le_length (counted w n) k) as Hle.
    unfold declare. simpl. destruct (JSON_parse k) as [v|]; split.
    + intros r [= <-]. simpl. repeat split; auto.
    + discriminate.
    + discriminate.
    + intros e [= <-]. now left.
  - rewrite events_length, Nat.sub_0_r.
    split; [discriminate|]. split; [reflexivity|]. split; [reflexivity|].
    split; [discriminate|]. intros e [= <-]. now right.
Qed.

Lemma engine_bounds_witness :
  Return (outcome (VStr "B") 2 6 6) <> Diverge /\
  List.length [valid; valid; valid; valid; valid; valid] <= 6.
Proof.
  refine ((fun H => conj (proj1 H) (proj1 (proj2 H)))
            (engine_bounds (parallel 2 6 4 false) (ballots [A; A; B; B; B; B]) 6
               [valid; valid; valid; valid; valid; valid]
               (Return (outcome (VStr "B") 2 6 6)) _ _ _)).
  - intros _. simpl. lia.
  - simpl. lia.
  - reflexivity.
Defined.



(** X3. With a batch size of 0 the parallel strategy never returns: each turn
    of its loop launches no worker and leaves the attempt count where it
    was, so that however long it runs it is still running, with no callback
    made. *)
Theorem empty_batches_never_return (cfg : CONFIG) (w : nat -> option jsval) (fuel : nat) :
  ENABLE_PARALLEL cfg = true -> BATCH_SIZE cfg = 0 ->
  0 < MAX_ATTEMPTS_PER_STEP cfg ->
  getConsensusResult cfg w fuel = ([], Diverge).
Proof.
  intros Hp HB Hmax. unfold getConsensusResult, getConsensusResultParallel. rewrite Hp.
  induction fuel as [|fuel IH]; simpl.
  - now apply Nat.ltb_lt in Hmax as ->.
  - apply Nat.ltb_lt in Hmax as Hlt. rewrite Hlt, HB. simpl.
    destruct (EARLY_TERMINATION cfg); simpl; now rewrite IH.
Qed.

Lemma empty_batches_never_return_witness :
  getConsensusResult (parallel 2 6 0 true) (ballots [A; A]) 1000 = ([], Diverge).
Proof.
  apply (empty_batches_never_return (parallel 2 6 0 true) (ballots [A; A]) 1000).
  - reflexivity.
  - reflexivity.
  - simpl. lia.
Defined.

(** X4. A margin K above the attempt ceiling can never be reached: whatever the
    workers answer, every mode consumes the ceiling and throws. *)
Theorem margin_above_ceiling_never_decides (cfg : CONFIG) (w : nat -> option jsval)
    (fuel : nat) :
  (ENABLE_PARALLEL cfg = true -> 1 <= BATCH_SIZE cfg) ->
  MAX_ATTEMPTS_PER_STEP cfg <= fuel ->
  (Z.of_nat (MAX_ATTEMPTS_PER_STEP cfg) < VOTE_MARGIN_K cfg)%Z ->
  getConsensusResult cfg w fuel =
  (events w 0 (MAX_ATTEMPTS_PER_STEP cfg), Throw (unresolved cfg)).
Proof.
  intros HB Hfuel HK.
  destruct (engine_run cfg w fuel HB Hfuel) as [(n & k & Hn0 & Hn & [_ Hlead] & _) | Heq];
    auto.
  exfalso.
  pose proof (lead_le_length (counted w n) k).
  pose proof (counted_le w n). lia.
Qed.

Lemma margin_above_ceiling_never_decides_witness :
  getConsensusResult (sequential 4 3) (ballots [A; A; A; A]) 3 =
  (events (ballots [A; A; A; A]) 0 3, Throw (unresolved (sequential 4 3))).
Proof.
  apply (margin_above_ceiling_never_decides (sequential 4 3) (ballots [A; A; A; A]) 3).
  - discriminate.
  - simpl. lia.
  - simpl. lia.
Defined.





(** X7. Early termination stops the counting, not the calls: the parallel
    strategy launches each batch whole, so the calls of the worker it has
    made when it returns or throws are the results it consumed rounded up
    to the end of their batch. With a batch size that is not below the
    ceiling, as shipped, every step costs as many calls as the ceiling, on
    whatever result it is decided. *)
Theorem early_termination_launches_whole_batches (cfg : CONFIG)
    (w : nat -> option jsval) (fuel : nat) :
  ENABLE_PARALLEL cfg = true -> EARLY_TERMINATION cfg = true ->
  1 <= BATCH_SIZE cfg ->
  MAX_ATTEMPTS_PER_STEP cfg <= fuel ->
  List.length (fst (getConsensusResult cfg w fuel)) <= Launches.launched cfg w fuel /\
  Launches.launched cfg w fuel <= MAX_ATTEMPTS_PER_STEP cfg /\
  (Nat.divide (BATCH_SIZE cfg) (Launches.launched cfg w fuel) \/
   Launches.launched cfg w fuel = MAX_ATTEMPTS_PER_STEP cfg) /\
  Launches.launched cfg w fuel
    < List.length (fst (getConsensusResult cfg w fuel)) + BATCH_SIZE cfg /\
  (MAX_ATTEMPTS_PER_STEP cfg <= BATCH_SIZE cfg ->
   Launches.launched cfg w fuel = MAX_ATTEMPTS_PER_STEP cfg).
Proof.
  intros Hp He HB Hfuel.
  destruct (LaunchFacts.launched_from cfg w fuel 0 [] He HB) as (H1 & H2 & H3 & H4);
    try lia.
  { left. exists 0. now rewrite Nat.mul_0_l. }
  simpl in H1, H4.
  assert (Hrun : getConsensusResult cfg w fuel = parallel_loop cfg w fuel [] 0).
  { unfold getConsensusResult, getConsensusResultParallel. now rewrite Hp. }
  rewrite Hrun. unfold Launches.launched.
  split; [exact H1|]. split; [exact H2|]. split; [exact H3|]. split; [exact H4|].
  intros Hbig.
  destruct (Nat.eq_dec (MAX_ATTEMPTS_PER_STEP cfg) 0) as [H0|Hpos]; [lia|].
  assert (Hsome : 1 <= List.length (fst (parallel_loop cfg w fuel [] 0))).
  { rewrite <- Hrun.
    destruct (engine_run cfg w fuel (fun _ => HB) Hfuel)
      as [(n & k & Hn0 & _ & _ & ->) | ->]; simpl; rewrite events_length; lia. }
  destruct H3 as [[q Hq]|Hm]; [|exact Hm].
  destruct q as [|q]; [lia|]. simpl in Hq. nia.
Qed.

Lemma early_termination_launches_whole_batches_witness :
  List.length (fst (getConsensusResult shipped (fun _ => Some (VNum 42)) 15)) = 10 /\
  Launches.launched shipped (fun _ => Some (VNum 42)) 15 = 15.
Proof.
  split; [reflexivity|].
  refine (proj2 (proj2 (proj2 (proj2
            (early_termination_launches_whole_batches shipped
               (fun _ => Some (VNum 42)) 15 _ _ _ _)))) _).
  - reflexivity.
  - reflexivity.
  - simpl. lia.
  - simpl. lia.
  - simpl. lia.
Defined.

(** X8. On results that are JSON data whose keys need no escape and whose
    numbers are integers that a JavaScript number holds exactly, no mode of
    the engine fails to decode its winner: a run returns or throws the
    unresolved-consensus error, and the value returned is the copy with
    sorted keys of one of the results consumed, structurally equal to it. *)
Theorem plain_results_are_decoded (cfg : CONFIG) (w : nat -> option jsval) (fuel : nat) :
  (ENABLE_PARALLEL cfg = true -> 1 <= BATCH_SIZE cfg) ->
  MAX_ATTEMPTS_PER_STEP cfg <= fuel ->
  (forall n b, w n = Some b ->
     plain_data b = true /\ distinct_keys b /\ safe_integers b = true) ->
  snd (getConsensusResult cfg w fuel) <> Throw SyntaxError /\
  (forall r, snd (getConsensusResult cfg w fuel) = Return r ->
     exists j b,
       j < attempts (metadata r) /\ w j = Some b /\
       value r = sorted_copy b /\ same_value b (value r)).
Proof.
  intros HB Hfuel Hplain.
  destruct (engine_run cfg w fuel HB Hfuel) as [(n & k & _ & _ & [Hin _] & ->) | ->];
    simpl.
  - destruct (counted_in w n k Hin) as (j & b & Hj & Hw & <-).
    destruct (Hplain j b Hw) as (Hp & Hd & _).
    unfold declare. simpl. rewrite (JSON_parse_canonical b Hp Hd). split; [discriminate|].
    intros r [= <-]. simpl. exists j, b. repeat split; auto.
    now apply sorted_copy_same.
  - split; discriminate.
Qed.

Lemma plain_results_are_decoded_witness :
  snd (getConsensusResult (parallel 2 6 4 false)
         (fun n => Some (VObj [("y", VNum 1); ("x", VNum 0)])) 6) <> Throw SyntaxError /\
  (forall r,
     snd (getConsensusResult (parallel 2 6 4 false)
            (fun n => Some (VObj [("y", VNum 1); ("x", VNum 0)])) 6) = Return r ->
     exists j b,
       j < attempts (metadata r) /\
       (fun n : nat => Some (VObj [("y", VNum 1); ("x", VNum 0)])) j = Some b /\
       value r = sorted_copy b /\ same_value b (value r)).
Proof.
  apply (plain_results_are_decoded (parallel 2 6 4 false)
           (fun n => Some (VObj [("y", VNum 1); ("x", VNum 0)])) 6).
  - intros _. simpl. lia.
  - simpl. lia.
  - intros n b [= <-]. split; [reflexivity|]. split; [|reflexivity].
    simpl. split; [|tauto]. constructor.
    + simpl. intros [H|[]]. discriminate H.
    + constructor; [simpl; tauto|constructor].
Defined.

(** X9. Workers whose answers are structurally equal, result by result, are
    the same workers to the engine: whatever the order in which their
    objects list their keys, the run makes the same callbacks and completes
    the same way, in every mode and for every configuration. *)
Theorem key_order_does_not_split_votes (cfg : CONFIG) (w w' : nat -> option jsval)
    (fuel : nat) :
  (forall n, match w n, w' n with
             | Some a, Some b => distinct_keys a /\ same_value a b
             | None, None => True
             | _, _ => False
             end) ->
  getConsensusResult cfg w fuel = getConsensusResult cfg w' fuel.
Proof.
  intros Hsame. apply resolve_same_keys. intros n. specialize (Hsame n).
  destruct (w n) as [a|], (w' n) as [b|]; simpl; try contradiction; auto.
  destruct Hsame as [Hd Hs]. f_equal. now apply canonicalStringify_same.
Qed.

Lemma key_order_does_not_split_votes_witness :
  getConsensusResult (sequential 2 6)
    (fun n => Some (VObj [("x", VNum 0); ("y", VNum 1)])) 6 =
  getConsensusResult (sequential 2 6)
    (fun n => if Nat.even n then Some (VObj [("x", VNum 0); ("y", VNum 1)])
              else Some (VObj [("y", VNum 1); ("x", VNum 0)])) 6.
Proof.
  apply (key_order_does_not_split_votes (sequential 2 6)
           (fun n => Some (VObj [("x", VNum 0); ("y", VNum 1)]))
           (fun n => if Nat.even n then Some (VObj [("x", VNum 0); ("y", VNum 1)])
                     else Some (VObj [("y", VNum 1); ("x", VNum 0)]))).
  intros n.
  assert (Hd : distinct_keys (VObj [("x", VNum 0); ("y", VNum 1)])).
  { simpl. split; [|tauto]. constructor.
    - simpl. intros [H|[]]. discriminate H.
    - constructor; [simpl; tauto|constructor]. }
  destruct (Nat.even n); split; try exact Hd.
  - apply (same_obj _ _ [("x", VNum 0); ("y", VNum 1)]).
    + apply Permutation_refl.
    + repeat constructor.
  - apply (same_obj _ _ [("x", VNum 0); ("y", VNum 1)]).
    + apply perm_swap.
    + repeat constructor.
Defined.

(* ----------------------------------------------------------------- *)
(** ** utils.js: the canonical encoding as a normal form *)

(** X10. Encoding, decoding and encoding again gives the first encoding: for
    JSON data whose keys need no escape and whose numbers are integers that
    a JavaScript number holds exactly, the canonical key of a value parses,
    to a structurally equal value with such numbers, and that value has the
    same canonical key. *)
Theorem canonical_form_round_trip (v : jsval) :
  plain_data v = true -> distinct_keys v -> safe_integers v = true ->
  exists v',
    JSON_parse (canonicalStringify v) = Some v' /\
    safe_integers v' = true /\
    canonicalStringify v' = canonicalStringify v /\
    same_value v v'.
Proof.
  intros Hp Hd Hs. exists (sorted_copy v).
  pose proof (sorted_copy_same v Hd) as Hsame.
  split; [now apply JSON_parse_canonical|].
  split; [now apply safe_sorted_copy|]. split; [|exact Hsame].
  symmetry. now apply canonicalStringify_same.
Qed.

Lemma canonical_form_round_trip_witness :
  exists v',
    JSON_parse (canonicalStringify (VObj [("y", VNum 1); ("x", VArr [VStr "a"; VNull])]))
      = Some v' /\
    safe_integers v' = true /\
    canonicalStringify v'
      = canonicalStringify (VObj [("y", VNum 1); ("x", VArr [VStr "a"; VNull])]) /\
    same_value (VObj [("y", VNum 1); ("x", VArr [VStr "a"; VNull])]) v'.
Proof.
  apply (canonical_form_round_trip (VObj [("y", VNum 1); ("x", VArr [VStr "a"; VNull])])).
  - reflexivity.
  - simpl. split; [|tauto]. constructor.
    + simpl. intros [H|[]]. discriminate H.
    + constructor; [simpl; tauto|constructor].
  - reflexivity.
Defined.

(* ----------------------------------------------------------------- *)
(** ** tests/lite-runner.js *)

Import LiteSuite LiteRunner LiteFacts.

(** X11. [compareResults] decides structural equality: on JSON data whose keys
    need no escape, it answers [true] exactly when the actual and the
    expected result are structurally equal, whatever the order of their
    keys. *)
Theorem compareResults_decides_structural_equality (actual expected : jsval) :
  plain_data actual = true -> plain_data expected = true ->
  distinct_keys actual -> distinct_keys expected ->
  (compareResults actual expected = true <-> same_value actual expected).
Proof.
  intros Hpa Hpe Hda Hde. unfold compareResults. rewrite String.eqb_eq. split.
  - now apply canonicalStringify_injective.
  - now apply canonicalStringify_same.
Qed.

Lemma compareResults_decides_structural_equality_witness :
  compareResults (VObj [("y", VNum 0); ("x", VNum 0)]) (drunkWalker.expectedResult 4) = true
  <-> same_value (VObj [("y", VNum 0); ("x", VNum 0)]) (drunkWalker.expectedResult 4).
Proof.
  apply (compareResults_decides_structural_equality
           (VObj [("y", VNum 0); ("x", VNum 0)]) (drunkWalker.expectedResult 4)).
  - reflexivity.
  - reflexivity.
  - simpl. split; [|tauto]. constructor.
    + simpl. intros [H|[]]. discriminate H.
    + constructor; [simpl; tauto|constructor].
  - simpl. split; [|tauto]. constructor.
    + simpl. intros [H|[]]. discriminate H.
    + constructor; [simpl; tauto|constructor].
Defined.

(** X12. The flag [--high] is read wherever it stands: of the other arguments
    the first is the test name and the second the step count, and any
    further ones are ignored; the usage message is what fewer than two of
    them get. *)
Theorem high_flag_position_is_free (args : list string) :
  Forall (fun arg => arg <> "") args ->
  read_arguments args =
  {| testName := nth_error (filter (fun arg => negb (arg =? "--high")%string) args) 0;
     stepCountStr := nth_error (filter (fun arg => negb (arg =? "--high")%string) args) 1;
     useHighQuality := existsb (fun arg => (arg =? "--high")%string) args |} /\
  usage_error (read_arguments args)
  = (List.length (filter (fun arg => negb (arg =? "--high")%string) args) <? 2)%nat.
Proof.
  intros Hne. split.
  - unfold read_arguments. rewrite read_from; auto; discriminate.
  - now apply usage_error_positional.
Qed.

Lemma high_flag_position_is_free_witness :
  read_arguments ["--high"; "drunkWalker"; "100"; "more"] =
  {| testName := Some "drunkWalker"; stepCountStr := Some "100"; useHighQuality := true |}.
Proof.
  refine (proj1 (high_flag_position_is_free ["--high"; "drunkWalker"; "100"; "more"] _)).
  repeat constructor; discriminate.
Defined.

(* ----------------------------------------------------------------- *)
(** ** tests/lite-suite.js *)

(** X13. The Drunk Walker test generates as many steps as asked for, and the
    result it expects is where its own movement rules take the walker from
    the origin along these steps: back at the origin after every fourth. *)
Theorem drunkWalker_expects_its_own_walk (stepCount : nat) :
  List.length (drunkWalker.generateSteps stepCount) = stepCount /\
  drunkWalker.coordinates
    (fold_left drunkWalker.move (drunkWalker.generateSteps stepCount) (0, 0)%Z)
  = drunkWalker.expectedResult stepCount /\
  (Nat.divide 4 stepCount -> drunkWalker.expectedResult stepCount = drunkWalker.initialState).
Proof.
  split; [|split].
  - unfold drunkWalker.generateSteps. now rewrite length_map, length_seq.
  - fold (walk stepCount). rewrite walk_position. unfold drunkWalker.expectedResult.
    destruct (mod4_cases stepCount) as [H|[H|[H|H]]]; rewrite H; reflexivity.
  - intros [q ->]. unfold drunkWalker.expectedResult.
    now rewrite Nat.Div0.mod_mul.
Qed.

Lemma drunkWalker_expects_its_own_walk_witness :
  drunkWalker.expectedResult 8 = drunkWalker.initialState.
Proof.
  apply (proj2 (proj2 (drunkWalker_expects_its_own_walk 8))).
  exists 2. reflexivity.
Defined.

(** X14. The Parity Switch test expects the step count itself after an even
    number of steps, and the step count plus 2 after an odd number. *)
Theorem paritySwitch_expected_value (stepCount : nat) :
  paritySwitch.expectedResult stepCount =
  VNum (if Nat.even stepCount then Z.of_nat stepCount else Z.of_nat stepCount + 2).
Proof.
  unfold paritySwitch.expectedResult. f_equal.
  induction stepCount as [|n IH]; [reflexivity|].
  rewrite parity_succ, IH. rewrite Nat.even_succ, <- Nat.negb_even.
  destruct (Nat.even n) eqn:He; simpl; unfold paritySwitch.rule.
  - apply Nat.even_spec in He. destruct He as [m ->].
    replace (Z.rem (Z.of_nat (2 * m)) 2) with 0%Z.
    + simpl. lia.
    + symmetry. rewrite Nat2Z.inj_mul. simpl (Z.of_nat 2).
      rewrite Z.mul_comm. apply Z.rem_mul. lia.
  - assert (Ho : Nat.odd n = true) by (now rewrite <- Nat.negb_even, He).
    apply Nat.odd_spec in Ho. destruct Ho as [m ->].
    replace (Z.rem (Z.of_nat (2 * m + 1) + 2) 2) with 1%Z.
    + simpl. lia.
    + symmetry. rewrite Z.rem_mod_nonneg by lia.
      replace (Z.of_nat (2 * m + 1) + 2)%Z with (1 + (Z.of_nat m + 1) * 2)%Z by lia.
      now rewrite Z.mod_add by lia.
Qed.

(** X15. The Broken Calculator test generates as many steps as asked for, each
    one of its four ways of saying add 5, and expects what adding 5 for each
    of them gives. *)
Theorem brokenCalculator_expects_its_own_sum (stepCount : nat) :
  List.length (brokenCalculator.generateSteps stepCount) = stepCount /\
  Forall (fun step => In step brokenCalculator.variations)
         (brokenCalculator.generateSteps stepCount) /\
  VNum (fold_left brokenCalculator.calculate (brokenCalculator.generateSteps stepCount) 0%Z)
  = brokenCalculator.expectedResult stepCount.
Proof.
  split; [|split].
  - unfold brokenCalculator.generateSteps. now rewrite length_map, length_seq.
  - unfold brokenCalculator.generateSteps. apply Forall_forall. intros step Hin.
    apply in_map_iff in Hin. destruct Hin as (i & <- & _).
    destruct (mod4_cases i) as [H|[H|[H|H]]]; rewrite H; simpl; auto.
  - unfold brokenCalculator.expectedResult. f_equal.
    induction stepCount as [|n IH]; [reflexivity|].
    rewrite calculate_succ, IH. lia.
Qed.

(* ----------------------------------------------------------------- *)
(** ** tests/suite.js *)

Import Suite SuiteFacts.

(** X16. The prompt builders write [Start with 0.] and then their sentence once
    for each step; the alternating one writes its two operations once for
    each two steps, rounded up, so that for an odd number of steps it writes
    the prompt of the next even number, with one operation more than
    asked for. *)
Theorem prompt_builders_repeat_their_sentence (steps : nat) :
  buildIncrementPrompt steps = ("Start with 0." ++ times steps " Add 1.")%string /\
  buildDecimalPrompt steps = ("Start with 0." ++ times steps " Add 0.1.")%string /\
  buildAlternatingPrompt steps
  = ("Start with 0." ++ times ((steps + 1) / 2) " Add 10. Subtract 5.")%string /\
  (Nat.odd steps = true -> buildAlternatingPrompt steps = buildAlternatingPrompt (S steps)).
Proof.
  assert (Halt : forall n, buildAlternatingPrompt n
                 = ("Start with 0." ++ times ((n + 1) / 2) " Add 10. Subtract 5.")%string).
  { intros n. unfold buildAlternatingPrompt. rewrite alternating_from.
    - now rewrite Nat.sub_0_r.
    - pose proof (Nat.div_mod_eq (n + 1) 2). pose proof (Nat.mod_upper_bound (n + 1) 2). lia. }
  split; [apply repeated_from|]. split; [apply repeated_from|]. split; [apply Halt|].
  intros Hodd. rewrite !Halt. do 2 f_equal.
  apply Nat.odd_spec in Hodd. destruct Hodd as [m ->].
  replace (2 * m + 1 + 1) with ((m + 1) * 2) by lia.
  replace (S (2 * m + 1) + 1) with (1 + (m + 1) * 2) by lia.
  rewrite Nat.div_mul, Nat.div_add by lia. reflexivity.
Qed.

Lemma prompt_builders_repeat_their_sentence_witness :
  buildAlternatingPrompt 3 = buildAlternatingPrompt 4.
Proof.
  apply (proj2 (proj2 (proj2 (prompt_builders_repeat_their_sentence 3)))).
  reflexivity.
Defined.

(* ----------------------------------------------------------------- *)
(** ** rate-limiter.js *)

Import RateLimiter LimiterFacts QueueFacts.

(** X17. [getAvailableRequests] only observes: after a query, whatever is
    submitted, however time passes and whenever the timer fires, the same
    tasks are started at the same times, the same tasks wait, the timer is
    set the same way and a later query gets the same answer as if the query
    had not been made. *)
Theorem availability_query_only_observes (T : Type) (w : world T)
    (events : list (event T)) :
  let queried := snd (getAvailableRequests T w) in
  started (run queried events) = started (run w events) /\
  queue (limiter (run queried events)) = queue (limiter (run w events)) /\
  timer (run queried events) = timer (run w events) /\
  fst (getAvailableRequests T (run queried events))
  = fst (getAvailableRequests T (run w events)).
Proof.
  intros queried.
  pose proof (run_stale events queried w (query_stale w)) as Hsame.
  pose proof (stale_available _ _ Hsame) as Havail.
  destruct Hsame as (_ & Hq & _ & _ & Ht & Hs & _). auto.
Qed.

(** X18. [canMakeRequests] keeps its promise on a limiter whose loop is idle:
    when it answers [true] for a count, that many tasks submitted then are
    all started at once, in the order submitted, and none is left waiting. *)
Theorem canMakeRequests_is_honoured (T : Type) (w : world T) (tasks : list T) :
  processing (limiter w) = false -> queue (limiter w) = [] ->
  fst (canMakeRequests T (Z.of_nat (List.length tasks)) w) = true ->
  started (run w (map Throttle tasks))
  = started w ++ map (fun task => (task, clock w)) tasks /\
  queue (limiter (run w (map Throttle tasks))) = [] /\
  (tasks <> [] -> timer (run w (map Throttle tasks)) = None).
Proof.
  intros Hp Hq Hcan.
  destruct tasks as [|task tasks].
  - simpl. rewrite app_nil_r. repeat split; auto. congruence.
  - unfold canMakeRequests in Hcan. simpl in Hcan. apply Z.leb_le in Hcan.
    destruct (throttle_all_idle (task :: tasks) w Hp Hq) as (H1 & H2 & H3 & H4 & H5).
    + simpl List.length. lia.
    + auto.
Qed.

Lemma canMakeRequests_is_honoured_witness :
  started (run (run (boot 3 0) [Throttle "T1"; Elapse 10]) (map Throttle ["T2"; "T3"]))
  = started (run (boot 3 0) [Throttle "T1"; Elapse 10])
    ++ map (fun task => (task, clock (run (boot 3 0) [Throttle "T1"; Elapse 10])))
           ["T2"; "T3"] /\
  queue (limiter (run (run (boot 3 0) [Throttle "T1"; Elapse 10])
                      (map Throttle ["T2"; "T3"]))) = [] /\
  (["T2"; "T3"] <> [] ->
   timer (run (run (boot 3 0) [Throttle "T1"; Elapse 10]) (map Throttle ["T2"; "T3"]))
   = None).
Proof.
  apply (canMakeRequests_is_honoured string
           (run (boot 3 0) [Throttle "T1"; Elapse 10]) ["T2"; "T3"]).
  - reflexivity.
  - reflexivity.
  - reflexivity.
Defined.

(** X19. A fresh limiter takes a burst of [maxRpm] tasks and no more: submitted
    together, the first [maxRpm] are started at once and the next one waits,
    with the timer set 60 100 ms ahead, the minute and the buffer of 100
    ms. *)
Theorem fresh_limiter_takes_one_burst (T : Type) (limit : nat) (now : Z)
    (tasks : list T) (next : T) :
  1 <= limit -> List.length tasks = limit ->
  started (run (boot (Z.of_nat limit) now) (map Throttle (tasks ++ [next])))
  = map (fun task => (task, now)) tasks /\
  queue (limiter (run (boot (Z.of_nat limit) now) (map Throttle (tasks ++ [next]))))
  = [next] /\
  timer (run (boot (Z.of_nat limit) now) (map Throttle (tasks ++ [next])))
  = Some (now + 60100)%Z.
Proof.
  intros Hpos Hlen.
  assert (Hne : tasks <> []) by (intros ->; simpl in Hlen; lia).
  rewrite map_app. unfold run at 1 2 3. rewrite !fold_left_app.
  fold (run (boot (Z.of_nat limit) now : world T) (map Throttle tasks)).
  destruct (throttle_all_idle tasks (boot (Z.of_nat limit) now)) as (Hs & Hp & Hq & Hc & _);
    auto; [simpl; rewrite Hlen; lia|].
  destruct (throttle_all_stamps tasks (boot (Z.of_nat limit) now : world T))
    as (Hr & Hm); auto; [simpl; rewrite Hlen; lia|].
  set (w := run (boot (Z.of_nat limit) now) (map Throttle tasks)) in *.
  simpl in Hs, Hc, Hr, Hm.
  simpl fold_left. unfold throttle, processQueue. simpl. rewrite Hp.
  unfold resume. simpl. rewrite Hq, Hr, Hm, Hc, Hlen. simpl.
  rewrite prune_repeat, repeat_length.
  rewrite Z.ltb_irrefl. cbn [started_now limiter_after sleeping queue limiter timer started].
  rewrite Hs, app_nil_r. split; [reflexivity|]. split; [reflexivity|].
  destruct limit as [|limit]; [lia|].
  cbn [repeat timeToWait]. f_equal. lia.
Qed.

Lemma fresh_limiter_takes_one_burst_witness :
  started (run (boot (Z.of_nat 2) 5) (map Throttle (["T1"; "T2"] ++ ["T3"])))
  = map (fun task => (task, 5%Z)) ["T1"; "T2"] /\
  queue (limiter (run (boot (Z.of_nat 2) 5) (map Throttle (["T1"; "T2"] ++ ["T3"]))))
  = ["T3"] /\
  timer (run (boot (Z.of_nat 2) 5) (map Throttle (["T1"; "T2"] ++ ["T3"])))
  = Some (5 + 60100)%Z.
Proof.
  apply (fresh_limiter_takes_one_burst string 2 5 ["T1"; "T2"] "T3").
  - lia.
  - reflexivity.
Defined.

(** X20. A limit of zero or less admits nothing: no task is ever started, and
    all tasks submitted stay in the queue, in the order submitted. *)
Theorem nonpositive_limit_admits_nothing (T : Type) (M now : Z) (events : list (event T)) :
  (M <= 0)%Z ->
  started (run (boot M now) events) = [] /\
  queue (limiter (run (boot M now) events)) = submitted events.
Proof.
  intros HM.
  assert (Hc : closed M (boot M now : world T)) by (repeat split).
  destruct (run_closed M events _ HM Hc) as (_ & Hs & _).
  destruct (run_inv M events (boot M now) (inv_boot M now)) as [_ Hfifo].
  rewrite Hs in Hfifo. split; auto.
Qed.

Lemma nonpositive_limit_admits_nothing_witness :
  started (run (boot 0 0) [Throttle "T1"; Elapse 70000; TimerFires; Throttle "T2"]) = [] /\
  queue (limiter (run (boot 0 0) [Throttle "T1"; Elapse 70000; TimerFires; Throttle "T2"]))
  = submitted [Throttle "T1"; Elapse 70000; TimerFires; Throttle "T2"].
Proof.
  apply (nonpositive_limit_admits_nothing string 0 0
           [Throttle "T1"; Elapse 70000; TimerFires; Throttle "T2"]).
  lia.
Defined.

(** X21. With a limit of at least 1, a loop that sleeps is asleep for a reason
    and not for long: some task is waiting, the timer is due within 60 100
    ms, and when it fires, then or later, the task at the head of the queue
    is started at that time. *)
Theorem sleeping_loop_wakes_and_admits (T : Type) (M now : Z) (events : list (event T))
    (due : Z) :
  (1 <= M)%Z ->
  timer (run (boot M now) events) = Some due ->
  (due <= clock (run (boot M now) events) + 60100)%Z /\
  exists task rest,
    queue (limiter (run (boot M now) events)) = task :: rest /\
    forall ms,
      (due <= clock (run (boot M now) events) + Z.of_N ms)%Z ->
      exists more,
        started (run (run (boot M now) events) [Elapse ms; TimerFires])
        = started (run (boot M now) events)
          ++ (task, (clock (run (boot M now) events) + Z.of_N ms)%Z) :: more.
Proof.
  intros HM Htimer.
  set (w := run (boot M now) events) in *.
  pose proof (run_timed M events _ HM (timed_boot M now HM)) as Ht. fold w in Ht.
  assert (Hsleep : queue (limiter w) <> [] /\ (due <= clock w + 60100)%Z).
  { destruct Ht as [_ _ _ Hidle Hbusy].
    destruct (processing (limiter w)) eqn:Hp.
    - destruct (Hbusy eq_refl) as (due' & H1 & H2 & H3 & _).
      assert (due' = due) by congruence. subst due'. auto.
    - rewrite (Hidle eq_refl) in Htimer. discriminate. }
  destruct Hsleep as [Hq Hdue]. split; [exact Hdue|].
  destruct (queue (limiter w)) as [|task rest] eqn:Hqueue; [congruence|].
  exists task, rest. split; [reflexivity|]. intros ms Hms.
  destruct (timer_admits M w due (clock w + Z.of_N ms)%Z Ht Htimer)
    as (task' & rest' & Hq' & more & Hstart); try lia.
  rewrite Hqueue in Hq'. injection Hq' as <- <-.
  exists more. simpl. rewrite Htimer.
  replace (due <=? clock w + Z.of_N ms)%Z with true
    by (symmetry; apply Z.leb_le; lia).
  unfold resume. simpl. rewrite (timed_limit _ _ Ht), Hqueue.
  rewrite Hqueue in Hstart. now rewrite Hstart.
Qed.

Lemma sleeping_loop_wakes_and_admits_witness :
  (60100 <= clock (run (boot 1 0) [Throttle "T1"; Elapse 10; Throttle "T2"]) + 60100)%Z /\
  exists task rest,
    queue (limiter (run (boot 1 0) [Throttle "T1"; Elapse 10; Throttle "T2"]))
    = task :: rest /\
    forall ms,
      (60100 <= clock (run (boot 1 0) [Throttle "T1"; Elapse 10; Throttle "T2"])
                + Z.of_N ms)%Z ->
      exists more,
        started (run (run (boot 1 0) [Throttle "T1"; Elapse 10; Throttle "T2"])
                     [Elapse ms; TimerFires])
        = started (run (boot 1 0) [Throttle "T1"; Elapse 10; Throttle "T2"])
          ++ (task, (clock (run (boot 1 0) [Throttle "T1"; Elapse 10; Throttle "T2"])
                     + Z.of_N ms)%Z) :: more.
Proof.
  apply (sleeping_loop_wakes_and_admits string 1 0
           [Throttle "T1"; Elapse 10; Throttle "T2"] 60100).
  - lia.
  - reflexivity.
Defined.

(* ----------------------------------------------------------------- *)
(** ** agent.js *)

Import Agent AgentFacts.



(** A response whose result is written with a fraction or an exponent, or is
    an integer past 2^53, is read by [JSON.parse] to a number that is beyond
    this development; a response that is no JSON text is a red flag. *)
Example responses_read (wording : string -> string) :
  runMicroAgent shipped wording VNull "Add 3" (inl (answer_text "r" "0.92")) = None /\
  runMicroAgent shipped wording VNull "Add 3" (inl (answer_text "r" "1e2")) = None /\
  runMicroAgent shipped wording VNull "Add 3" (inl (answer_text "r" "9007199254740993"))
    = None /\
  runMicroAgent shipped wording VNull "Add 3" (inl (answer_text "r" "5"))
    = Some ([], VNum 5) /\
  runMicroAgent shipped wording VNull "Add 3" (inl (answer_text "r" "5."))
    = Some ([], VNull) /\
  runMicroAgent shipped wording VNull "Add 3" (inl "I think the answer is 5")
    = Some ([], VNull).
Proof. repeat split; reflexivity. Qed.

(* ----------------------------------------------------------------- *)
(** ** planner.js *)

Import Planner.

(** X24. The planner accepts its plan with Markdown fences on: a JSON array of
    instructions without backquotes, put between [```json] and [```] with
    any white space around, is returned as the plan, instruction by
    instruction. *)
Theorem fenced_plan_is_accepted (steps : list string) (ws1 ws2 ws3 ws4 : string) :
  no_backquote (canonicalStringify (VArr (map VStr steps))) = true ->
  all_white ws1 = true -> all_white ws2 = true ->
  all_white ws3 = true -> all_white ws4 = true ->
  decomposeTask
    (inl (fenced ws1 ws2 (canonicalStringify (VArr (map VStr steps))) ws3 ws4))
  = inl (VArr (map VStr steps)).
Proof.
  intros Hb H1 H2 H3 H4.
  set (plan := VArr (map VStr steps)) in *.
  assert (Hshape : exists m, canonicalStringify plan = String "[" (m ++ str1 "]")).
  { unfold plan. simpl. eexists. reflexivity. }
  destruct Hshape as [m Hshape].
  unfold decomposeTask. cbv zeta. rewrite Hshape.
  rewrite cleanText_fenced by (auto; now rewrite <- Hshape).
  rewrite <- Hshape. rewrite JSON_parse_canonical.
  - f_equal. unfold plan. simpl. f_equal. rewrite map_map. reflexivity.
  - unfold plan. simpl. rewrite forallb_forall. intros x Hx.
    apply in_map_iff in Hx. now destruct Hx as (s & <- & _).
  - unfold plan. apply distinct_keys_arr. apply Forall_forall. intros x Hx.
    apply in_map_iff in Hx. destruct Hx as (s & <- & _). exact I.
Qed.

Lemma fenced_plan_is_accepted_witness :
  decomposeTask
    (inl (fenced "" (str1 newline)
            (canonicalStringify (VArr (map VStr ["Start with 0"; "Add 10"])))
            (str1 newline) (str1 newline)))
  = inl (VArr (map VStr ["Start with 0"; "Add 10"])).
Proof.
  apply (fenced_plan_is_accepted ["Start with 0"; "Add 10"]
           "" (str1 newline) (str1 newline) (str1 newline)); reflexivity.
Defined.

(* ----------------------------------------------------------------- *)
(** ** bin/maker.js *)

Import RunFacts.

(** X25. The merge of a winning value, field by field. Apart from [history], a
    value that is a mapping sets the fields it has and leaves every other
    field of the state as it was, [current_value] included; any other
    value, an array or [null] as well, is stored whole as [current_value]
    and leaves every other field as it was. No field is ever removed. *)
Theorem merge_is_field_by_field (st : state) (value : jsval) (history : list jsval) :
  NoDup (map fst st) -> get st "history" = Some (VArr history) ->
  distinct_keys value ->
  exists st',
    merge st value = Return st' /\
    (forall k, k <> "history" ->
       get st' k =
       match value with
       | VObj props =>
           match get props k with
           | Some v => Some v
           | None => get st k
           end
       | _ => if (k =? "current_value")%string then Some value else get st k
       end) /\
    (forall k, get st k <> None -> get st' k <> None).
Proof.
  intros Hnd Hh Hd. unfold merge. rewrite Hh. simpl.
  assert (Hfields : forall st' : state,
            (forall k, k <> "history" ->
               get st' k = if (k =? "current_value")%string then Some value else get st k) ->
            get st' "history" <> None ->
            forall k, get st k <> None -> get st' k <> None).
  { intros st' Hf Hhist k Hk. destruct (String.eqb_spec k "history") as [->|Hne]; auto.
    rewrite Hf by assumption. destruct (k =? "current_value")%string; [discriminate|auto]. }
  assert (Hplain : forall st' : state,
            st' = set (set (spread [] st) "current_value" value) "history"
                      (VArr (slice_last5 (history ++ [value]))) ->
            (forall k, k <> "history" ->
               get st' k = if (k =? "current_value")%string then Some value else get st k) /\
            (forall k, get st k <> None -> get st' k <> None)).
  { intros st' ->.
    assert (Hf : forall k, k <> "history" ->
              get (set (set (spread [] st) "current_value" value) "history"
                       (VArr (slice_last5 (history ++ [value])))) k
              = if (k =? "current_value")%string then Some value else get st k).
    { intros k Hk. rewrite get_set_other by congruence.
      destruct (String.eqb_spec k "current_value") as [->|Hne].
      - apply get_set_same.
      - rewrite get_set_other by congruence. now apply get_copy. }
    split; [exact Hf|]. apply Hfields; auto. rewrite get_set_same. discriminate. }
  destruct value as [| | b | n | s | xs | props];
    try (eexists; split; [reflexivity|]; now apply Hplain).
  apply distinct_keys_obj in Hd. destruct Hd as [Hndp _].
  eexists. split; [reflexivity|].
  assert (Hf : forall k, k <> "history" ->
            get (set (spread (spread [] st) props) "history"
                     (VArr (slice_last5 (history ++ [VObj props])))) k
            = match get props k with Some v => Some v | None => get st k end).
  { intros k Hk. rewrite get_set_other by congruence.
    rewrite get_spread by assumption. now rewrite get_copy. }
  split; [exact Hf|].
  intros k Hk. destruct (String.eqb_spec k "history") as [->|Hne].
  - rewrite get_set_same. discriminate.
  - rewrite Hf by assumption. destruct (get props k); [discriminate|auto].
Qed.

Lemma merge_is_field_by_field_witness :
  exists st',
    merge [("original_task", VStr "the task"); ("history", VArr [VNum 7]);
           ("current_value", VNum 7)]
          (VObj [("x", VNum 0)]) = Return st' /\
    (forall k, k <> "history" ->
       get st' k =
       match get [("x", VNum 0)] k with
       | Some v => Some v
       | None => get [("original_task", VStr "the task"); ("history", VArr [VNum 7]);
                      ("current_value", VNum 7)] k
       end) /\
    (forall k, get [("original_task", VStr "the task"); ("history", VArr [VNum 7]);
                    ("current_value", VNum 7)] k <> None -> get st' k <> None).
Proof.
  apply (merge_is_field_by_field
           [("original_task", VStr "the task"); ("history", VArr [VNum 7]);
            ("current_value", VNum 7)]
           (VObj [("x", VNum 0)]) [VNum 7]).
  - simpl. repeat constructor; simpl; intuition discriminate.
  - reflexivity.
  - simpl. split; [|tauto]. constructor; [simpl; tauto|constructor].
Defined.

(** X26. With batches that are not empty, a run of the command ends, whatever
    the plan and whatever the workers answer: it prints the final result,
    or it exits; it never hangs. *)
Theorem action_always_ends (cfg : CONFIG)
    (runMicroAgent : state -> string -> nat -> option jsval)
    (high : bool) (prompt : string) (plan : list string + exception) :
  (ENABLE_PARALLEL cfg = true -> 1 <= BATCH_SIZE cfg) ->
  snd (action cfg runMicroAgent high prompt plan) <> Hangs.
Proof.
  intros HB. unfold action. destruct plan as [steps|error]; [|discriminate].
  pose proof (execute_ends (if high then high_quality cfg else cfg) runMicroAgent high
                (List.length steps) steps 0 (initial_state prompt)) as Hends.
  destruct (execute _ runMicroAgent high (List.length steps) steps 0 (initial_state prompt))
    as [out e]. simpl in *. apply Hends. now destruct high.
Qed.

Lemma action_always_ends_witness :
  snd (action shipped alternating true "the task" (inl ["a step"; "another"])) <> Hangs.
Proof.
  apply (action_always_ends shipped alternating true "the task" (inl ["a step"; "another"])).
  intros _. simpl. lia.
Defined.

(** X27. DEV_MODE changes what is written and nothing else: two configurations
    that differ in it at most end every run the same way, with the same
    final state or the same exit code and state. *)
Theorem dev_mode_does_not_change_the_ending (cfg cfg' : CONFIG)
    (runMicroAgent : state -> string -> nat -> option jsval)
    (high : bool) (prompt : string) (plan : list string + exception) :
  MODEL_NAME cfg = MODEL_NAME cfg' ->
  VOTE_MARGIN_K cfg = VOTE_MARGIN_K cfg' ->
  MAX_ATTEMPTS_PER_STEP cfg = MAX_ATTEMPTS_PER_STEP cfg' ->
  MAX_RPM cfg = MAX_RPM cfg' ->
  BATCH_SIZE cfg = BATCH_SIZE cfg' ->
  ENABLE_PARALLEL cfg = ENABLE_PARALLEL cfg' ->
  EARLY_TERMINATION cfg = EARLY_TERMINATION cfg' ->
  snd (action cfg runMicroAgent high prompt plan)
  = snd (action cfg' runMicroAgent high prompt plan).
Proof.
  intros _ HK HM _ HB HP HE. unfold action. destruct plan as [steps|error]; [|reflexivity].
  assert (Hsame : same_engine (if high then high_quality cfg else cfg)
                              (if high then high_quality cfg' else cfg')).
  { destruct high; repeat split; auto. }
  pose proof (execute_same _ _ Hsame runMicroAgent high (List.length steps) steps 0
                (initial_state prompt)) as Heq.
  destruct (execute (if high then high_quality cfg else cfg) runMicroAgent high
              (List.length steps) steps 0 (initial_state prompt)) as [out e].
  destruct (execute (if high then high_quality cfg' else cfg') runMicroAgent high
              (List.length steps) steps 0 (initial_state prompt)) as [out' e'].
  exact Heq.
Qed.

Lemma dev_mode_does_not_change_the_ending_witness :
  snd (action (sequential 2 6) alternating false "the task" (inl ["a step"]))
  = snd (action {| MODEL_NAME := "gemini-flash-lite-latest"; VOTE_MARGIN_K := 2;
                   MAX_ATTEMPTS_PER_STEP := 6; MAX_RPM := 3500; BATCH_SIZE := 50;
                   ENABLE_PARALLEL := false; EARLY_TERMINATION := true;
                   DEV_MODE := true |}
                alternating false "the task" (inl ["a step"])).
Proof.
  apply (dev_mode_does_not_change_the_ending (sequential 2 6)
           {| MODEL_NAME := "gemini-flash-lite-latest"; VOTE_MARGIN_K := 2;
              MAX_ATTEMPTS_PER_STEP := 6; MAX_RPM := 3500; BATCH_SIZE := 50;
              ENABLE_PARALLEL := false; EARLY_TERMINATION := true;
              DEV_MODE := true |}
           alternating false "the task" (inl ["a step"])); reflexivity.
Defined.

End Properties.
